(** * S2A half connection: record protection state of one direction

    A shallow embedding of package [crypter] of the S2A transport security
    code ([halfconn.go], [common.go]) and a verification of its nonce
    masking, sequence numbering, key derivation and buffer handling.

    Conventions of the embedding.
    - A Go [byte] is a [Z] in [0, 256); a [[]byte] read as a value is a
      [list Z]; the conversion [byte(x)] keeps the low 8 bits.
    - A [uint64] is a [Z] in [0, 2^64); an [int] is a 64-bit signed [Z].
    - A Go function returning [(T, error)] returns [T * option error].
    - A run-time panic is an explicit outcome.
    - [sync.Mutex] is not modelled: the functions give the semantics of
      one call at a time. [Encrypt] and [Decrypt] call the AEAD after they
      have released the lock; where that matters [Encrypt] is given as its
      two halves, [Encrypt_locked] and [Encrypt_unlocked].
    - Byte strings are values, except in module [Mem], where slices are
      headers over a heap of arrays and can share storage. *)

From Stdlib Require Import ZArith Lia.
From stdpp Require Import base option list gmap strings.

Local Open Scope Z_scope.

(** ** Bytes and machine integers *)

Abbreviation bytes := (list Z).

Definition is_byte (b : Z) : Prop := 0 <= b < 256.

(** [len(b)] *)
Definition len (b : bytes) : Z := Z.of_nat (length b).

(** The conversion [byte(x)] of an unsigned integer. *)
Definition to_byte (x : Z) : Z := Z.land x 255.

(** The conversion [uint16(x)] of an [int]. *)
Definition to_uint16 (x : Z) : Z := x mod 65536.

Definition max_uint64 : Z := 2 ^ 64 - 1.
Definition max_int : Z := 2 ^ 63 - 1.
Definition min_int : Z := - 2 ^ 63.

(** Two's complement wrap-around of [int] arithmetic. *)
Definition wrap_int (x : Z) : Z := (x + 2 ^ 63) mod 2 ^ 64 - 2 ^ 63.

(** [[]byte(s)] for a string constant. *)
Definition bytes_of_string (s : string) : bytes :=
  map (fun c => Z.of_N (Ascii.N_of_ascii c)) (String.list_ascii_of_string s).

(** [make([]byte, n)] read as a value: [n] zero bytes. *)
Definition make (n : Z) : bytes := replicate (Z.to_nat n) 0.

(** [copy(dst, src)]: the contents of [dst] afterwards; the first
    [min(len(dst), len(src))] bytes come from [src]. *)
Definition copy (dst src : bytes) : bytes :=
  take (length dst) src ++ drop (length src) dst.

(** ** Big-endian rendering (the reference the masking is compared with) *)

(** The [n] low-order bytes of [v], most significant first. *)
Fixpoint be_bytes (n : nat) (v : Z) : bytes :=
  match n with
  | O => []
  | S n' => be_bytes n' (v / 256) ++ [v mod 256]
  end.

(** The number a byte string denotes, most significant byte first. *)
Definition be_value (b : bytes) : Z := fold_left (fun acc x => acc * 256 + x) b 0.

Definition be64 (v : Z) : bytes := be_bytes 8 v.

(** Bytewise exclusive or of two byte strings. *)
Definition xor_bytes (a b : bytes) : bytes := zip_with Z.lxor a b.

(** ** Errors and outcomes *)

(** An error value built by [fmt.Errorf(format, args...)] or [errors.New]:
    the format string with its arguments, unformatted. *)
Inductive error : Type :=
| Errorf (format : string) (args : list errarg)
with errarg : Type :=
| AInt (z : Z)
| ABytes (b : bytes)
| AStr (s : string)
| AErr (e : error).

Inductive panic : Type :=
| IndexOutOfRange (index length : Z)
| SliceBoundsOutOfRange (bound capacity : Z)
| MakeLenOutOfRange (n : Z)
| OutOfMemory
| NilDereference.

Inductive outcome (A : Type) : Type :=
| Done (a : A)
| Panicked (p : panic).
Arguments Done {A} a.
Arguments Panicked {A} p.

(** ** Package constants ([halfconn.go], [common.go]) *)

Definition uint64Size : Z := 8.

Definition tls13Key : string := "tls13 key".
Definition tls13Nonce : string := "tls13 iv".
Definition tls13Update : string := "tls13 traffic upd".

Definition GcmTagSize : Z := 16.
Definition NonceSize : Z := 12.
(** [halfconn.go] refers to the nonce size constant as [nonceSize]. *)
Definition nonceSize : Z := NonceSize.

(** ** Nonce masking on byte values *)

(** [b[j] ^= v], with Go's bounds check. *)
Definition xor_assign (b : bytes) (j : Z) (v : Z) : outcome bytes :=
  if j <? 0 then Panicked (IndexOutOfRange j (len b))
  else match b !! Z.to_nat j with
       | Some x => Done (<[Z.to_nat j := Z.lxor x v]> b)
       | None => Panicked (IndexOutOfRange j (len b))
       end.

(** The loop [for i := 0; i < uint64Size; i++ { nonce[nonceSize-uint64Size+i] ^=
    byte(sequence >> uint64(56-uint64Size*i)) }], entered at [i] with
    [todo] iterations left. *)
Fixpoint maskedNonce_loop (todo : nat) (i : Z) (nonce : bytes) (sequence : Z)
  : outcome bytes :=
  match todo with
  | O => Done nonce
  | S todo' =>
      match xor_assign nonce (nonceSize - uint64Size + i)
              (to_byte (Z.shiftr sequence (56 - uint64Size * i))) with
      | Done nonce' => maskedNonce_loop todo' (i + 1) nonce' sequence
      | Panicked p => Panicked p
      end
  end.

(** The body of [maskedNonce] on the value of [hc.nonce]. *)
Definition maskedNonce_bytes (static : bytes) (sequence : Z) : outcome bytes :=
  let nonce := copy (make (len static)) static in
  maskedNonce_loop (Z.to_nat uint64Size) 0 nonce sequence.

(** ** [golang.org/x/crypto/cryptobyte]: the part of [Builder] that
    [deriveSecret] uses

    The library is an external dependency; this is its documented
    behaviour. A builder accumulates bytes; once an error is recorded every
    later addition is ignored and [Bytes] returns the error. A
    length-prefixed child whose contents do not fit the prefix records an
    error. *)
Module cryptobyte.

Record Builder : Type := { result : bytes; err : option error }.

(** [var b cryptobyte.Builder] *)
Definition zero : Builder := {| result := []; err := None |}.

Definition add (v : bytes) (b : Builder) : Builder :=
  match err b with
  | Some _ => b
  | None => {| result := result b ++ v; err := None |}
  end.

(** [b.AddUint16(v)]: [v] big-endian, [byte(v>>8), byte(v)]. *)
Definition AddUint16 (v : Z) (b : Builder) : Builder :=
  add [to_byte (Z.shiftr v 8); to_byte v] b.

(** [b.AddBytes(v)] *)
Definition AddBytes (v : bytes) (b : Builder) : Builder := add v b.

(** [b.AddUint8LengthPrefixed(f)]: runs [f] on a child builder, then
    writes the length of what the child produced on one byte followed by
    it; a child longer than 255 bytes is an error. *)
Definition AddUint8LengthPrefixed (f : Builder -> Builder) (b : Builder) : Builder :=
  match err b with
  | Some _ => b
  | None =>
      let child := f zero in
      match err child with
      | Some e => {| result := result b; err := Some e |}
      | None =>
          let length := len (result child) in
          if 255 <? length
          then {| result := result b;
                  err := Some (Errorf "cryptobyte: pending child length %d exceeds %d-byte length prefix"
                                 [AInt length; AInt 1]) |}
          else {| result := result b ++ [length] ++ result child; err := None |}
      end
  end.

(** [b.Bytes()] *)
Definition Bytes (b : Builder) : bytes * option error :=
  match err b with
  | Some e => ([], Some e)
  | None => (result b, None)
  end.

End cryptobyte.

(** ** The collaborators of the half connection

    The sequence counter, the ciphersuite table, the HKDF expander and the
    AEAD crypters live in other files of the package; [halfconn.go] uses
    them through the interfaces below. *)

(** Modelled from the spec: the type [counter] ([counter.go] is missing),
    the sequence counter of section 4.3: a 64-bit value, starting at 0, with
    an overflow state. *)
Record counter : Type := { val : Z; hasOverflowed : bool }.

(** Modelled from the spec: [newCounter()] (missing); the counter starts
    at 0. *)
Definition newCounter : counter := {| val := 0; hasOverflowed := false |}.

(** Modelled from the spec: [counter.value()] (missing) returns the current
    value and fails with the overflow error once the counter has been
    incremented 2^64 times. *)
Definition value (c : counter) : Z * option error :=
  if hasOverflowed c then (0, Some (Errorf "SequenceOverflowError" []))
  else (val c, None).

(** Modelled from the spec: [counter.increment()] (missing) advances by
    one, never wraps (past the last 64-bit value it enters the overflow
    state), and does nothing once overflowed. *)
Definition increment (c : counter) : counter :=
  if hasOverflowed c then c
  else if val c =? max_uint64 then {| val := val c; hasOverflowed := true |}
  else {| val := val c + 1; hasOverflowed := false |}.

(** Modelled from the spec: [counter.reset()] (missing) sets the counter
    to 0. *)
Definition reset (c : counter) : counter := newCounter.

(** The enumeration [s2a_proto.Ciphersuite]: the closed set of supported
    identifiers. *)
Inductive Ciphersuite : Type :=
| Ciphersuite_AES_128_GCM_SHA256
| Ciphersuite_AES_256_GCM_SHA384
| Ciphersuite_CHACHA20_POLY1305_SHA256.

(** A hash constructor [func() hash.Hash]; [None] is the nil function. *)
Inductive hashId : Type := SHA256 | SHA384.

(** Modelled from the spec: the interface [ciphersuite] and its three
    implementations ([ciphersuite.go] is missing), the configuration of
    sections 3 and 4.1: an immutable mapping from the identifier to hash,
    key size, nonce size and traffic secret size. *)
Inductive ciphersuite : Type :=
| aesgcm128sha256
| aesgcm256sha384
| chachapolysha256.

(** Modelled from the spec: [newCiphersuite(ciphersuite)] (missing), the
    configuration for an identifier. *)
Definition newCiphersuite (c : Ciphersuite) : ciphersuite :=
  match c with
  | Ciphersuite_AES_128_GCM_SHA256 => aesgcm128sha256
  | Ciphersuite_AES_256_GCM_SHA384 => aesgcm256sha384
  | Ciphersuite_CHACHA20_POLY1305_SHA256 => chachapolysha256
  end.

(** Modelled from the spec: [cs.keySize()] (missing), the key size in
    bytes of AES-128, AES-256 and ChaCha20. *)
Definition keySize (c : ciphersuite) : Z :=
  match c with
  | aesgcm128sha256 => 16
  | aesgcm256sha384 => 32
  | chachapolysha256 => 32
  end.

(** Modelled from the spec: [cs.nonceSize()] (missing), 12 bytes for all
    supported suites. *)
Definition cs_nonceSize (c : ciphersuite) : Z := NonceSize.

(** Modelled from the spec: [cs.hashFunction()] (missing), the hash the
    suite is named after. *)
Definition hashFunction (c : ciphersuite) : option hashId :=
  match c with
  | aesgcm128sha256 => Some SHA256
  | aesgcm256sha384 => Some SHA384
  | chachapolysha256 => Some SHA256
  end.

(** Modelled from the spec: [cs.trafficSecretSize()] (missing), the digest
    size of the hash: 32 bytes for SHA-256, 48 for SHA-384. *)
Definition trafficSecretSize (c : ciphersuite) : Z :=
  match c with
  | aesgcm128sha256 => 32
  | aesgcm256sha384 => 48
  | chachapolysha256 => 32
  end.

(** The interface [hkdfExpander] behind the field [expander]: its one
    method [expand(h, secret, label, length)], a function of its arguments
    (section 4.2 of the spec). *)
Record hkdfExpander : Type :=
  { expand : option hashId -> bytes -> bytes -> Z -> bytes * option error }.

(** Modelled from the spec: the objects behind the interface
    [s2aAeadCrypter] (their files are missing), the AEAD crypter of section
    4.4: one variant per ciphersuite, holding its key. *)
Record aead : Type := { aead_suite : ciphersuite; aead_key : bytes }.

(** Heap locations: of crypter objects, and of byte arrays further down. *)
Definition loc : Type := nat.

(** ** State *)

Record S2AHalfConnection : Type := {
  cs : option ciphersuite;
  h : option hashId;
  aeadCrypter : option loc;
  expander : option hkdfExpander;
  seqCounter : counter;
  trafficSecret : bytes;
  nonce : bytes;
  key : bytes
}.

(** [S2AHalfConnection{}] *)
Definition zeroHalfConn : S2AHalfConnection :=
  {| cs := None; h := None; aeadCrypter := None; expander := None;
     seqCounter := {| val := 0; hasOverflowed := false |};
     trafficSecret := []; nonce := []; key := [] |}.

Definition set_seqCounter (c : counter) (hc : S2AHalfConnection) : S2AHalfConnection :=
  {| cs := cs hc; h := h hc; aeadCrypter := aeadCrypter hc; expander := expander hc;
     seqCounter := c;
     trafficSecret := trafficSecret hc; nonce := nonce hc; key := key hc |}.

Definition set_trafficSecret (b : bytes) (hc : S2AHalfConnection) : S2AHalfConnection :=
  {| cs := cs hc; h := h hc; aeadCrypter := aeadCrypter hc; expander := expander hc;
     seqCounter := seqCounter hc;
     trafficSecret := b; nonce := nonce hc; key := key hc |}.

Definition set_nonce (b : bytes) (hc : S2AHalfConnection) : S2AHalfConnection :=
  {| cs := cs hc; h := h hc; aeadCrypter := aeadCrypter hc; expander := expander hc;
     seqCounter := seqCounter hc;
     trafficSecret := trafficSecret hc; nonce := b; key := key hc |}.

Definition set_key (b : bytes) (hc : S2AHalfConnection) : S2AHalfConnection :=
  {| cs := cs hc; h := h hc; aeadCrypter := aeadCrypter hc; expander := expander hc;
     seqCounter := seqCounter hc;
     trafficSecret := trafficSecret hc; nonce := nonce hc; key := b |}.

Definition set_aeadCrypter (c : option loc) (hc : S2AHalfConnection) : S2AHalfConnection :=
  {| cs := cs hc; h := h hc; aeadCrypter := c; expander := expander hc;
     seqCounter := seqCounter hc;
     trafficSecret := trafficSecret hc; nonce := nonce hc; key := key hc |}.

(** The calls made to the collaborators, in order (ghost state). An
    encrypt, decrypt or key update names the crypter object it is invoked
    on; [used] is the key that object holds when it is invoked. *)
Inductive event : Type :=
| EvExpand (hf : option hashId) (secret info : bytes) (length : Z)
| EvNewCrypter (suite : ciphersuite) (k : bytes)
| EvEncrypt (c : loc) (used dst plaintext nonce aad : bytes)
| EvDecrypt (c : loc) (used dst ciphertext nonce aad : bytes)
| EvUpdateKey (c : loc) (k : bytes).

(** What lies outside the half connection: the crypter objects it points to
    and the trace of calls. *)
Record world : Type := { crypters : gmap loc aead; trace : list event }.

Definition state : Type := S2AHalfConnection * world.

(** ** A state monad with panics for the methods of [*S2AHalfConnection] *)

Definition M (A : Type) : Type := state -> outcome A * state.

Definition ret {A : Type} (a : A) : M A := fun s => (Done a, s).

Definition bind {A B : Type} (m : M A) (f : A -> M B) : M B :=
  fun s => match m s with
           | (Done a, s') => f a s'
           | (Panicked p, s') => (Panicked p, s')
           end.

Notation "'let*' x := m 'in' k" := (bind m (fun x => k))
  (at level 10, x name, m at level 100, k at level 200).

Definition throw {A : Type} (p : panic) : M A := fun s => (Panicked p, s).

Definition get_hc : M S2AHalfConnection := fun s => (Done (fst s), s).

Definition modify_hc (f : S2AHalfConnection -> S2AHalfConnection) : M unit :=
  fun s => (Done tt, (f (fst s), snd s)).

Definition get_world : M world := fun s => (Done (snd s), s).

Definition emit (e : event) : M unit :=
  fun s => (Done tt, (fst s, {| crypters := crypters (snd s); trace := trace (snd s) ++ [e] |})).

Definition store_crypter (l : loc) (a : aead) : M unit :=
  fun s => (Done tt, (fst s, {| crypters := <[l := a]> (crypters (snd s)); trace := trace (snd s) |})).

(** Calling a method through an interface value: nil panics. *)
Definition deref {A : Type} (o : option A) : M A :=
  match o with
  | Some a => ret a
  | None => throw NilDereference
  end.

(** ** The ciphers behind the interfaces

    What the AEAD primitives compute ([crypto/cipher], [chacha20poly1305])
    and what the default HKDF expander computes ([crypto/hkdf]) is outside
    this package; the development is parametric in them. [seal suite k dst
    plaintext nonce aad] is the result of a crypter's [encrypt] under key
    [k], [open] that of [decrypt]. *)
Class Ciphers : Type := {
  seal : ciphersuite -> bytes -> bytes -> bytes -> bytes -> bytes -> bytes * option error;
  open : ciphersuite -> bytes -> bytes -> bytes -> bytes -> bytes -> bytes * option error;
  defaultHKDFExpander : hkdfExpander
}.

(** ** Methods of the AEAD crypter objects *)

(** Modelled from the spec: [cs.aeadCrypter(key)] (missing) builds a
    crypter for the suite and fails on a key of the wrong size. The new
    object lives at a fresh location. *)
Definition cs_aeadCrypter (suite : ciphersuite) (k : bytes) (w : world)
  : (option loc * option error) * world :=
  let w1 := {| crypters := crypters w; trace := trace w ++ [EvNewCrypter suite k] |} in
  if len k =? keySize suite then
    let l := fresh (dom (crypters w)) in
    ((Some l, None),
     {| crypters := <[l := {| aead_suite := suite; aead_key := k |}]> (crypters w1);
        trace := trace w1 |})
  else ((None, Some (Errorf "ConfigurationError: key must be %v bytes, given: %v"
                          [AInt (keySize suite); AInt (len k)])), w1).

(** The object an interface value points to. *)
Definition crypter_object (c : option loc) : M (loc * aead) :=
  let* l := deref c in
  let* w := get_world in
  let* a := deref (crypters w !! l) in
  ret (l, a).

(** Modelled from the spec: [crypter.encrypt(dst, plaintext, nonce, aad)]
    (missing) hands its arguments to the AEAD of the suite under the key the
    object holds, and leaves the object as it is. *)
Definition crypter_encrypt `{Ciphers} (c : option loc) (dst plaintext nonce aad : bytes)
  : M (bytes * option error) :=
  let* la := crypter_object c in
  let* _ := emit (EvEncrypt (fst la) (aead_key (snd la)) dst plaintext nonce aad) in
  ret (seal (aead_suite (snd la)) (aead_key (snd la)) dst plaintext nonce aad).

(** Modelled from the spec: [crypter.decrypt(dst, ciphertext, nonce, aad)]
    (missing), likewise. *)
Definition crypter_decrypt `{Ciphers} (c : option loc) (dst ciphertext nonce aad : bytes)
  : M (bytes * option error) :=
  let* la := crypter_object c in
  let* _ := emit (EvDecrypt (fst la) (aead_key (snd la)) dst ciphertext nonce aad) in
  ret (open (aead_suite (snd la)) (aead_key (snd la)) dst ciphertext nonce aad).

(** Modelled from the spec: [crypter.updateKey(key)] (missing) replaces
    the key of the object and fails, leaving it as it is, when
    [len(key) != keySize()]. *)
Definition crypter_updateKey (c : option loc) (k : bytes) : M (option error) :=
  let* la := crypter_object c in
  let* _ := emit (EvUpdateKey (fst la) k) in
  if len k =? keySize (aead_suite (snd la)) then
    let* _ := store_crypter (fst la) {| aead_suite := aead_suite (snd la); aead_key := k |} in
    ret None
  else ret (Some (Errorf "ConfigurationError: key must be %v bytes, given: %v"
                    [AInt (keySize (aead_suite (snd la))); AInt (len k)])).

(** ** Methods of [*S2AHalfConnection] ([halfconn.go]) *)

(** The info structure [deriveSecret] builds for [label] and [length]. *)
Definition hkdfLabel (label : bytes) (length : Z) : cryptobyte.Builder :=
  cryptobyte.AddUint8LengthPrefixed (cryptobyte.AddBytes (bytes_of_string ""))
    (cryptobyte.AddUint8LengthPrefixed (cryptobyte.AddBytes label)
       (cryptobyte.AddUint16 (to_uint16 length) cryptobyte.zero)).

(** [hc.deriveSecret(secret, label, length)]: builds the info structure
    and, unless the builder reports an error, calls the expander. *)
Definition deriveSecret (secret label : bytes) (length : Z) : M (bytes * option error) :=
  match cryptobyte.Bytes (hkdfLabel label length) with
  | (_, Some err) => ret ([], Some (Errorf "deriveSecret failed with error: %v" [AErr err]))
  | (hkdfLabelBytes, None) =>
      let* hc := get_hc in
      let* e := deref (expander hc) in
      let* _ := emit (EvExpand (h hc) secret hkdfLabelBytes length) in
      ret (expand e (h hc) secret hkdfLabelBytes length)
  end.

(** [hc.updateWithNewTrafficSecret(newTrafficSecret)]: each assignment
    [hc.key, err = ...], [hc.nonce, err = ...] stores what [deriveSecret]
    returned before the error is looked at. *)
Definition updateWithNewTrafficSecret (newTrafficSecret : bytes) : M (option error) :=
  let* hc := get_hc in
  let* suite := deref (cs hc) in
  let* r := deriveSecret newTrafficSecret (bytes_of_string tls13Key) (keySize suite) in
  let* _ := modify_hc (set_key (fst r)) in
  match snd r with
  | Some err =>
      let* hc := get_hc in
      let* suite := deref (cs hc) in
      ret (Some (Errorf "hc.deriveSecret(h, %v, %v, %v) failed with error: %v"
                   [ABytes (trafficSecret hc); AStr tls13Key; AInt (keySize suite); AErr err]))
  | None =>
      let* hc := get_hc in
      let* suite := deref (cs hc) in
      let* r := deriveSecret newTrafficSecret (bytes_of_string tls13Nonce) (cs_nonceSize suite) in
      let* _ := modify_hc (set_nonce (fst r)) in
      match snd r with
      | Some err =>
          let* hc := get_hc in
          let* suite := deref (cs hc) in
          ret (Some (Errorf "hc.deriveSecret(h, %v, %v, %v) failed with error: %v"
                       [ABytes (trafficSecret hc); AStr tls13Nonce; AInt (cs_nonceSize suite); AErr err]))
      | None => ret None
      end
  end.

(** [hc.getAndIncrementSequence()] *)
Definition getAndIncrementSequence : M (Z * option error) :=
  let* hc := get_hc in
  match value (seqCounter hc) with
  | (_, Some err) => ret (0, Some err)
  | (sequence, None) =>
      let* _ := modify_hc (fun hc => set_seqCounter (increment (seqCounter hc)) hc) in
      ret (sequence, None)
  end.

(** [hc.maskedNonce(sequence)] *)
Definition maskedNonce (sequence : Z) : M bytes :=
  let* hc := get_hc in
  match maskedNonce_bytes (nonce hc) sequence with
  | Done n => ret n
  | Panicked p => throw p
  end.

(** [hc.Encrypt(dst, plaintext, aad)]: sequence number, nonce and crypter
    reference are taken under the lock, in this order; the AEAD call comes
    last. *)
Definition Encrypt `{Ciphers} (dst plaintext aad : bytes) : M (bytes * option error) :=
  let* r := getAndIncrementSequence in
  match snd r with
  | Some err => ret ([], Some err)
  | None =>
      let* n := maskedNonce (fst r) in
      let* hc := get_hc in
      let crypter := aeadCrypter hc in
      crypter_encrypt crypter dst plaintext n aad
  end.

(** [hc.Decrypt(dst, ciphertext, aad)] *)
Definition Decrypt `{Ciphers} (dst ciphertext aad : bytes) : M (bytes * option error) :=
  let* r := getAndIncrementSequence in
  match snd r with
  | Some err => ret ([], Some err)
  | None =>
      let* n := maskedNonce (fst r) in
      let* hc := get_hc in
      let crypter := aeadCrypter hc in
      crypter_decrypt crypter dst ciphertext n aad
  end.

(** [hc.UpdateKey()]: the new secret is stored as soon as it is derived;
    the counter is reset only after the crypter took the new key. *)
Definition UpdateKey : M (option error) :=
  let* hc := get_hc in
  let* suite := deref (cs hc) in
  let* r := deriveSecret (trafficSecret hc) (bytes_of_string tls13Update) (trafficSecretSize suite) in
  let* _ := modify_hc (set_trafficSecret (fst r)) in
  match snd r with
  | Some err =>
      let* hc := get_hc in
      let* suite := deref (cs hc) in
      ret (Some (Errorf "hc.deriveSecret(h, %v, %v, %v) failed with error: %v"
                   [ABytes (trafficSecret hc); AStr tls13Update; AInt (trafficSecretSize suite); AErr err]))
  | None =>
      let* hc := get_hc in
      let* e := updateWithNewTrafficSecret (trafficSecret hc) in
      match e with
      | Some err =>
          let* hc := get_hc in
          ret (Some (Errorf "hc.updateWithNewTrafficSecret(%v) failed with error: %v"
                       [ABytes (trafficSecret hc); AErr err]))
      | None =>
          let* hc := get_hc in
          let* e := crypter_updateKey (aeadCrypter hc) (key hc) in
          match e with
          | Some err =>
              let* hc := get_hc in
              ret (Some (Errorf "hc.aeadCrypter.updateKey(%v) failed with error: %v"
                           [ABytes (key hc); AErr err]))
          | None =>
              let* _ := modify_hc (fun hc => set_seqCounter (reset (seqCounter hc)) hc) in
              ret None
          end
      end
  end.

(** [NewHalfConn(ciphersuite, trafficSecret)]: the half connection is a
    local variable of the constructor until it is returned. *)
Definition NewHalfConn `{Ciphers} (ciphersuite : Ciphersuite) (secret : bytes) (w : world)
  : outcome (S2AHalfConnection * option error) * world :=
  let suite := newCiphersuite ciphersuite in
  if negb (trafficSecretSize suite =? len secret) then
    (Done (zeroHalfConn,
           Some (Errorf "supplied traffic secret must be %v bytes, given: %v"
                   [AInt (trafficSecretSize suite); ABytes secret])), w)
  else
    let hc := {| cs := Some suite; h := hashFunction suite; aeadCrypter := None;
                 expander := Some defaultHKDFExpander; seqCounter := newCounter;
                 trafficSecret := secret; nonce := []; key := [] |} in
    match updateWithNewTrafficSecret (trafficSecret hc) (hc, w) with
    | (Panicked p, (_, w1)) => (Panicked p, w1)
    | (Done (Some err), (hc1, w1)) =>
        (Done (zeroHalfConn,
               Some (Errorf "hc.updateWithNewTrafficSecret(%v) failed with error: %v"
                       [ABytes (trafficSecret hc1); AErr err])), w1)
    | (Done None, (hc1, w1)) =>
        match cs_aeadCrypter suite (key hc1) w1 with
        | ((c, Some err), w2) =>
            (Done (zeroHalfConn,
                   Some (Errorf "cs.aeadCrypter(%v) failed with error: %v"
                           [ABytes (key hc1); AErr err])), w2)
        | ((c, None), w2) => (Done (set_aeadCrypter c hc1, None), w2)
        end
    end.

(** ** Slices in memory ([common.go], and [maskedNonce] once more)

    Where a property is about which memory a slice refers to, a slice is a
    header (backing array, offset, length, capacity) over a heap of byte
    arrays, as in the Go runtime. *)
Module Mem.

Record slice : Type := { base : option loc; off : Z; slen : Z; scap : Z }.

(** The nil slice. *)
Definition nil : slice := {| base := None; off := 0; slen := 0; scap := 0 |}.

Abbreviation heap := (gmap loc bytes).

(** The bytes a slice denotes in a heap. *)
Definition read (m : heap) (s : slice) : bytes :=
  match base s with
  | None => []
  | Some l =>
      match m !! l with
      | Some a => take (Z.to_nat (slen s)) (drop (Z.to_nat (off s)) a)
      | None => []
      end
  end.

(** The invariant the runtime keeps for every slice header. *)
Definition wf (m : heap) (s : slice) : Prop :=
  0 <= slen s <= scap s /\ 0 <= off s /\
  match base s with
  | None => scap s = 0
  | Some l => exists a, m !! l = Some a /\ off s + scap s <= len a
  end.

(** The largest allocation the runtime accepts: [maxAlloc] of
    [runtime/malloc.go], for the 48 address bits of the 64-bit platforms. *)
Definition maxAlloc : Z := 2 ^ 48.

(** [make([]byte, n)] when the runtime can still obtain [avail] bytes: a
    length that is negative or above [maxAlloc] panics ("makeslice: len out
    of range"); a length the memory cannot hold ends the program ("out of
    memory", not a panic a caller recovers from); otherwise a fresh zeroed
    array. *)
Definition make_slice (avail n : Z) (m : heap) : outcome slice * heap :=
  if (n <? 0) || (maxAlloc <? n) then (Panicked (MakeLenOutOfRange n), m)
  else if avail <? n then (Panicked OutOfMemory, m)
  else
    let l := fresh (dom m) in
    (Done {| base := Some l; off := 0; slen := n; scap := n |},
     <[l := replicate (Z.to_nat n) 0]> m).

(** [s[:j]] *)
Definition slice_to (s : slice) (j : Z) : outcome slice :=
  if (j <? 0) || (scap s <? j) then Panicked (SliceBoundsOutOfRange j (scap s))
  else Done {| base := base s; off := off s; slen := j; scap := scap s |}.

(** [s[i:]] *)
Definition slice_from (s : slice) (i : Z) : outcome slice :=
  if (i <? 0) || (slen s <? i) then Panicked (SliceBoundsOutOfRange i (slen s))
  else Done {| base := base s; off := off s + i; slen := slen s - i; scap := scap s - i |}.

(** Overwrites the first bytes of what [s] denotes with [data], up to
    [len(s)]. *)
Definition write (m : heap) (s : slice) (data : bytes) : heap :=
  match base s with
  | None => m
  | Some l =>
      match m !! l with
      | Some a =>
          let d := take (Z.to_nat (slen s)) data in
          <[l := take (Z.to_nat (off s)) a ++ d ++ drop (Z.to_nat (off s) + length d) a]> m
      | None => m
      end
  end.

(** [copy(dst, src)] *)
Definition copy_slice (dst src : slice) (m : heap) : heap := write m dst (read m src).

(** [SliceForAppend(in, n)], with [avail] bytes of memory to allocate from. *)
Definition SliceForAppend (avail : Z) (in_ : slice) (n : Z) (m : heap)
  : outcome (slice * slice) * heap :=
  let total := wrap_int (slen in_ + n) in
  let '(head, m1) :=
    if total <=? scap in_ then (slice_to in_ total, m)
    else
      match make_slice avail total m with
      | (Done head, m1) => (Done head, copy_slice head in_ m1)
      | (Panicked p, m1) => (Panicked p, m1)
      end in
  match head with
  | Panicked p => (Panicked p, m1)
  | Done head =>
      match slice_from head (slen in_) with
      | Done tail => (Done (head, tail), m1)
      | Panicked p => (Panicked p, m1)
      end
  end.

(** [s[j] ^= v] *)
Definition xor_assign (s : slice) (j : Z) (v : Z) (m : heap) : outcome unit * heap :=
  if (j <? 0) || (slen s <=? j) then (Panicked (IndexOutOfRange j (slen s)), m)
  else
    match base s with
    | None => (Panicked (IndexOutOfRange j (slen s)), m)
    | Some l =>
        match m !! l with
        | Some a =>
            match a !! Z.to_nat (off s + j) with
            | Some x => (Done tt, <[l := <[Z.to_nat (off s + j) := Z.lxor x v]> a]> m)
            | None => (Panicked (IndexOutOfRange j (slen s)), m)
            end
        | None => (Panicked NilDereference, m)
        end
    end.

Fixpoint maskedNonce_loop (todo : nat) (i : Z) (nonce : slice) (sequence : Z) (m : heap)
  : outcome unit * heap :=
  match todo with
  | O => (Done tt, m)
  | S todo' =>
      match xor_assign nonce (nonceSize - uint64Size + i)
              (to_byte (Z.shiftr sequence (56 - uint64Size * i))) m with
      | (Done _, m1) => maskedNonce_loop todo' (i + 1) nonce sequence m1
      | (Panicked p, m1) => (Panicked p, m1)
      end
  end.

(** [hc.maskedNonce(sequence)] with [hc.nonce] the slice [static]. *)
Definition maskedNonce (avail : Z) (static : slice) (sequence : Z) (m : heap)
  : outcome slice * heap :=
  match make_slice avail (slen static) m with
  | (Panicked p, m1) => (Panicked p, m1)
  | (Done nonce, m1) =>
      let m2 := copy_slice nonce static m1 in
      match maskedNonce_loop (Z.to_nat uint64Size) 0 nonce sequence m2 with
      | (Done _, m3) => (Done nonce, m3)
      | (Panicked p, m3) => (Panicked p, m3)
      end
  end.

(** *** The half connection with its buffers in memory

    [hc.trafficSecret], [hc.nonce] and [hc.key] are slices: what they hold
    is what the memory holds where they point, and [NewHalfConn] stores the
    slice it is given as [hc.trafficSecret] without copying it. To see
    what [Encrypt] and [Decrypt] do to these bytes when [dst] is a slice as
    well, the two methods are embedded once more over the heap. The
    ciphersuite, the hash and the expander play no part in them and are
    left out. *)
Record halfconn : Type := {
  seqCounter : counter;
  aeadCrypter : option loc;
  trafficSecret : slice;
  nonce : slice;
  key : slice
}.

(** [hc.getAndIncrementSequence()] *)
Definition getAndIncrementSequence (hc : halfconn) : (Z * option error) * halfconn :=
  match value (seqCounter hc) with
  | (_, Some err) => ((0, Some err), hc)
  | (sequence, None) =>
      ((sequence, None),
       {| seqCounter := increment (seqCounter hc); aeadCrypter := aeadCrypter hc;
          trafficSecret := trafficSecret hc; nonce := nonce hc; key := key hc |})
  end.

(** Appending [data] to [dst] the way the crypters do: the buffer utility
    provides the room, the data are written into the extension, the result
    is the grown slice. *)
Definition append_into (avail : Z) (dst : slice) (data : bytes) (m : heap)
  : outcome slice * heap :=
  match SliceForAppend avail dst (len data) m with
  | (Panicked p, m1) => (Panicked p, m1)
  | (Done (head, tail), m1) => (Done head, write m1 tail data)
  end.

(** Modelled from the spec: [crypter.encrypt(dst, plaintext, nonce, aad)]
    (missing) grows [dst] with the buffer utility by the length of
    ciphertext and tag and writes them into the extension; the result is
    the grown slice. Nothing is written when the AEAD fails. The ciphertext
    and tag are what [seal] appends to an empty [dst]. *)
Definition crypter_encrypt `{Ciphers} (avail : Z) (crypters : gmap loc aead) (c : option loc)
    (dst plaintext nonce aad : slice) (m : heap) : outcome (slice * option error) * heap :=
  match c with
  | None => (Panicked NilDereference, m)
  | Some l =>
      match crypters !! l with
      | None => (Panicked NilDereference, m)
      | Some a =>
          match seal (aead_suite a) (aead_key a) [] (read m plaintext) (read m nonce) (read m aad) with
          | (_, Some err) => (Done (nil, Some err), m)
          | (sealed, None) =>
              match append_into avail dst sealed m with
              | (Panicked p, m1) => (Panicked p, m1)
              | (Done head, m1) => (Done (head, None), m1)
              end
          end
      end
  end.

(** Modelled from the spec: [crypter.decrypt(dst, ciphertext, nonce, aad)]
    (missing), likewise with the plaintext [open] returns. *)
Definition crypter_decrypt `{Ciphers} (avail : Z) (crypters : gmap loc aead) (c : option loc)
    (dst ciphertext nonce aad : slice) (m : heap) : outcome (slice * option error) * heap :=
  match c with
  | None => (Panicked NilDereference, m)
  | Some l =>
      match crypters !! l with
      | None => (Panicked NilDereference, m)
      | Some a =>
          match open (aead_suite a) (aead_key a) [] (read m ciphertext) (read m nonce) (read m aad) with
          | (_, Some err) => (Done (nil, Some err), m)
          | (opened, None) =>
              match append_into avail dst opened m with
              | (Panicked p, m1) => (Panicked p, m1)
              | (Done head, m1) => (Done (head, None), m1)
              end
          end
      end
  end.

(** [hc.Encrypt(dst, plaintext, aad)] *)
Definition Encrypt `{Ciphers} (avail : Z) (crypters : gmap loc aead) (dst plaintext aad : slice)
    (hc : halfconn) (m : heap) : outcome (slice * option error) * (halfconn * heap) :=
  match getAndIncrementSequence hc with
  | ((_, Some err), hc1) => (Done (nil, Some err), (hc1, m))
  | ((sequence, None), hc1) =>
      match maskedNonce avail (nonce hc1) sequence m with
      | (Panicked p, m1) => (Panicked p, (hc1, m1))
      | (Done n, m1) =>
          let crypter := aeadCrypter hc1 in
          match crypter_encrypt avail crypters crypter dst plaintext n aad m1 with
          | (r, m2) => (r, (hc1, m2))
          end
      end
  end.

(** [hc.Decrypt(dst, ciphertext, aad)] *)
Definition Decrypt `{Ciphers} (avail : Z) (crypters : gmap loc aead) (dst ciphertext aad : slice)
    (hc : halfconn) (m : heap) : outcome (slice * option error) * (halfconn * heap) :=
  match getAndIncrementSequence hc with
  | ((_, Some err), hc1) => (Done (nil, Some err), (hc1, m))
  | ((sequence, None), hc1) =>
      match maskedNonce avail (nonce hc1) sequence m with
      | (Panicked p, m1) => (Panicked p, (hc1, m1))
      | (Done n, m1) =>
          let crypter := aeadCrypter hc1 in
          match crypter_decrypt avail crypters crypter dst ciphertext n aad m1 with
          | (r, m2) => (r, (hc1, m2))
          end
      end
  end.

(** Two slices that do not share a backing array. *)
Definition separate (a b : slice) : Prop :=
  base a = None \/ base b = None \/ base a <> base b.


End Mem.

(** The HkdfLabel structure of RFC 8446, section 7.1, with an empty context,
    in the words of the spec: [length] on two bytes, big-endian; the label
    behind its length on one byte; the empty context behind its length, 0. *)
Definition hkdf_info (label : bytes) (length : Z) : bytes :=
  be_bytes 2 length ++ [len label] ++ label ++ [0].

(** The three info structures the half connection asks the expander for. *)
Definition key_info (suite : ciphersuite) : bytes :=
  hkdf_info (bytes_of_string tls13Key) (keySize suite).

Definition nonce_info (suite : ciphersuite) : bytes :=
  hkdf_info (bytes_of_string tls13Nonce) (cs_nonceSize suite).

Definition update_info (suite : ciphersuite) : bytes :=
  hkdf_info (bytes_of_string tls13Update) (trafficSecretSize suite).

(** Appends events to the trace of a world. *)
Definition log (t : list event) (w : world) : world :=
  {| crypters := crypters w; trace := trace w ++ t |}.

(** The state a successful [UpdateKey] leaves when it derived [newSecret],
    [k] and [n]: new secret, key and nonce, the counter reset, the key
    installed in the crypter at [l]. *)
Definition rekeyed (s : state) (l : loc) (a : aead) (newSecret k n : bytes) (suite : ciphersuite)
  : state :=
  ({| cs := cs (fst s); h := h (fst s); aeadCrypter := aeadCrypter (fst s);
      expander := expander (fst s); seqCounter := newCounter;
      trafficSecret := newSecret; nonce := n; key := k |},
   {| crypters := <[l := {| aead_suite := aead_suite a; aead_key := k |}]> (crypters (snd s));
      trace := trace (snd s) ++
               [EvExpand (h (fst s)) (trafficSecret (fst s)) (update_info suite) (trafficSecretSize suite);
                EvExpand (h (fst s)) newSecret (key_info suite) (keySize suite);
                EvExpand (h (fst s)) newSecret (nonce_info suite) (cs_nonceSize suite);
                EvUpdateKey l k] |}).

(** The half connection a successful [NewHalfConn] returns, and the world it
    leaves, when it derived [k] and [n]. *)
Definition constructed `{Ciphers} (suite : ciphersuite) (secret k n : bytes) (w : world)
  : S2AHalfConnection * world :=
  ({| cs := Some suite; h := hashFunction suite;
      aeadCrypter := Some (fresh (dom (crypters w)));
      expander := Some defaultHKDFExpander; seqCounter := newCounter;
      trafficSecret := secret; nonce := n; key := k |},
   {| crypters := <[fresh (dom (crypters w)) := {| aead_suite := suite; aead_key := k |}]> (crypters w);
      trace := trace w ++
               [EvExpand (hashFunction suite) secret (key_info suite) (keySize suite);
                EvExpand (hashFunction suite) secret (nonce_info suite) (cs_nonceSize suite);
                EvNewCrypter suite k] |}).

(** The state in which [Encrypt] and [Decrypt] reach the AEAD: the counter
    has been advanced. *)
Definition advanced (s : state) : state :=
  (set_seqCounter (increment (seqCounter (fst s))) (fst s), snd s).

(** ** Sequences of calls on one half connection *)

Inductive call : Type :=
| CallEncrypt (dst plaintext aad : bytes)
| CallDecrypt (dst ciphertext aad : bytes)
| CallUpdateKey.

(** Performs one call; the answer tells whether it returned a nil error. *)
Definition perform `{Ciphers} (c : call) : M bool :=
  match c with
  | CallEncrypt dst plaintext aad =>
      let* r := Encrypt dst plaintext aad in ret (bool_decide (snd r = None))
  | CallDecrypt dst ciphertext aad =>
      let* r := Decrypt dst ciphertext aad in ret (bool_decide (snd r = None))
  | CallUpdateKey =>
      let* e := UpdateKey in ret (bool_decide (e = None))
  end.

(** Performs the calls in order while they succeed. *)
Fixpoint run `{Ciphers} (l : list call) : M bool :=
  match l with
  | [] => ret true
  | c :: rest =>
      let* ok := perform c in
      if ok then run rest else ret false
  end.

Definition is_encrypt (c : call) : bool :=
  match c with CallEncrypt _ _ _ => true | _ => false end.

(** The (key, nonce) pair an event hands to the AEAD. *)
Definition used_pair (e : event) : option (bytes * bytes) :=
  match e with
  | EvEncrypt _ k _ _ n _ => Some (k, n)
  | EvDecrypt _ k _ _ n _ => Some (k, n)
  | _ => None
  end.

Definition used_pairs (t : list event) : list (bytes * bytes) := omap used_pair t.

Definition used_nonces (t : list event) : list bytes := snd <$> used_pairs t.

(** The key an event installs in a crypter. *)
Definition installed_key (e : event) : option bytes :=
  match e with
  | EvUpdateKey _ k => Some k
  | _ => None
  end.

Definition installed_keys (t : list event) : list bytes := omap installed_key t.

(** The key held by the crypter the half connection points to. *)
Definition current_key (s : state) : option bytes :=
  l ← aeadCrypter (fst s); a ← crypters (snd s) !! l; Some (aead_key a).

(** The events a computation appended to the trace of [s]. *)
Definition events_since (s s' : state) : list event :=
  drop (length (trace (snd s))) (trace (snd s')).

(** The next sequence number a counter hands out; [2^64] when exhausted. *)
Definition next_sequence (c : counter) : Z :=
  if hasOverflowed c then 2 ^ 64 else val c.

Definition counter_ok (c : counter) : Prop := 0 <= val c <= max_uint64.

(** Whether a list of numbers is strictly increasing. *)
Fixpoint increasingb (l : list Z) : bool :=
  match l with
  | a :: (b :: _) as rest => (a <? b) && increasingb rest
  | _ => true
  end.

(** The pairs in [P] that carry the key now in use were made from sequence
    numbers the counter has already handed out, under the static nonce now
    in use. *)
Definition epoch_inv (s : state) (P : list (bytes * bytes)) : Prop :=
  forall k n, (k, n) ∈ P -> current_key s = Some k ->
    exists t, 0 <= t < next_sequence (seqCounter (fst s)) /\
              maskedNonce_bytes (nonce (fst s)) t = Done n.

(** The contract of HKDF-Expand that [halfconn.go] relies on without
    checking: a successful expansion has the length asked for. *)
Definition honours_length (e : hkdfExpander) : Prop :=
  forall hf secret info n out, expand e hf secret info n = (out, None) -> len out = n.

(** A state at the start of a key epoch: just constructed, or just after a
    successful [UpdateKey]. *)
Definition fresh_epoch `{Ciphers} (s : state) : Prop :=
  (exists c secret w, NewHalfConn c secret w = (Done (fst s, None), snd s)) \/
  (exists s0, UpdateKey s0 = (Done None, s)).

(** ** Stand-ins for running the model on concrete inputs

    A cipher in the manner of [fakeAEAD] of the tests ([Seal] returns the
    plaintext, [Open] the ciphertext, behind the nonce size check of the
    crypters) and an expander that returns [length] bytes determined by its
    inputs. *)
Definition fake_seal (suite : ciphersuite) (k dst text n aad : bytes) : bytes * option error :=
  if len n =? NonceSize then (dst ++ text, None)
  else ([], Some (Errorf "nonce size must be %v bytes, received: %v" [AInt NonceSize; AInt (len n)])).

Definition fake_expand (hf : option hashId) (secret info : bytes) (length : Z)
  : bytes * option error :=
  if (length <? 0) || (255 * 32 <? length)
  then ([], Some (Errorf "DerivationError" []))
  else ((fun i => (be_value secret + be_value info + i) mod 256) <$> seqZ 0 length, None).

Definition fakeCiphers : Ciphers :=
  {| seal := fake_seal; open := fake_seal;
     defaultHKDFExpander := {| expand := fake_expand |} |}.

(** An expander that answers every request with the same bytes. *)
Definition constant_expand (hf : option hashId) (secret info : bytes) (length : Z)
  : bytes * option error :=
  (replicate (Z.to_nat length) 7, None).

Definition constantCiphers : Ciphers :=
  {| seal := fake_seal; open := fake_seal;
     defaultHKDFExpander := {| expand := constant_expand |} |}.

Definition emptyWorld : world := {| crypters := ∅; trace := [] |}.

(** A half connection over AES-128-GCM whose static nonce ends in 1, with
    its crypter. *)
Definition sampleHalfConn : S2AHalfConnection :=
  {| cs := Some aesgcm128sha256; h := Some SHA256; aeadCrypter := Some 0%nat;
     expander := Some {| expand := fake_expand |};
     seqCounter := newCounter;
     trafficSecret := replicate 32 5;
     nonce := [0; 0; 0; 0; 0; 0; 0; 0; 0; 0; 0; 1];
     key := replicate 16 9 |}.

Definition sampleState : state :=
  (sampleHalfConn,
   {| crypters := {[ 0%nat := {| aead_suite := aesgcm128sha256; aead_key := replicate 16 9 |} ]};
      trace := [] |}).

(** Runs of [sampleState] under the stand-in ciphers. *)
Definition twoEncrypts : list call := [CallEncrypt [] [1; 2] []; CallEncrypt [] [1; 2] []].

Definition afterTwoEncrypts : state := snd (@run fakeCiphers twoEncrypts sampleState).

Definition encryptsAroundUpdate : list call :=
  [CallEncrypt [] [1; 2] []; CallEncrypt [] [1; 2] []; CallUpdateKey; CallEncrypt [] [3] []].

Definition afterEncryptsAroundUpdate : state :=
  snd (@run fakeCiphers encryptsAroundUpdate sampleState).

Definition afterUpdateKey : state := snd (@UpdateKey sampleState).

(** A half connection constructed under the constant expander, and a run
    on it. *)
Definition constantState : state :=
  match @NewHalfConn constantCiphers Ciphersuite_AES_128_GCM_SHA256 (replicate 32 5) emptyWorld with
  | (Done (hc, _), w) => (hc, w)
  | (Panicked _, w) => (zeroHalfConn, w)
  end.

Definition encryptUpdateEncrypt : list call :=
  [CallEncrypt [] [1; 2] []; CallUpdateKey; CallEncrypt [] [3] []].

(** A label of 256 bytes, all the letter a. *)
Definition longLabel : bytes := replicate 256 97.

(** Ciphers whose expander fails every request. *)
Definition failingCiphers : Ciphers :=
  {| seal := fake_seal; open := fake_seal;
     defaultHKDFExpander :=
       {| expand := fun _ _ _ _ => ([], Some (Errorf "DerivationError" [])) |} |}.

(** The result of constructing a half connection over AES-128-GCM from 32
    bytes of secret, under the stand-in ciphers. *)
Definition constructedState : state :=
  match @NewHalfConn fakeCiphers Ciphersuite_AES_128_GCM_SHA256 (replicate 32 5) emptyWorld with
  | (Done (hc, _), w) => (hc, w)
  | (Panicked _, w) => (zeroHalfConn, w)
  end.

(** A heap with one array. *)
Definition sampleHeap : Mem.heap := {[ 0%nat := [1; 2; 3; 4; 5; 6; 7; 8; 9; 10; 11; 12; 13; 14] ]}.

(** A slice of 2 bytes with room for 2 more. *)
Definition shortSlice : Mem.slice :=
  {| Mem.base := Some 0%nat; Mem.off := 1; Mem.slen := 2; Mem.scap := 4 |}.

(** [sampleState] with its counter exhausted, with its counter at the last
    sequence number, and with a static nonce of 13 bytes (which the stand-in
    AEAD refuses once masked). *)
Definition with_counter (c : counter) (s : state) : state := (set_seqCounter c (fst s), snd s).

Definition overflowedState : state :=
  with_counter {| val := max_uint64; hasOverflowed := true |} sampleState.

Definition lastSequenceState : state :=
  with_counter {| val := max_uint64; hasOverflowed := false |} sampleState.

Definition longNonceState : state :=
  (set_nonce [0; 0; 0; 0; 0; 0; 0; 0; 0; 0; 0; 1; 0] (fst sampleState), snd sampleState).

(** ** Further notions for the properties of whole runs *)

(** A call that protects or opens a record. *)
Definition is_record (c : call) : bool :=
  match c with CallUpdateKey => false | _ => true end.

(** Performs all the calls in order, whatever each returns (a panic ends
    the sequence). *)
Fixpoint attempt `{Ciphers} (l : list call) : M (list bool) :=
  match l with
  | [] => ret []
  | c :: rest =>
      let* ok := perform c in
      let* oks := attempt rest in
      ret (ok :: oks)
  end.

(** The fields no method assigns. *)
Definition same_config (s s' : state) : Prop :=
  cs (fst s') = cs (fst s) /\ h (fst s') = h (fst s) /\
  expander (fst s') = expander (fst s) /\ aeadCrypter (fst s') = aeadCrypter (fst s).

(** A computation whose every outcome, return or panic, relates the state
    before to the state after by [R]. *)
Definition keeps {A : Type} (R : state -> state -> Prop) (m : M A) : Prop :=
  forall s r s', m s = (r, s') -> R s s'.

(** Key, nonce and secret have the sizes of the ciphersuite. *)
Definition sized (s : state) : Prop :=
  exists suite, cs (fst s) = Some suite /\
    len (nonce (fst s)) = NonceSize /\ len (key (fst s)) = keySize suite /\
    len (trafficSecret (fst s)) = trafficSecretSize suite.

(** Two half connections in the same key epoch at the same record: same
    configuration, secret, key, nonce and counter, each pointing to a
    crypter with the same suite and key. The two directions' peers are in
    this relation: the sender's half connection and the receiver's. *)
Definition in_sync (s1 s2 : state) : Prop :=
  cs (fst s1) = cs (fst s2) /\ h (fst s1) = h (fst s2) /\
  expander (fst s1) = expander (fst s2) /\
  seqCounter (fst s1) = seqCounter (fst s2) /\
  trafficSecret (fst s1) = trafficSecret (fst s2) /\
  nonce (fst s1) = nonce (fst s2) /\ key (fst s1) = key (fst s2) /\
  exists l1 l2 a,
    aeadCrypter (fst s1) = Some l1 /\ aeadCrypter (fst s2) = Some l2 /\
    crypters (snd s1) !! l1 = Some a /\ crypters (snd s2) !! l2 = Some a.

(** What an AEAD promises: opening, under the same key, nonce and
    associated data, what was sealed gives back the plaintext. *)
Definition aead_round_trips `{Ciphers} : Prop :=
  forall suite k text n aad sealed,
    seal suite k [] text n aad = (sealed, None) ->
    open suite k [] sealed n aad = (text, None).

(** What one peer asks of its half connection, in order: protect a record,
    or move to the next key. *)
Inductive item : Type :=
| Send (plaintext aad : bytes)
| Rekey.

Definition item_call (i : item) : call :=
  match i with
  | Send plaintext aad => CallEncrypt [] plaintext aad
  | Rekey => CallUpdateKey
  end.

Definition item_plaintext (i : item) : option bytes :=
  match i with
  | Send plaintext _ => Some plaintext
  | Rekey => None
  end.

(** The sender encrypts each record, the receiver decrypts what the sender
    produced; both update their key at the same points. The result is what
    the receiver obtained, if every call on either side returned without
    error. *)
Fixpoint exchange `{Ciphers} (items : list item) (sender receiver : state)
  : option (list bytes) :=
  match items with
  | [] => Some []
  | Send plaintext aad :: rest =>
      match Encrypt [] plaintext aad sender with
      | (Done (sealed, None), sender') =>
          match Decrypt [] sealed aad receiver with
          | (Done (opened, None), receiver') =>
              match exchange rest sender' receiver' with
              | Some l => Some (opened :: l)
              | None => None
              end
          | _ => None
          end
      | _ => None
      end
  | Rekey :: rest =>
      match UpdateKey sender with
      | (Done None, sender') =>
          match UpdateKey receiver with
          | (Done None, receiver') => exchange rest sender' receiver'
          | _ => None
          end
      | _ => None
      end
  end.

(** More sample inputs: a static nonce of 5 bytes; a half connection whose
    expander fails every request; a short conversation. *)
Definition shortNonceState : state :=
  (set_nonce [1; 2; 3; 4; 5] (fst sampleState), snd sampleState).

Definition failing_expand (hf : option hashId) (secret info : bytes) (length : Z)
  : bytes * option error :=
  ([], Some (Errorf "DerivationError" [])).

Definition failingExpanderState : state :=
  ({| cs := Some aesgcm128sha256; h := Some SHA256; aeadCrypter := Some 0%nat;
      expander := Some {| expand := failing_expand |};
      seqCounter := {| val := 3; hasOverflowed := false |};
      trafficSecret := replicate 32 5;
      nonce := [0; 0; 0; 0; 0; 0; 0; 0; 0; 0; 0; 1];
      key := replicate 16 9 |},
   snd sampleState).

Definition sampleItems : list item := [Send [1; 2] [9]; Rekey; Send [3] []].

(** A half connection in working order: key, nonce and secret have the
    sizes of the ciphersuite, the expander honours lengths, and the crypter
    the half connection points to is one of its ciphersuite that holds
    [hc.key]. *)
Definition ready (s : state) : Prop :=
  sized s /\
  (exists e, expander (fst s) = Some e /\ honours_length e) /\
  exists l a, aeadCrypter (fst s) = Some l /\ crypters (snd s) !! l = Some a /\
              cs (fst s) = Some (aead_suite a) /\ aead_key a = key (fst s).

(** A half connection with its three buffers in three arrays, a plaintext
    in a fourth, and the slice [secret[:0]] a caller who holds the traffic
    secret can pass as [dst]. *)
Definition placedHeap : Mem.heap :=
  {[ 0%nat := replicate 32 5;
     1%nat := [0; 0; 0; 0; 0; 0; 0; 0; 0; 0; 0; 1];
     2%nat := replicate 16 9;
     3%nat := [1; 2] ]}.

Definition placedHalfConn : Mem.halfconn :=
  {| Mem.seqCounter := newCounter; Mem.aeadCrypter := Some 0%nat;
     Mem.trafficSecret := {| Mem.base := Some 0%nat; Mem.off := 0; Mem.slen := 32; Mem.scap := 32 |};
     Mem.nonce := {| Mem.base := Some 1%nat; Mem.off := 0; Mem.slen := 12; Mem.scap := 12 |};
     Mem.key := {| Mem.base := Some 2%nat; Mem.off := 0; Mem.slen := 16; Mem.scap := 16 |} |}.

Definition sampleCrypters : gmap loc aead :=
  {[ 0%nat := {| aead_suite := aesgcm128sha256; aead_key := replicate 16 9 |} ]}.

Definition plainSlice : Mem.slice :=
  {| Mem.base := Some 3%nat; Mem.off := 0; Mem.slen := 2; Mem.scap := 2 |}.

Definition aliasedDst : Mem.slice :=
  {| Mem.base := Some 0%nat; Mem.off := 0; Mem.slen := 0; Mem.scap := 32 |}.

(** ** The two halves of [Encrypt], and calls one after the other

    [Encrypt] holds the lock while it takes the sequence number, masks the
    nonce and reads the crypter reference (lines 58 to 66), and calls the
    AEAD after it has released the lock (line 67). Another call can run
    between the two halves. *)

(** What [Encrypt] does under the lock; it hands on the error, or the
    nonce and the crypter reference. *)
Definition Encrypt_locked : M (option error * bytes * option loc) :=
  let* r := getAndIncrementSequence in
  match snd r with
  | Some err => ret (Some err, [], None)
  | None =>
      let* n := maskedNonce (fst r) in
      let* hc := get_hc in
      let crypter := aeadCrypter hc in
      ret (None, n, crypter)
  end.

(** What [Encrypt] does once it has released the lock. *)
Definition Encrypt_unlocked `{Ciphers} (dst plaintext aad : bytes)
    (taken : option error * bytes * option loc) : M (bytes * option error) :=
  match taken with
  | (Some err, _, _) => ret ([], Some err)
  | (None, n, crypter) => crypter_encrypt crypter dst plaintext n aad
  end.

(** Performs the calls in order, each one returning before the next
    begins, whatever the record calls return; stops at the first
    [UpdateKey] that fails (and at a panic). The answer tells whether every
    [UpdateKey] succeeded. *)
Fixpoint lifetime `{Ciphers} (l : list call) : M bool :=
  match l with
  | [] => ret true
  | c :: rest =>
      let* ok := perform c in
      if is_record c || ok then lifetime rest else ret false
  end.

(** An expander whose keys depend on the secret and whose nonces do not;
    a half connection with it, whose static nonce is the one it returns. *)
Definition sameNonce_expand (hf : option hashId) (secret info : bytes) (length : Z)
  : bytes * option error :=
  if length =? NonceSize then (replicate 12 7, None) else fake_expand hf secret info length.

Definition sameNonceState : state :=
  ({| cs := Some aesgcm128sha256; h := Some SHA256; aeadCrypter := Some 0%nat;
      expander := Some {| expand := sameNonce_expand |};
      seqCounter := newCounter;
      trafficSecret := replicate 32 5;
      nonce := replicate 12 7;
      key := replicate 16 9 |},
   snd sampleState).

(** An expander that fails the derivation of the nonce and returns twelve
    zero bytes beside the error; a half connection with it. *)
Definition nonceFailing_expand (hf : option hashId) (secret info : bytes) (length : Z)
  : bytes * option error :=
  if length =? NonceSize then (replicate 12 0, Some (Errorf "DerivationError" []))
  else fake_expand hf secret info length.

Definition nonceFailingState : state :=
  ({| cs := Some aesgcm128sha256; h := Some SHA256; aeadCrypter := Some 0%nat;
      expander := Some {| expand := nonceFailing_expand |};
      seqCounter := newCounter;
      trafficSecret := replicate 32 5;
      nonce := [0; 0; 0; 0; 0; 0; 0; 0; 0; 0; 0; 1];
      key := replicate 16 9 |},
   snd sampleState).

Definition encryptAroundFailedUpdate : list call :=
  [CallEncrypt [] [1; 2] []; CallUpdateKey; CallEncrypt [] [3] []].

Definition lifetimeCalls : list call :=
  [CallEncrypt [] [1; 2] []; CallDecrypt [] [7] []; CallUpdateKey; CallEncrypt [] [3] []].

(** * Properties *)

(** Tactics for the case analyses below. *)
Ltac same_fields :=
  repeat split; try reflexivity;
  cbn [fst snd cs h aeadCrypter expander seqCounter trafficSecret nonce key crypters trace
       set_seqCounter set_trafficSecret set_nonce set_key log rekeyed advanced];
  congruence.

Ltac break_match_in E :=
  repeat match type of E with
         | context [match ?x with _ => _ end] => destruct x eqn:?
         end.

(** ** Bytes *)

Lemma copy_make (s : bytes) : copy (make (len s)) s = s.
Proof.
  unfold copy, make, len. rewrite Nat2Z.id, length_replicate.
  rewrite firstn_all, drop_replicate, Nat.sub_diag. apply app_nil_r.
Qed.

Lemma to_byte_mod (x : Z) : to_byte x = x mod 256.
Proof. unfold to_byte. change 255 with (Z.ones 8). now rewrite Z.land_ones by lia. Qed.

Lemma to_byte_shiftr (s k : Z) : 0 <= k -> to_byte (Z.shiftr s k) = (s / 2 ^ k) mod 256.
Proof. intros. now rewrite to_byte_mod, Z.shiftr_div_pow2 by lia. Qed.

Lemma be_value_snoc (b : bytes) (x : Z) : be_value (b ++ [x]) = be_value b * 256 + x.
Proof. unfold be_value. now rewrite fold_left_app. Qed.

Lemma be_value_be_bytes (n : nat) (v : Z) :
  0 <= v < 256 ^ Z.of_nat n -> be_value (be_bytes n v) = v.
Proof.
  revert v. induction n as [|n IH]; intros v Hv.
  - change (256 ^ Z.of_nat 0) with 1 in Hv. unfold be_value. simpl. lia.
  - cbn [be_bytes]. rewrite be_value_snoc, IH.
    + pose proof (Z.div_mod v 256). lia.
    + rewrite Nat2Z.inj_succ, Z.pow_succ_r in Hv by lia.
      split; [apply Z.div_pos; lia | apply Z.div_lt_upper_bound; lia].
Qed.

Lemma be_bytes_length (n : nat) (v : Z) : length (be_bytes n v) = n.
Proof.
  revert v; induction n as [|n IH]; intros v; simpl; [reflexivity|].
  rewrite length_app, IH. simpl. lia.
Qed.

Lemma be_bytes_is_byte (n : nat) (v : Z) : Forall is_byte (be_bytes n v).
Proof.
  revert v; induction n as [|n IH]; intros v; simpl; [constructor|].
  apply Forall_app. split; [apply IH|]. repeat constructor.
  - apply Z.mod_pos_bound. lia.
  - apply Z.mod_pos_bound. lia.
Qed.

Lemma be_bytes_inj (n : nat) (v w : Z) :
  0 <= v < 256 ^ Z.of_nat n -> 0 <= w < 256 ^ Z.of_nat n ->
  be_bytes n v = be_bytes n w -> v = w.
Proof.
  intros Hv Hw E. rewrite <- (be_value_be_bytes n v Hv), <- (be_value_be_bytes n w Hw).
  now rewrite E.
Qed.

Lemma xor_bytes_cancel (a b c : bytes) :
  length b = length a -> length c = length a ->
  xor_bytes a b = xor_bytes a c -> b = c.
Proof.
  revert b c. induction a as [|x a IH]; intros [|y b] [|z c]; simpl; try discriminate; auto.
  intros Hb Hc E. injection E as E1 E2. f_equal.
  - rewrite <- (Z.lxor_0_l y), <- (Z.lxor_nilpotent x), Z.lxor_assoc, E1.
    now rewrite <- Z.lxor_assoc, Z.lxor_nilpotent, Z.lxor_0_l.
  - apply IH; auto.
Qed.

(** ** Nonce masking on byte values *)

(** With at least 12 bytes of static nonce the loop touches bytes 4 to 11. *)
Lemma maskedNonce_bytes_ge12 (static : bytes) (s : Z) :
  (12 <= length static)%nat ->
  maskedNonce_bytes static s =
    Done (take 4 static ++ xor_bytes (take 8 (drop 4 static)) (be64 s) ++ drop 12 static).
Proof.
  intros Hlen. unfold maskedNonce_bytes. rewrite copy_make.
  do 12 (destruct static as [|? static]; [simpl in Hlen; lia|]).
  cbv -[Z.shiftr Z.lxor to_byte Z.div Z.modulo].
  rewrite !to_byte_shiftr by lia. rewrite !Z.div_div by lia.
  change (2 ^ 0) with 1. now rewrite Z.div_1_r.
Qed.

(** A shorter static nonce makes the indexing panic. *)
Lemma maskedNonce_bytes_lt12 (static : bytes) (s : Z) :
  (length static < 12)%nat -> exists p, maskedNonce_bytes static s = Panicked p.
Proof.
  intros Hlen. unfold maskedNonce_bytes. rewrite copy_make.
  do 12 (destruct static as [|? static];
         [cbv -[Z.shiftr Z.lxor to_byte Z.div Z.modulo Z.of_nat]; eauto|]).
  simpl in Hlen. lia.
Qed.

Lemma maskedNonce_bytes_Done (static n : bytes) (s : Z) :
  maskedNonce_bytes static s = Done n ->
  (12 <= length static)%nat /\
  n = take 4 static ++ xor_bytes (take 8 (drop 4 static)) (be64 s) ++ drop 12 static.
Proof.
  intros E. destruct (le_lt_dec 12 (length static)) as [Hl|Hl].
  - split; [assumption|]. rewrite maskedNonce_bytes_ge12 in E by assumption. congruence.
  - destruct (maskedNonce_bytes_lt12 static s Hl) as [p Hp]. congruence.
Qed.

(** Distinct sequence numbers give distinct masked nonces. *)
Lemma maskedNonce_bytes_inj (static n : bytes) (s t : Z) :
  0 <= s < 2 ^ 64 -> 0 <= t < 2 ^ 64 ->
  maskedNonce_bytes static s = Done n -> maskedNonce_bytes static t = Done n -> s = t.
Proof.
  intros Hs Ht Es Et.
  apply maskedNonce_bytes_Done in Es as [Hl Es].
  apply maskedNonce_bytes_Done in Et as [_ Et].
  rewrite Es in Et. apply app_inv_head in Et.
  apply app_inv_tail in Et.
  apply xor_bytes_cancel in Et.
  - apply (be_bytes_inj 8); [exact Hs | exact Ht | exact Et].
  - unfold be64. rewrite be_bytes_length, length_take, length_drop. lia.
  - unfold be64. rewrite be_bytes_length, length_take, length_drop. lia.
Qed.

Lemma maskedNonce_bytes_zero (static : bytes) :
  (12 <= length static)%nat -> maskedNonce_bytes static 0 = Done static.
Proof.
  intros Hlen. rewrite maskedNonce_bytes_ge12 by assumption.
  do 12 (destruct static as [|? static]; [simpl in Hlen; lia|]).
  cbv -[Z.lxor]. now rewrite !Z.lxor_0_r.
Qed.

(** ** The info structure of [deriveSecret] *)

Lemma be_bytes_2_uint16 (length : Z) :
  [to_byte (Z.shiftr (to_uint16 length) 8); to_byte (to_uint16 length)] = be_bytes 2 length.
Proof.
  unfold to_uint16. rewrite to_byte_shiftr, to_byte_mod by lia. cbn [be_bytes app].
  change (2 ^ 8) with 256. change 65536 with (256 * 256).
  rewrite Z.rem_mul_r by lia.
  assert (E : (length mod 256 + 256 * ((length / 256) mod 256)) / 256 = (length / 256) mod 256).
  { symmetry. apply (Z.div_unique _ 256 _ (length mod 256)); [|lia].
    left. apply Z.mod_pos_bound. lia. }
  rewrite E. f_equal; [apply Z.mod_mod; lia|]. f_equal.
  rewrite (Z.mul_comm 256), Z.mod_add by lia. apply Z.mod_mod. lia.
Qed.

Lemma hkdfLabel_Bytes (label : bytes) (length : Z) :
  cryptobyte.Bytes (hkdfLabel label length) =
    if 255 <? len label
    then ([], Some (Errorf "cryptobyte: pending child length %d exceeds %d-byte length prefix"
                      [AInt (len label); AInt 1]))
    else (hkdf_info label length, None).
Proof.
  unfold hkdfLabel, hkdf_info, cryptobyte.Bytes, cryptobyte.AddUint8LengthPrefixed,
    cryptobyte.AddBytes, cryptobyte.AddUint16, cryptobyte.add, cryptobyte.zero.
  cbn [cryptobyte.err cryptobyte.result app]. 
  destruct (255 <? len label) eqn:E.
  - cbn [cryptobyte.err cryptobyte.result app]. reflexivity.
  - cbn [cryptobyte.err cryptobyte.result app].
    change (255 <? len (bytes_of_string "")) with false.
    cbn [cryptobyte.err cryptobyte.result app].
    rewrite <- be_bytes_2_uint16. cbn [app]. reflexivity.
Qed.

Section HalfConnection.

Context `{Ciphers}.

(** *** What each method does, by cases *)

Lemma deriveSecret_cases (secret label : bytes) (length : Z) (s : state) :
  deriveSecret secret label length s =
    if 255 <? len label
    then (Done ([], Some (Errorf "deriveSecret failed with error: %v"
                            [AErr (Errorf "cryptobyte: pending child length %d exceeds %d-byte length prefix"
                                     [AInt (len label); AInt 1])])), s)
    else match expander (fst s) with
         | None => (Panicked NilDereference, s)
         | Some e =>
             (Done (expand e (h (fst s)) secret (hkdf_info label length) length),
              (fst s, {| crypters := crypters (snd s);
                         trace := trace (snd s) ++
                                  [EvExpand (h (fst s)) secret (hkdf_info label length) length] |}))
         end.
Proof.
  unfold deriveSecret. rewrite hkdfLabel_Bytes.
  destruct (255 <? len label); [reflexivity|].
  unfold bind, get_hc, deref, emit, ret, throw. destruct s as [hc w]. simpl.
  destruct (expander hc); reflexivity.
Qed.

Lemma getAndIncrementSequence_cases (s : state) :
  getAndIncrementSequence s =
    match value (seqCounter (fst s)) with
    | (_, Some e) => (Done (0, Some e), s)
    | (sequence, None) =>
        (Done (sequence, None),
         (set_seqCounter (increment (seqCounter (fst s))) (fst s), snd s))
    end.
Proof.
  unfold getAndIncrementSequence, bind, get_hc, modify_hc, ret.
  destruct (value (seqCounter (fst s))) as [v [e|]]; reflexivity.
Qed.

Lemma crypter_object_cases (c : option loc) (s : state) :
  crypter_object c s =
    match c with
    | None => (Panicked NilDereference, s)
    | Some l =>
        match crypters (snd s) !! l with
        | None => (Panicked NilDereference, s)
        | Some a => (Done (l, a), s)
        end
    end.
Proof.
  unfold crypter_object, bind, deref, get_world, ret, throw.
  destruct c as [l|]; [|reflexivity]. destruct (crypters (snd s) !! l); reflexivity.
Qed.

Lemma crypter_encrypt_cases (c : option loc) (dst plaintext n aad : bytes) (s : state) :
  crypter_encrypt c dst plaintext n aad s =
    match c with
    | None => (Panicked NilDereference, s)
    | Some l =>
        match crypters (snd s) !! l with
        | None => (Panicked NilDereference, s)
        | Some a =>
            (Done (seal (aead_suite a) (aead_key a) dst plaintext n aad),
             (fst s, {| crypters := crypters (snd s);
                        trace := trace (snd s) ++ [EvEncrypt l (aead_key a) dst plaintext n aad] |}))
        end
    end.
Proof.
  unfold crypter_encrypt, bind. rewrite crypter_object_cases.
  destruct c as [l|]; [|reflexivity]. destruct (crypters (snd s) !! l); reflexivity.
Qed.

Lemma crypter_decrypt_cases (c : option loc) (dst ciphertext n aad : bytes) (s : state) :
  crypter_decrypt c dst ciphertext n aad s =
    match c with
    | None => (Panicked NilDereference, s)
    | Some l =>
        match crypters (snd s) !! l with
        | None => (Panicked NilDereference, s)
        | Some a =>
            (Done (open (aead_suite a) (aead_key a) dst ciphertext n aad),
             (fst s, {| crypters := crypters (snd s);
                        trace := trace (snd s) ++ [EvDecrypt l (aead_key a) dst ciphertext n aad] |}))
        end
    end.
Proof.
  unfold crypter_decrypt, bind. rewrite crypter_object_cases.
  destruct c as [l|]; [|reflexivity]. destruct (crypters (snd s) !! l); reflexivity.
Qed.

Lemma crypter_updateKey_cases (c : option loc) (k : bytes) (s : state) :
  crypter_updateKey c k s =
    match c with
    | None => (Panicked NilDereference, s)
    | Some l =>
        match crypters (snd s) !! l with
        | None => (Panicked NilDereference, s)
        | Some a =>
            if len k =? keySize (aead_suite a)
            then (Done None,
                  (fst s, {| crypters := <[l := {| aead_suite := aead_suite a; aead_key := k |}]>
                                           (crypters (snd s));
                             trace := trace (snd s) ++ [EvUpdateKey l k] |}))
            else (Done (Some (Errorf "ConfigurationError: key must be %v bytes, given: %v"
                                [AInt (keySize (aead_suite a)); AInt (len k)])),
                  (fst s, {| crypters := crypters (snd s);
                             trace := trace (snd s) ++ [EvUpdateKey l k] |}))
        end
    end.
Proof.
  unfold crypter_updateKey, bind. rewrite crypter_object_cases.
  destruct c as [l|]; [|reflexivity]. destruct (crypters (snd s) !! l) as [a|]; [|reflexivity].
  unfold emit, store_crypter, ret. simpl.
  destruct (len k =? keySize (aead_suite a)); reflexivity.
Qed.

Lemma Encrypt_cases (dst plaintext aad : bytes) (s : state) :
  Encrypt dst plaintext aad s =
    match value (seqCounter (fst s)) with
    | (_, Some e) => (Done ([], Some e), s)
    | (sequence, None) =>
        match maskedNonce_bytes (nonce (fst s)) sequence with
        | Panicked p => (Panicked p, advanced s)
        | Done n => crypter_encrypt (aeadCrypter (fst s)) dst plaintext n aad (advanced s)
        end
    end.
Proof.
  unfold Encrypt, bind. rewrite getAndIncrementSequence_cases.
  destruct (value (seqCounter (fst s))) as [v [e|]]; [reflexivity|].
  cbn [snd fst]. unfold maskedNonce, bind, get_hc, advanced. cbn [fst snd nonce set_seqCounter].
  destruct (maskedNonce_bytes (nonce (fst s)) v); reflexivity.
Qed.

Lemma Decrypt_cases (dst ciphertext aad : bytes) (s : state) :
  Decrypt dst ciphertext aad s =
    match value (seqCounter (fst s)) with
    | (_, Some e) => (Done ([], Some e), s)
    | (sequence, None) =>
        match maskedNonce_bytes (nonce (fst s)) sequence with
        | Panicked p => (Panicked p, advanced s)
        | Done n => crypter_decrypt (aeadCrypter (fst s)) dst ciphertext n aad (advanced s)
        end
    end.
Proof.
  unfold Decrypt, bind. rewrite getAndIncrementSequence_cases.
  destruct (value (seqCounter (fst s))) as [v [e|]]; [reflexivity|].
  cbn [snd fst]. unfold maskedNonce, bind, get_hc, advanced. cbn [fst snd nonce set_seqCounter].
  destruct (maskedNonce_bytes (nonce (fst s)) v); reflexivity.
Qed.


Lemma deriveSecret_fixed (secret : bytes) (label : string) (size : Z) (e : hkdfExpander)
    (s : state) :
  (String.length label <= 255)%nat ->
  expander (fst s) = Some e ->
  deriveSecret secret (bytes_of_string label) size s =
    (Done (expand e (h (fst s)) secret (hkdf_info (bytes_of_string label) size) size),
     (fst s, log [EvExpand (h (fst s)) secret (hkdf_info (bytes_of_string label) size) size]
               (snd s))).
Proof.
  intros Hl He. rewrite deriveSecret_cases, He.
  replace (255 <? len (bytes_of_string label)) with false; [reflexivity|].
  symmetry. apply Z.ltb_ge. unfold len, bytes_of_string. rewrite length_map.
  assert (E : forall x, length (String.list_ascii_of_string x) = String.length x).
  { induction x; simpl; congruence. }
  rewrite E. lia.
Qed.

Lemma updateWithNewTrafficSecret_cases (suite : ciphersuite) (e : hkdfExpander)
    (secret : bytes) (s : state) :
  cs (fst s) = Some suite -> expander (fst s) = Some e ->
  updateWithNewTrafficSecret secret s =
    let hf := h (fst s) in
    let rk := expand e hf secret (key_info suite) (keySize suite) in
    let ek := EvExpand hf secret (key_info suite) (keySize suite) in
    match snd rk with
    | Some err =>
        (Done (Some (Errorf "hc.deriveSecret(h, %v, %v, %v) failed with error: %v"
                       [ABytes (trafficSecret (fst s)); AStr tls13Key; AInt (keySize suite); AErr err])),
         (set_key (fst rk) (fst s), log [ek] (snd s)))
    | None =>
        let rn := expand e hf secret (nonce_info suite) (cs_nonceSize suite) in
        let en := EvExpand hf secret (nonce_info suite) (cs_nonceSize suite) in
        (Done match snd rn with
              | Some err =>
                  Some (Errorf "hc.deriveSecret(h, %v, %v, %v) failed with error: %v"
                          [ABytes (trafficSecret (fst s)); AStr tls13Nonce;
                           AInt (cs_nonceSize suite); AErr err])
              | None => None
              end,
         (set_nonce (fst rn) (set_key (fst rk) (fst s)), log [ek; en] (snd s)))
    end.
Proof.
  intros Hcs He. destruct s as [hc w]. cbn [fst snd] in *.
  unfold updateWithNewTrafficSecret, bind at 1 2 3. unfold get_hc at 1. cbn [fst snd].
  rewrite Hcs. unfold deref at 1, ret at 1.
  rewrite (deriveSecret_fixed secret tls13Key (keySize suite) e) by (simpl; (lia || assumption)).
  cbn [fst snd]. unfold bind at 1, modify_hc at 1. cbn [fst snd].
  fold (key_info suite).
  destruct (expand e (h hc) secret (key_info suite) (keySize suite)) as [k [err|]]; cbn [fst snd].
  - unfold bind, get_hc, deref, ret. cbn. rewrite Hcs. reflexivity.
  - unfold bind at 1 2 3. unfold get_hc at 1. cbn [fst snd cs set_key]. rewrite Hcs.
    unfold deref at 1, ret at 1.
    rewrite (deriveSecret_fixed secret tls13Nonce (cs_nonceSize suite) e) by (simpl; (lia || assumption)).
    cbn [fst snd h set_key]. unfold bind at 1, modify_hc at 1. cbn [fst snd].
    fold (nonce_info suite). unfold log. cbn [crypters trace]. rewrite <- app_assoc. cbn [app].
    destruct (expand e (h hc) secret (nonce_info suite) (cs_nonceSize suite)) as [n [err|]]; cbn [fst snd].
    + unfold bind, get_hc, deref, ret. cbn. rewrite Hcs. reflexivity.
    + reflexivity.
Qed.


Lemma UpdateKey_success (s s' : state) :
  UpdateKey s = (Done None, s') ->
  exists suite e newSecret k n l a,
    cs (fst s) = Some suite /\ expander (fst s) = Some e /\
    expand e (h (fst s)) (trafficSecret (fst s)) (update_info suite) (trafficSecretSize suite)
      = (newSecret, None) /\
    expand e (h (fst s)) newSecret (key_info suite) (keySize suite) = (k, None) /\
    expand e (h (fst s)) newSecret (nonce_info suite) (cs_nonceSize suite) = (n, None) /\
    aeadCrypter (fst s) = Some l /\ crypters (snd s) !! l = Some a /\
    len k = keySize (aead_suite a) /\
    s' = rekeyed s l a newSecret k n suite.
Proof.
  destruct s as [hc w]. cbn [fst snd]. unfold UpdateKey.
  unfold bind at 1 2 3. unfold get_hc at 1. cbn [fst snd].
  destruct (cs hc) as [suite|] eqn:Hcs; [|discriminate].
  unfold deref at 1, ret at 1.
  destruct (expander hc) as [e|] eqn:He.
  2:{ rewrite deriveSecret_cases. cbn [fst snd]. rewrite He.
      change (255 <? len (bytes_of_string tls13Update)) with false. discriminate. }
  rewrite (deriveSecret_fixed _ tls13Update _ e) by (simpl; (lia || assumption)).
  cbn [fst snd]. fold (update_info suite).
  destruct (expand e (h hc) (trafficSecret hc) (update_info suite) (trafficSecretSize suite))
    as [newSecret [err|]] eqn:Es; cbn [fst snd].
  - unfold bind, modify_hc, get_hc, deref, ret. cbn. rewrite Hcs. discriminate.
  - unfold bind at 1. unfold modify_hc at 1. cbn [fst snd].
    unfold bind at 1. unfold get_hc at 1. cbn [fst snd trafficSecret set_trafficSecret].
    unfold bind at 1.
    rewrite (updateWithNewTrafficSecret_cases suite e) by assumption.
    cbn [fst snd h set_trafficSecret].
    destruct (expand e (h hc) newSecret (key_info suite) (keySize suite)) as [k [err|]] eqn:Ek;
      cbn [fst snd].
    { unfold bind, get_hc, ret. cbn. discriminate. }
    destruct (expand e (h hc) newSecret (nonce_info suite) (cs_nonceSize suite)) as [n [err|]] eqn:En;
      cbn [fst snd].
    { unfold bind, get_hc, ret. cbn. discriminate. }
    unfold bind at 1. unfold get_hc at 1. cbn [fst snd]. unfold bind at 1.
    rewrite crypter_updateKey_cases.
    cbn [fst snd aeadCrypter key set_nonce set_key set_trafficSecret].
    destruct (aeadCrypter hc) as [l|] eqn:Hl; [|discriminate].
    cbn [log crypters trace].
    destruct (crypters w !! l) as [a|] eqn:Ha; [|discriminate].
    destruct (len k =? keySize (aead_suite a)) eqn:Hk.
    2:{ unfold bind, get_hc, ret. cbn. discriminate. }
    unfold bind, modify_hc, ret. cbn [fst snd].
    intros E. injection E as <-.
    exists suite, e, newSecret, k, n, l, a.
    repeat split; try assumption; try reflexivity.
    + now apply Z.eqb_eq.
    + unfold rekeyed, reset, set_seqCounter.
      cbn [fst snd set_nonce set_key set_trafficSecret cs h aeadCrypter expander
             seqCounter trafficSecret nonce key crypters trace].
      rewrite <- !app_assoc. reflexivity.
Qed.

(** [UpdateKey], every way it can end. *)

Lemma UpdateKey_cases (s : state) :
  UpdateKey s =
    match cs (fst s), expander (fst s) with
    | None, _ => (Panicked NilDereference, s)
    | Some _, None => (Panicked NilDereference, s)
    | Some suite, Some e =>
        let hf := h (fst s) in
        let rs := expand e hf (trafficSecret (fst s)) (update_info suite) (trafficSecretSize suite) in
        let rk := expand e hf (fst rs) (key_info suite) (keySize suite) in
        let rn := expand e hf (fst rs) (nonce_info suite) (cs_nonceSize suite) in
        let es := EvExpand hf (trafficSecret (fst s)) (update_info suite) (trafficSecretSize suite) in
        let ek := EvExpand hf (fst rs) (key_info suite) (keySize suite) in
        let en := EvExpand hf (fst rs) (nonce_info suite) (cs_nonceSize suite) in
        let hc1 := set_trafficSecret (fst rs) (fst s) in
        let hc2 := set_key (fst rk) hc1 in
        let hc3 := set_nonce (fst rn) hc2 in
        match snd rs with
        | Some err =>
            (Done (Some (Errorf "hc.deriveSecret(h, %v, %v, %v) failed with error: %v"
                           [ABytes (fst rs); AStr tls13Update; AInt (trafficSecretSize suite);
                            AErr err])),
             (hc1, log [es] (snd s)))
        | None =>
            match snd rk with
            | Some err =>
                (Done (Some (Errorf "hc.updateWithNewTrafficSecret(%v) failed with error: %v"
                               [ABytes (fst rs);
                                AErr (Errorf "hc.deriveSecret(h, %v, %v, %v) failed with error: %v"
                                        [ABytes (fst rs); AStr tls13Key; AInt (keySize suite);
                                         AErr err])])),
                 (hc2, log [es; ek] (snd s)))
            | None =>
                match snd rn with
                | Some err =>
                    (Done (Some (Errorf "hc.updateWithNewTrafficSecret(%v) failed with error: %v"
                                   [ABytes (fst rs);
                                    AErr (Errorf "hc.deriveSecret(h, %v, %v, %v) failed with error: %v"
                                            [ABytes (fst rs); AStr tls13Nonce;
                                             AInt (cs_nonceSize suite); AErr err])])),
                     (hc3, log [es; ek; en] (snd s)))
                | None =>
                    match aeadCrypter (fst s) with
                    | None => (Panicked NilDereference, (hc3, log [es; ek; en] (snd s)))
                    | Some l =>
                        match crypters (snd s) !! l with
                        | None => (Panicked NilDereference, (hc3, log [es; ek; en] (snd s)))
                        | Some a =>
                            if len (fst rk) =? keySize (aead_suite a)
                            then (Done None, rekeyed s l a (fst rs) (fst rk) (fst rn) suite)
                            else
                              (Done (Some (Errorf "hc.aeadCrypter.updateKey(%v) failed with error: %v"
                                             [ABytes (fst rk);
                                              AErr (Errorf "ConfigurationError: key must be %v bytes, given: %v"
                                                      [AInt (keySize (aead_suite a));
                                                       AInt (len (fst rk))])])),
                               (hc3, log [es; ek; en; EvUpdateKey l (fst rk)] (snd s)))
                        end
                    end
                end
            end
        end
    end.
Proof.
  destruct s as [hc w]. cbn [fst snd]. unfold UpdateKey.
  unfold bind at 1 2 3. unfold get_hc at 1. cbn [fst snd].
  destruct (cs hc) as [suite|] eqn:Hcs; [|reflexivity].
  unfold deref at 1, ret at 1.
  destruct (expander hc) as [e|] eqn:He.
  2:{ rewrite deriveSecret_cases. cbn [fst snd]. rewrite He. reflexivity. }
  rewrite (deriveSecret_fixed _ tls13Update _ e) by (simpl; (lia || assumption)).
  cbn [fst snd]. change (hkdf_info (bytes_of_string tls13Update) (trafficSecretSize suite))
    with (update_info suite). cbv zeta.
  destruct (expand e (h hc) (trafficSecret hc) (update_info suite) (trafficSecretSize suite))
    as [newSecret [err|]]; cbn [fst snd].
  - unfold bind, modify_hc, get_hc, deref, ret. cbn [fst snd cs set_trafficSecret trafficSecret].
    rewrite Hcs. reflexivity.
  - unfold bind at 1. unfold modify_hc at 1. cbn [fst snd].
    unfold bind at 1. unfold get_hc at 1. cbn [fst snd trafficSecret set_trafficSecret].
    unfold bind at 1.
    rewrite (updateWithNewTrafficSecret_cases suite e) by assumption.
    cbn [fst snd h set_trafficSecret trafficSecret].
    destruct (expand e (h hc) newSecret (key_info suite) (keySize suite)) as [k [err|]];
      cbn [fst snd].
    { unfold bind, get_hc, ret, log. cbn [fst snd trafficSecret set_key set_trafficSecret crypters trace].
      rewrite <- !app_assoc. reflexivity. }
    destruct (expand e (h hc) newSecret (nonce_info suite) (cs_nonceSize suite)) as [n [err|]];
      cbn [fst snd].
    { unfold bind, get_hc, ret, log.
      cbn [fst snd trafficSecret set_key set_nonce set_trafficSecret crypters trace].
      rewrite <- !app_assoc. reflexivity. }
    unfold bind at 1. unfold get_hc at 1. cbn [fst snd]. unfold bind at 1.
    rewrite crypter_updateKey_cases.
    cbn [fst snd aeadCrypter key set_nonce set_key set_trafficSecret].
    unfold log. cbn [crypters trace]. rewrite <- !app_assoc. cbn [app].
    destruct (aeadCrypter hc) as [l|]; [|reflexivity].
    destruct (crypters w !! l) as [a|]; [|reflexivity].
    destruct (len k =? keySize (aead_suite a)).
    + unfold bind, modify_hc, ret, rekeyed, reset, set_seqCounter.
      cbn [fst snd set_nonce set_key set_trafficSecret cs h aeadCrypter expander
             seqCounter trafficSecret nonce key crypters trace].
      rewrite <- !app_assoc. reflexivity.
    + unfold bind, get_hc, ret. cbn [fst snd key set_nonce set_key]. rewrite <- !app_assoc. reflexivity.
Qed.

Lemma NewHalfConn_cases (c : Ciphersuite) (secret : bytes) (w : world) :
  NewHalfConn c secret w =
    let suite := newCiphersuite c in
    let hf := hashFunction suite in
    let rk := expand defaultHKDFExpander hf secret (key_info suite) (keySize suite) in
    let rn := expand defaultHKDFExpander hf secret (nonce_info suite) (cs_nonceSize suite) in
    let ek := EvExpand hf secret (key_info suite) (keySize suite) in
    let en := EvExpand hf secret (nonce_info suite) (cs_nonceSize suite) in
    if negb (trafficSecretSize suite =? len secret) then
      (Done (zeroHalfConn,
             Some (Errorf "supplied traffic secret must be %v bytes, given: %v"
                     [AInt (trafficSecretSize suite); ABytes secret])), w)
    else
      match snd rk with
      | Some err =>
          (Done (zeroHalfConn,
                 Some (Errorf "hc.updateWithNewTrafficSecret(%v) failed with error: %v"
                         [ABytes secret;
                          AErr (Errorf "hc.deriveSecret(h, %v, %v, %v) failed with error: %v"
                                  [ABytes secret; AStr tls13Key; AInt (keySize suite); AErr err])])),
           log [ek] w)
      | None =>
          match snd rn with
          | Some err =>
              (Done (zeroHalfConn,
                     Some (Errorf "hc.updateWithNewTrafficSecret(%v) failed with error: %v"
                             [ABytes secret;
                              AErr (Errorf "hc.deriveSecret(h, %v, %v, %v) failed with error: %v"
                                      [ABytes secret; AStr tls13Nonce; AInt (cs_nonceSize suite);
                                       AErr err])])),
               log [ek; en] w)
          | None =>
              if len (fst rk) =? keySize suite
              then let r := constructed suite secret (fst rk) (fst rn) w in
                   (Done (fst r, None), snd r)
              else (Done (zeroHalfConn,
                          Some (Errorf "cs.aeadCrypter(%v) failed with error: %v"
                                  [ABytes (fst rk);
                                   AErr (Errorf "ConfigurationError: key must be %v bytes, given: %v"
                                           [AInt (keySize suite); AInt (len (fst rk))])])),
                    log [ek; en; EvNewCrypter suite (fst rk)] w)
          end
      end.
Proof.
  unfold NewHalfConn. cbv zeta.
  destruct (negb (trafficSecretSize (newCiphersuite c) =? len secret)); [reflexivity|].
  rewrite (updateWithNewTrafficSecret_cases (newCiphersuite c) defaultHKDFExpander)
    by reflexivity.
  cbv zeta. cbn [fst snd h trafficSecret].
  destruct (expand defaultHKDFExpander (hashFunction (newCiphersuite c)) secret
              (key_info (newCiphersuite c)) (keySize (newCiphersuite c))) as [k [err|]];
    cbn [fst snd set_key trafficSecret]; [reflexivity|].
  destruct (expand defaultHKDFExpander (hashFunction (newCiphersuite c)) secret
              (nonce_info (newCiphersuite c)) (cs_nonceSize (newCiphersuite c))) as [n [err|]];
    cbn [fst snd set_key set_nonce trafficSecret key]; [reflexivity|].
  unfold cs_aeadCrypter. cbn [crypters trace log].
  destruct (len k =? keySize (newCiphersuite c)).
  - unfold constructed, set_aeadCrypter. cbn [fst snd cs h aeadCrypter expander seqCounter
      trafficSecret nonce key crypters trace]. rewrite <- !app_assoc. reflexivity.
  - unfold log. cbn [crypters trace]. rewrite <- !app_assoc. reflexivity.
Qed.

Lemma NewHalfConn_success (c : Ciphersuite) (secret : bytes) (w w' : world)
    (hc : S2AHalfConnection) :
  NewHalfConn c secret w = (Done (hc, None), w') ->
  exists k n,
    trafficSecretSize (newCiphersuite c) = len secret /\
    expand defaultHKDFExpander (hashFunction (newCiphersuite c)) secret
      (key_info (newCiphersuite c)) (keySize (newCiphersuite c)) = (k, None) /\
    expand defaultHKDFExpander (hashFunction (newCiphersuite c)) secret
      (nonce_info (newCiphersuite c)) (cs_nonceSize (newCiphersuite c)) = (n, None) /\
    len k = keySize (newCiphersuite c) /\
    (hc, w') = constructed (newCiphersuite c) secret k n w.
Proof.
  rewrite NewHalfConn_cases. cbv zeta.
  destruct (negb _) eqn:Hsize; [discriminate|].
  destruct (expand defaultHKDFExpander (hashFunction (newCiphersuite c)) secret
              (key_info (newCiphersuite c)) (keySize (newCiphersuite c))) as [k [err|]];
    cbn [fst snd]; [discriminate|].
  destruct (expand defaultHKDFExpander (hashFunction (newCiphersuite c)) secret
              (nonce_info (newCiphersuite c)) (cs_nonceSize (newCiphersuite c))) as [n [err|]];
    cbn [fst snd]; [discriminate|].
  destruct (len k =? keySize (newCiphersuite c)) eqn:Hk; [|discriminate].
  intros E. injection E as <- <-. exists k, n.
  apply negb_false_iff, Z.eqb_eq in Hsize. apply Z.eqb_eq in Hk.
  repeat split; assumption.
Qed.

(** Conversely, these conditions make the construction succeed. *)
Lemma NewHalfConn_succeeds (c : Ciphersuite) (secret k n : bytes) (w : world) :
  trafficSecretSize (newCiphersuite c) = len secret ->
  expand defaultHKDFExpander (hashFunction (newCiphersuite c)) secret
    (key_info (newCiphersuite c)) (keySize (newCiphersuite c)) = (k, None) ->
  expand defaultHKDFExpander (hashFunction (newCiphersuite c)) secret
    (nonce_info (newCiphersuite c)) (cs_nonceSize (newCiphersuite c)) = (n, None) ->
  len k = keySize (newCiphersuite c) ->
  NewHalfConn c secret w =
    (Done (fst (constructed (newCiphersuite c) secret k n w), None),
     snd (constructed (newCiphersuite c) secret k n w)).
Proof.
  intros Hsize Ek En Hk. rewrite NewHalfConn_cases. cbv zeta.
  rewrite (proj2 (Z.eqb_eq _ _) Hsize). cbn [negb]. rewrite Ek, En. cbn [fst snd].
  now rewrite (proj2 (Z.eqb_eq _ _) Hk).
Qed.

End HalfConnection.

(** ** The sequence counter *)

Lemma value_ok (c : counter) (v : Z) :
  value c = (v, None) -> hasOverflowed c = false /\ v = val c /\ next_sequence c = v.
Proof.
  unfold value, next_sequence. destruct (hasOverflowed c); [discriminate|].
  intros E. injection E as <-. auto.
Qed.

Lemma value_overflow (c : counter) (v : Z) (e : error) :
  value c = (v, Some e) -> hasOverflowed c = true.
Proof. unfold value. destruct (hasOverflowed c); [reflexivity|discriminate]. Qed.

Lemma next_sequence_increment (c : counter) :
  hasOverflowed c = false -> next_sequence (increment c) = next_sequence c + 1.
Proof.
  unfold next_sequence, increment. intros ->.
  destruct (val c =? max_uint64) eqn:E; cbn [hasOverflowed val]; [|reflexivity].
  apply Z.eqb_eq in E. rewrite E. reflexivity.
Qed.

Lemma counter_ok_increment (c : counter) : counter_ok c -> counter_ok (increment c).
Proof.
  unfold counter_ok, increment. intros Hc.
  destruct (hasOverflowed c); [assumption|].
  destruct (val c =? max_uint64) eqn:E; cbn [val]; [assumption|].
  apply Z.eqb_neq in E. lia.
Qed.

Lemma next_sequence_bound (c : counter) : counter_ok c -> 0 <= next_sequence c <= 2 ^ 64.
Proof.
  unfold counter_ok, next_sequence, max_uint64. destruct (hasOverflowed c); lia.
Qed.

Lemma value_range (c : counter) (v : Z) :
  counter_ok c -> value c = (v, None) -> 0 <= v < 2 ^ 64.
Proof.
  intros Hc Hv. apply value_ok in Hv as (_ & -> & _). unfold counter_ok, max_uint64 in Hc. lia.
Qed.

Section Runs.

Context `{Ciphers}.

(** *** What a successful call did *)

Lemma Encrypt_success (dst plaintext aad out : bytes) (s s' : state) :
  Encrypt dst plaintext aad s = (Done (out, None), s') ->
  exists sequence n l a,
    value (seqCounter (fst s)) = (sequence, None) /\
    maskedNonce_bytes (nonce (fst s)) sequence = Done n /\
    aeadCrypter (fst s) = Some l /\ crypters (snd s) !! l = Some a /\
    s' = (fst (advanced s), log [EvEncrypt l (aead_key a) dst plaintext n aad] (snd s)).
Proof.
  rewrite Encrypt_cases.
  destruct (value (seqCounter (fst s))) as [v [e|]]; [discriminate|].
  destruct (maskedNonce_bytes (nonce (fst s)) v) as [n|p] eqn:En; [|discriminate].
  rewrite crypter_encrypt_cases.
  destruct (aeadCrypter (fst s)) as [l|]; [|discriminate].
  cbn [advanced snd]. destruct (crypters (snd s) !! l) as [a|] eqn:Ha; [|discriminate].
  intros E. injection E as _ <-. exists v, n, l, a. repeat split; reflexivity || assumption.
Qed.

Lemma Decrypt_success (dst ciphertext aad out : bytes) (s s' : state) :
  Decrypt dst ciphertext aad s = (Done (out, None), s') ->
  exists sequence n l a,
    value (seqCounter (fst s)) = (sequence, None) /\
    maskedNonce_bytes (nonce (fst s)) sequence = Done n /\
    aeadCrypter (fst s) = Some l /\ crypters (snd s) !! l = Some a /\
    s' = (fst (advanced s), log [EvDecrypt l (aead_key a) dst ciphertext n aad] (snd s)).
Proof.
  rewrite Decrypt_cases.
  destruct (value (seqCounter (fst s))) as [v [e|]]; [discriminate|].
  destruct (maskedNonce_bytes (nonce (fst s)) v) as [n|p] eqn:En; [|discriminate].
  rewrite crypter_decrypt_cases.
  destruct (aeadCrypter (fst s)) as [l|]; [|discriminate].
  cbn [advanced snd]. destruct (crypters (snd s) !! l) as [a|] eqn:Ha; [|discriminate].
  intros E. injection E as _ <-. exists v, n, l, a. repeat split; reflexivity || assumption.
Qed.

(** A successful record call used the pair (key in use, masked nonce of
    the next sequence number) and advanced the counter; nothing else
    changed. *)
Lemma record_success (c : call) (s s' : state) :
  c <> CallUpdateKey ->
  perform c s = (Done true, s') ->
  exists sequence n k ev,
    value (seqCounter (fst s)) = (sequence, None) /\
    maskedNonce_bytes (nonce (fst s)) sequence = Done n /\
    current_key s = Some k /\
    used_pair ev = Some (k, n) /\ installed_key ev = None /\
    s' = (fst (advanced s), log [ev] (snd s)).
Proof.
  intros Hc. destruct c as [dst text aad|dst text aad|]; [| |congruence]; cbn [perform]; unfold bind.
  - destruct (Encrypt dst text aad s) as [[[out e]|p] s1] eqn:E; [|discriminate].
    unfold ret. intros E1. injection E1 as E1 <-. apply bool_decide_eq_true in E1.
    cbn [snd] in E1. subst e.
    apply Encrypt_success in E as (v & n & l & a & Hv & Hn & Hl & Ha & ->).
    exists v, n, (aead_key a), (EvEncrypt l (aead_key a) dst text n aad).
    repeat split; try assumption; try reflexivity.
    unfold current_key. rewrite Hl. cbn. rewrite Ha. reflexivity.
  - destruct (Decrypt dst text aad s) as [[[out e]|p] s1] eqn:E; [|discriminate].
    unfold ret. intros E1. injection E1 as E1 <-. apply bool_decide_eq_true in E1.
    cbn [snd] in E1. subst e.
    apply Decrypt_success in E as (v & n & l & a & Hv & Hn & Hl & Ha & ->).
    exists v, n, (aead_key a), (EvDecrypt l (aead_key a) dst text n aad).
    repeat split; try assumption; try reflexivity.
    unfold current_key. rewrite Hl. cbn. rewrite Ha. reflexivity.
Qed.

Lemma perform_UpdateKey_success (s s' : state) :
  perform CallUpdateKey s = (Done true, s') -> UpdateKey s = (Done None, s').
Proof.
  cbn [perform]. unfold bind. destruct (UpdateKey s) as [[e|p] s1]; [|discriminate].
  unfold ret. intros E. injection E as E <-. apply bool_decide_eq_true in E. now subst e.
Qed.

Lemma run_cons_success (c : call) (rest : list call) (s s' : state) :
  run (c :: rest) s = (Done true, s') ->
  exists s1, perform c s = (Done true, s1) /\ run rest s1 = (Done true, s').
Proof.
  cbn [run]. unfold bind. destruct (perform c s) as [[[|]|p] s1]; try discriminate.
  intros E. exists s1. split; [reflexivity|assumption].
Qed.


Lemma call_cases (c : call) : c = CallUpdateKey \/ c <> CallUpdateKey.
Proof. destruct c; [right|right|left]; congruence. Qed.

(** *** Traces only grow *)

Lemma events_since_app (s s1 s' : state) (e1 e2 : list event) :
  trace (snd s1) = trace (snd s) ++ e1 ->
  trace (snd s') = trace (snd s1) ++ e2 ->
  events_since s s' = e1 ++ e2 /\ events_since s1 s' = e2.
Proof.
  intros E1 E2. unfold events_since. rewrite E2. split.
  - rewrite E1, <- app_assoc. apply drop_app_length.
  - apply drop_app_length.
Qed.

Lemma events_since_refl (s : state) : events_since s s = [].
Proof. unfold events_since. apply drop_all. Qed.

Lemma perform_trace (c : call) (s s' : state) :
  perform c s = (Done true, s') ->
  exists evs, trace (snd s') = trace (snd s) ++ evs.
Proof.
  intros E. destruct (call_cases c) as [->|Hc].
  - apply perform_UpdateKey_success, UpdateKey_success in E
      as (suite & e & sec & k & n & l & a & _ & _ & _ & _ & _ & _ & _ & _ & ->).
    eexists. reflexivity.
  - apply record_success in E as (v & n & k & ev & _ & _ & _ & _ & _ & ->); [|assumption].
    eexists. reflexivity.
Qed.

Lemma run_trace (calls : list call) (s s' : state) :
  run calls s = (Done true, s') ->
  trace (snd s') = trace (snd s) ++ events_since s s'.
Proof.
  revert s. induction calls as [|c rest IH]; intros s E.
  - cbn in E. injection E as <-. now rewrite events_since_refl, app_nil_r.
  - apply run_cons_success in E as (s1 & E1 & E2).
    apply perform_trace in E1 as (evs & E1). specialize (IH _ E2).
    destruct (events_since_app s s1 s' _ _ E1 IH) as [-> _].
    rewrite IH, E1. now rewrite app_assoc.
Qed.

(** *** Consecutive [Encrypt] calls *)

Lemma run_encrypts (calls : list call) (s s' : state) :
  forallb is_encrypt calls = true ->
  counter_ok (seqCounter (fst s)) ->
  run calls s = (Done true, s') ->
  Done <$> used_nonces (events_since s s') =
    maskedNonce_bytes (nonce (fst s)) <$>
      seqZ (next_sequence (seqCounter (fst s))) (Z.of_nat (length calls)) /\
  next_sequence (seqCounter (fst s)) + Z.of_nat (length calls) <= 2 ^ 64.
Proof.
  revert s. induction calls as [|c rest IH]; intros s Hall Hok E.
  - cbn in E. injection E as <-. rewrite events_since_refl. cbn.
    split; [reflexivity|]. pose proof (next_sequence_bound _ Hok). lia.
  - cbn [forallb] in Hall. apply andb_prop in Hall as [Hc Hall].
    apply run_cons_success in E as (s1 & E1 & E2).
    pose proof (run_trace _ _ _ E2) as Ht.
    apply record_success in E1 as (v & n & k & ev & Hv & Hn & Hk & Hev & Hik & ->);
      [|destruct c; discriminate].
    destruct (events_since_app s (fst (advanced s), log [ev] (snd s)) s' [ev] _ eq_refl Ht)
      as [-> _].
    specialize (IH (fst (advanced s), log [ev] (snd s)) Hall (counter_ok_increment _ Hok) E2).
    cbn [advanced fst snd seqCounter set_seqCounter nonce] in IH.
    destruct (value_ok _ _ Hv) as (Hno & -> & Hnext).
    rewrite next_sequence_increment in IH by assumption.
    destruct IH as [IH1 IH2]. rewrite Hnext in *.
    split.
    + cbn [length]. rewrite Nat2Z.inj_succ, seqZ_cons by lia.
      rewrite Z.pred_succ. cbn [fmap list_fmap]. unfold used_nonces, used_pairs in *.
      cbn [omap list_omap app]. rewrite Hev. cbn [fmap list_fmap snd].
      change (Z.succ (val (seqCounter s.1))) with (val (seqCounter s.1) + 1).
      rewrite <- IH1, Hn. reflexivity.
    + cbn [length]. lia.
Qed.

Lemma run_encrypts_distinct (calls : list call) (s s' : state) :
  forallb is_encrypt calls = true ->
  counter_ok (seqCounter (fst s)) ->
  run calls s = (Done true, s') ->
  NoDup (used_nonces (events_since s s')).
Proof.
  intros Hall Hok E. destruct (run_encrypts _ _ _ Hall Hok E) as [E1 E2].
  apply (NoDup_fmap_1 Done). rewrite E1.
  pose proof (next_sequence_bound _ Hok) as Hb.
  apply NoDup_fmap_2_strong; [|apply NoDup_seqZ].
  intros x y Hx Hy Exy.
  assert (Hin : maskedNonce_bytes (nonce (fst s)) x ∈
                Done <$> used_nonces (events_since s s')).
  { rewrite E1. apply list_elem_of_fmap. eauto. }
  apply list_elem_of_fmap in Hin as (n & Hn & _).
  apply elem_of_seqZ in Hx, Hy.
  apply (maskedNonce_bytes_inj (nonce (fst s)) n); try lia; congruence.
Qed.

End Runs.

Section Lifetime.

Context `{Ciphers}.

(** [Encrypt] is its two halves, one after the other. *)
Lemma Encrypt_split (dst plaintext aad : bytes) (s : state) :
  Encrypt dst plaintext aad s = bind Encrypt_locked (Encrypt_unlocked dst plaintext aad) s.
Proof.
  unfold Encrypt, Encrypt_locked, Encrypt_unlocked, bind.
  destruct (getAndIncrementSequence s) as [[[v [e|]]|p] s1]; cbn [fst snd]; try reflexivity.
  destruct (maskedNonce v s1) as [[n|p] s2]; reflexivity.
Qed.

(** What one record call does, whatever it returns: nothing (the counter
    is exhausted), a panic before the AEAD is reached, or one AEAD call
    under the key in use and the masked nonce of the next sequence
    number. *)
Lemma record_step (c : call) (s s1 : state) (r : outcome bool) :
  is_record c = true ->
  perform c s = (r, s1) ->
  (s1 = s /\ exists ok, r = Done ok) \/
  (trace (snd s1) = trace (snd s) /\ exists p, r = Panicked p) \/
  (exists sequence n k ev ok,
     value (seqCounter (fst s)) = (sequence, None) /\
     maskedNonce_bytes (nonce (fst s)) sequence = Done n /\
     current_key s = Some k /\
     used_pair ev = Some (k, n) /\ installed_key ev = None /\
     s1 = (fst (advanced s), log [ev] (snd s)) /\ r = Done ok).
Proof.
  intros Hc E.
  destruct c as [dst text aad|dst text aad|]; [| |discriminate]; cbn [perform] in E;
    unfold bind in E; [rewrite Encrypt_cases in E|rewrite Decrypt_cases in E];
    (destruct (value (seqCounter (fst s))) as [v [e|]] eqn:Hv;
     [unfold ret in E; injection E as <- <-; left; eauto|]);
    (destruct (maskedNonce_bytes (nonce (fst s)) v) as [n|p] eqn:Hn;
     [|injection E as <- <-; right; left; eauto]);
    [rewrite crypter_encrypt_cases in E|rewrite crypter_decrypt_cases in E];
    (destruct (aeadCrypter (fst s)) as [l|] eqn:Hl;
     [|injection E as <- <-; right; left; eauto]);
    cbn [advanced snd] in E;
    (destruct (crypters (snd s) !! l) as [a|] eqn:Ha;
     [|injection E as <- <-; right; left; eauto]);
    unfold ret in E; injection E as <- <-; right; right.
  - exists v, n, (aead_key a), (EvEncrypt l (aead_key a) dst text n aad). eexists.
    repeat split; try reflexivity; try assumption.
    unfold current_key. rewrite Hl. cbn. rewrite Ha. reflexivity.
  - exists v, n, (aead_key a), (EvDecrypt l (aead_key a) dst text n aad). eexists.
    repeat split; try reflexivity; try assumption.
    unfold current_key. rewrite Hl. cbn. rewrite Ha. reflexivity.
Qed.

(** An [UpdateKey] that does not succeed hands nothing to the AEAD. *)
Lemma UpdateKey_step (s s1 : state) (r : outcome bool) :
  perform CallUpdateKey s = (r, s1) ->
  (r = Done true /\ UpdateKey s = (Done None, s1)) \/
  (r <> Done true /\ exists evs, trace (snd s1) = trace (snd s) ++ evs /\ used_pairs evs = []).
Proof.
  cbn [perform]. unfold bind. destruct (UpdateKey s) as [[e|p] s2] eqn:Eu; unfold ret; intros E;
    injection E as <- <-.
  - destruct e as [err|]; [|left; split; reflexivity].
    right. split; [discriminate|].
    rewrite UpdateKey_cases in Eu. cbv zeta in Eu.
    break_match_in Eu; try discriminate; injection Eu as _ <-; eexists; split; reflexivity.
  - right. split; [discriminate|].
    rewrite UpdateKey_cases in Eu. cbv zeta in Eu.
    break_match_in Eu; try discriminate; injection Eu as _ <-;
      try (exists []; split; [now rewrite app_nil_r|reflexivity]);
      eexists; split; reflexivity.
Qed.

Lemma lifetime_cons (c : call) (rest : list call) (s s' : state) (r : outcome bool) :
  lifetime (c :: rest) s = (r, s') ->
  exists r1 s1,
    perform c s = (r1, s1) /\
    ((exists ok, r1 = Done ok /\ is_record c || ok = true /\ lifetime rest s1 = (r, s')) \/
     (r1 <> Done true /\ is_record c = false /\ s' = s1) \/
     ((exists p, r1 = Panicked p) /\ s' = s1)).
Proof.
  cbn [lifetime]. unfold bind. destruct (perform c s) as [[ok|p] s1]; intros E.
  - exists (Done ok), s1. split; [reflexivity|].
    destruct (is_record c || ok) eqn:Hgo.
    + left. exists ok. auto.
    + right. left. unfold ret in E. injection E as _ <-.
      apply orb_false_elim in Hgo as [Hc Hok]. subst ok. split; [discriminate|]. auto.
  - exists (Panicked p), s1. split; [reflexivity|]. right. right.
    injection E as _ <-. eauto.
Qed.

Lemma perform_trace_any (c : call) (s s1 : state) (r : outcome bool) :
  perform c s = (r, s1) -> exists evs, trace (snd s1) = trace (snd s) ++ evs.
Proof.
  intros E. destruct (is_record c) eqn:Hc.
  - apply record_step in E as [[-> _]|[[Ht _]|(v & n & k & ev & ok & _ & _ & _ & _ & _ & -> & _)]];
      [exists []; now rewrite app_nil_r|exists []; now rewrite app_nil_r, Ht| |assumption].
    eexists. reflexivity.
  - destruct c; try discriminate.
    apply UpdateKey_step in E as [[_ E]|[_ (evs & E & _)]]; [|eauto].
    apply UpdateKey_success in E
      as (suite & e & sec & k & n & l & a & _ & _ & _ & _ & _ & _ & _ & _ & ->).
    eexists. reflexivity.
Qed.

Lemma lifetime_trace (calls : list call) (s s' : state) (r : outcome bool) :
  lifetime calls s = (r, s') ->
  trace (snd s') = trace (snd s) ++ events_since s s'.
Proof.
  revert s. induction calls as [|c rest IH]; intros s E.
  - cbn in E. injection E as _ <-. now rewrite events_since_refl, app_nil_r.
  - apply lifetime_cons in E as (r1 & s1 & E1 & Hnext).
    apply perform_trace_any in E1 as (evs & E1).
    destruct Hnext as [(ok & _ & _ & E2)|[(_ & _ & ->)|(_ & ->)]].
    + specialize (IH _ E2).
      destruct (events_since_app s s1 s' _ _ E1 IH) as [-> _].
      rewrite IH, E1. now rewrite app_assoc.
    + unfold events_since. rewrite E1. now rewrite drop_app_length.
    + unfold events_since. rewrite E1. now rewrite drop_app_length.
Qed.

(** No (key, nonce) pair twice, whatever the calls return. *)
Lemma lifetime_no_reuse (calls : list call) (s s' : state) (r : outcome bool)
    (P : list (bytes * bytes)) (Ks : list bytes) :
  lifetime calls s = (r, s') ->
  counter_ok (seqCounter (fst s)) ->
  NoDup P ->
  (forall k n, (k, n) ∈ P -> k ∈ Ks) ->
  (forall k, current_key s = Some k -> k ∈ Ks) ->
  epoch_inv s P ->
  NoDup (Ks ++ installed_keys (events_since s s')) ->
  NoDup (P ++ used_pairs (events_since s s')).
Proof.
  revert s P Ks. induction calls as [|c rest IH]; intros s P Ks E Hok HP HPK HcK Hinv HK.
  - cbn in E. injection E as _ <-. rewrite events_since_refl. cbn. now rewrite app_nil_r.
  - apply lifetime_cons in E as (r1 & s1 & E1 & Hnext).
    destruct (is_record c) eqn:Hc.
    + apply record_step in E1
        as [[-> (ok0 & ->)]|[[Ht (p0 & ->)]|(v & n & k & ev & ok & Hv & Hn & Hk & Hev & Hik & -> & ->)]];
        [| |   |assumption].
      * (* counter exhausted: nothing happened *)
        destruct Hnext as [(ok & _ & _ & E2)|[(_ & Hf & _)|((p & Hp) & _)]];
          [|congruence|discriminate].
        apply (IH s P Ks); assumption.
      * (* panic before the AEAD *)
        destruct Hnext as [(ok & Hd & _)|[(_ & Hf & _)|(_ & ->)]]; [discriminate|congruence|].
        unfold events_since. rewrite Ht, drop_all. cbn. now rewrite app_nil_r.
      * (* one AEAD call *)
        destruct Hnext as [(ok' & _ & _ & E2)|[(_ & Hf & _)|((p & Hp) & _)]];
          [|congruence|discriminate].
        pose proof (lifetime_trace _ _ _ _ E2) as Ht.
        destruct (events_since_app s (fst (advanced s), log [ev] (snd s)) s' [ev] _ eq_refl Ht)
          as [Hevs _].
        rewrite Hevs in *. clear Hevs.
        unfold installed_keys, used_pairs in *. cbn [omap list_omap app] in *.
        rewrite Hev. rewrite Hik in HK.
        destruct (value_ok _ _ Hv) as (Hno & Hval & Hnext).
        pose proof (value_range _ _ Hok Hv) as Hrange.
        assert (Hcur : current_key (fst (advanced s), log [ev] (snd s)) = current_key s)
          by reflexivity.
        assert (Hnew : (k, n) ∉ P).
        { intros Hin. destruct (Hinv k n Hin Hk) as (t & Ht1 & Ht2).
          rewrite Hnext in Ht1.
          assert (t = v) by (apply (maskedNonce_bytes_inj (nonce (fst s)) n); try lia; assumption).
          lia. }
        change ((k, n) :: omap used_pair (events_since (fst (advanced s), log [ev] (snd s)) s'))
          with ([(k, n)] ++ omap used_pair (events_since (fst (advanced s), log [ev] (snd s)) s')).
        rewrite app_assoc.
        apply (IH _ (P ++ [(k, n)]) Ks E2).
        -- apply counter_ok_increment. exact Hok.
        -- apply NoDup_app. split; [assumption|]. split; [|apply NoDup_singleton].
           intros x Hx Hx'. apply list_elem_of_singleton in Hx'. subst x. contradiction.
        -- intros k' n' Hin. apply elem_of_app in Hin as [Hin|Hin]; [eauto|].
           apply list_elem_of_singleton in Hin. injection Hin as -> ->. auto.
        -- intros k' Hk'. rewrite Hcur in Hk'. auto.
        -- intros k' n' Hin Hk'. rewrite Hcur in Hk'.
           cbn [advanced fst snd seqCounter set_seqCounter nonce].
           rewrite next_sequence_increment by assumption.
           apply elem_of_app in Hin as [Hin|Hin].
           ++ destruct (Hinv k' n' Hin Hk') as (t & Ht1 & Ht2). exists t. split; [lia|assumption].
           ++ apply list_elem_of_singleton in Hin. injection Hin as -> ->.
              exists v. split; [lia|assumption].
        -- exact HK.
    + destruct c; try discriminate.
      apply UpdateKey_step in E1 as [[-> E1]|[Hr1 (evs & Ht & Hnone)]].
      * destruct Hnext as [(ok' & _ & _ & E2)|[(Hf & _)|((p & Hp) & _)]];
          [|congruence|discriminate].
        pose proof (lifetime_trace _ _ _ _ E2) as Ht.
        apply UpdateKey_success in E1
          as (suite & e & sec & k & n & l & a & _ & _ & _ & _ & _ & Hl & Ha & _ & ->).
        destruct (events_since_app s (rekeyed s l a sec k n suite) s' _ _ eq_refl Ht) as [Hev _].
        rewrite Hev in *. clear Hev.
        unfold installed_keys, used_pairs in *.
        cbn [omap list_omap app installed_key used_pair] in *.
        assert (Hcur : current_key (rekeyed s l a sec k n suite) = Some k).
        { unfold current_key, rekeyed. cbn [fst snd aeadCrypter crypters]. rewrite Hl. cbn.
          rewrite lookup_insert_eq. reflexivity. }
        assert (HkK : k ∉ Ks).
        { intros Hin. apply NoDup_app in HK as (_ & HK & _). apply (HK k Hin). left. }
        apply (IH _ P (Ks ++ [k]) E2).
        -- cbn. unfold counter_ok, max_uint64. cbn. lia.
        -- assumption.
        -- intros k' n' Hin. apply elem_of_app. left. eauto.
        -- intros k' Hk'. rewrite Hcur in Hk'. injection Hk' as <-. apply elem_of_app. right. left.
        -- intros k' n' Hin Hk'. rewrite Hcur in Hk'. injection Hk' as <-.
           exfalso. apply HkK. eauto.
        -- rewrite <- app_assoc. exact HK.
      * assert (Hs' : s' = s1).
        { destruct Hnext as [(ok' & -> & Hgo & _)|[(_ & _ & ->)|(_ & ->)]]; try reflexivity.
          cbn in Hgo. subst ok'. congruence. }
        subst s'. unfold events_since. rewrite Ht, drop_app_length.
        fold (used_pairs evs). rewrite Hnone. now rewrite app_nil_r.
Qed.

End Lifetime.

(** ** Slices in memory *)

Lemma wrap_int_id (x : Z) : min_int <= x <= max_int -> wrap_int x = x.
Proof.
unfold wrap_int, min_int, max_int. intros Hx.
rewrite Z.mod_small by lia. lia.
Qed.


Lemma read_length (m : Mem.heap) (s : Mem.slice) : Mem.wf m s -> len (Mem.read m s) = Mem.slen s.
Proof.
  unfold Mem.wf, Mem.read, len. intros (Hl & Ho & Hb).
  destruct (Mem.base s) as [l|].
  - destruct Hb as (a & -> & Ha). unfold len in Ha.
    rewrite length_take, length_drop. lia.
  - simpl. lia.
Qed.

Lemma fresh_not_in (m : Mem.heap) : m !! fresh (dom m) = None.
Proof. apply not_elem_of_dom, is_fresh. Qed.

(** Allocation leaves every Mem.slice of the old Mem.heap as it was. *)
Lemma read_insert_fresh (m : Mem.heap) (s : Mem.slice) (a : bytes) :
  Mem.wf m s -> Mem.read (<[fresh (dom m) := a]> m) s = Mem.read m s.
Proof.
  unfold Mem.wf, Mem.read. intros (_ & _ & Hb). destruct (Mem.base s) as [l|]; [|reflexivity].
  destruct Hb as (b & Hb & _).
  rewrite lookup_insert_ne; [reflexivity|].
  intros <-. rewrite fresh_not_in in Hb. discriminate.
Qed.

Lemma make_slice_ok (avail n : Z) (m : Mem.heap) :
  0 <= n <= Mem.maxAlloc -> n <= avail ->
  Mem.make_slice avail n m =
    (Done {| Mem.base := Some (fresh (dom m)); Mem.off := 0; Mem.slen := n; Mem.scap := n |},
     <[fresh (dom m) := replicate (Z.to_nat n) 0]> m).
Proof.
  intros Hn Ha. unfold Mem.make_slice.
  rewrite (proj2 (Z.ltb_ge n 0)), (proj2 (Z.ltb_ge Mem.maxAlloc n)) by lia. cbn [orb].
  now rewrite (proj2 (Z.ltb_ge avail n)) by lia.
Qed.

(** [make] fails, and leaves the memory as it is, when the length is above
    the allocation limit or above what the memory holds. *)
Lemma make_slice_fails (avail n : Z) (m : Mem.heap) :
  0 <= n -> Mem.maxAlloc < n \/ avail < n ->
  exists p, Mem.make_slice avail n m = (Panicked p, m).
Proof.
  intros Hn Hbig. unfold Mem.make_slice.
  rewrite (proj2 (Z.ltb_ge n 0)) by lia. cbn [orb].
  destruct (Mem.maxAlloc <? n) eqn:E1; [eauto|].
  apply Z.ltb_ge in E1. rewrite (proj2 (Z.ltb_lt avail n)) by lia. eauto.
Qed.

(** What [copy] into a fresh array of [total] zeros leaves there. *)
Lemma copy_into_fresh (m : Mem.heap) (src : Mem.slice) (total : Z) :
  Mem.wf m src -> Mem.slen src <= total ->
  Mem.copy_slice {| Mem.base := Some (fresh (dom m)); Mem.off := 0; Mem.slen := total; Mem.scap := total |} src
    (<[fresh (dom m) := replicate (Z.to_nat total) 0]> m)
  = <[fresh (dom m) := Mem.read m src ++ replicate (Z.to_nat (total - Mem.slen src)) 0]> m.
Proof.
  intros Hwf Hle. pose proof (read_length m src Hwf) as Hlen. unfold len in Hlen.
  unfold Mem.copy_slice, Mem.write. cbn [Mem.base Mem.off Mem.slen].
  rewrite lookup_insert_eq, read_insert_fresh by assumption.
  rewrite insert_insert_eq. f_equal.
  change (Z.to_nat 0) with 0%nat. rewrite take_0. cbn [app].
  destruct Hwf as ((Hl & _) & _).
  rewrite take_ge by lia. f_equal.
  rewrite drop_replicate. f_equal. lia.
Qed.


Lemma slice_to_ok (s : Mem.slice) (j : Z) :
  0 <= j <= Mem.scap s ->
  Mem.slice_to s j = Done {| Mem.base := Mem.base s; Mem.off := Mem.off s; Mem.slen := j; Mem.scap := Mem.scap s |}.
Proof.
  intros Hj. unfold Mem.slice_to.
  rewrite (proj2 (Z.ltb_ge j 0)), (proj2 (Z.ltb_ge (Mem.scap s) j)) by lia. reflexivity.
Qed.

Lemma slice_from_ok (s : Mem.slice) (i : Z) :
  0 <= i <= Mem.slen s ->
  Mem.slice_from s i =
    Done {| Mem.base := Mem.base s; Mem.off := Mem.off s + i; Mem.slen := Mem.slen s - i; Mem.scap := Mem.scap s - i |}.
Proof.
  intros Hi. unfold Mem.slice_from.
  rewrite (proj2 (Z.ltb_ge i 0)), (proj2 (Z.ltb_ge (Mem.slen s) i)) by lia. reflexivity.
Qed.

(** Reading a prefix and the rest of a Mem.slice. *)
Lemma read_prefix (m : Mem.heap) (b : option loc) (o k j c c' : Z) :
  0 <= k <= j ->
  take (Z.to_nat k) (Mem.read m {| Mem.base := b; Mem.off := o; Mem.slen := j; Mem.scap := c |}) =
    Mem.read m {| Mem.base := b; Mem.off := o; Mem.slen := k; Mem.scap := c' |}.
Proof.
  intros Hk. unfold Mem.read. cbn [Mem.base Mem.off Mem.slen].
  destruct b as [l|]; [|apply take_nil]. destruct (m !! l) as [a|]; [|apply take_nil].
  rewrite take_take. f_equal. lia.
Qed.

Lemma read_suffix (m : Mem.heap) (b : option loc) (o k j c c' : Z) :
  0 <= o -> 0 <= k <= j ->
  Mem.read m {| Mem.base := b; Mem.off := o + k; Mem.slen := j - k; Mem.scap := c' |} =
    drop (Z.to_nat k) (Mem.read m {| Mem.base := b; Mem.off := o; Mem.slen := j; Mem.scap := c |}).
Proof.
  intros Ho Hk. unfold Mem.read. cbn [Mem.base Mem.off Mem.slen].
  destruct b as [l|]; [|now rewrite drop_nil]. destruct (m !! l) as [a|]; [|now rewrite drop_nil].
  replace (Z.to_nat j) with (Z.to_nat k + Z.to_nat (j - k))%nat by lia.
  rewrite <- take_drop_commute, drop_drop. f_equal. f_equal. lia.
Qed.

(** The loop of [maskedNonce] over a fresh array holding [b] does to that
    array what the loop on byte values does to [b], and touches nothing
    else. *)
Lemma mem_maskedNonce_loop_refines (m : Mem.heap) (l : loc) (n : Z) (sequence : Z) :
  forall (todo : nat) (i : Z) (b : bytes),
    len b = n ->
    exists b',
      Mem.maskedNonce_loop todo i {| Mem.base := Some l; Mem.off := 0; Mem.slen := n; Mem.scap := n |}
        sequence (<[l := b]> m)
      = (match maskedNonce_loop todo i b sequence with
         | Done _ => Done tt
         | Panicked p => Panicked p
         end, <[l := b']> m) /\
      len b' = n /\
      (forall x, maskedNonce_loop todo i b sequence = Done x -> x = b').
Proof.
  induction todo as [|todo IH]; intros i b Hb.
  - exists b. cbn. split; [reflexivity|]. split; [assumption|]. intros x E. congruence.
  - cbn [Mem.maskedNonce_loop maskedNonce_loop].
    set (j := nonceSize - uint64Size + i).
    set (v := to_byte (Z.shiftr sequence (56 - uint64Size * i))).
    unfold Mem.xor_assign, xor_assign. cbn [Mem.base Mem.off Mem.slen].
    rewrite lookup_insert_eq. rewrite Hb.
    destruct (j <? 0) eqn:Hj0; cbn [orb].
    { exists b. split; [reflexivity|]. split; [assumption|]. discriminate. }
    apply Z.ltb_ge in Hj0.
    destruct (n <=? j) eqn:Hjn.
    { apply Z.leb_le in Hjn. rewrite (lookup_ge_None_2 b (Z.to_nat j)) by (unfold len in Hb; lia).
      exists b. split; [reflexivity|]. split; [assumption|]. discriminate. }
    apply Z.leb_gt in Hjn. change (0 + j) with j.
    destruct (lookup_lt_is_Some_2 b (Z.to_nat j)) as [x Hx]; [unfold len in Hb; lia|].
    rewrite Hx. rewrite insert_insert_eq.
    destruct (IH (i + 1) (<[Z.to_nat j := Z.lxor x v]> b)) as (b' & E & Hb' & Hd).
    { unfold len. rewrite length_insert. exact Hb. }
    exists b'. rewrite E. split; [reflexivity|]. split; assumption.
Qed.

Lemma mem_maskedNonce_spec (avail : Z) (m m' : Mem.heap) (static : Mem.slice) (sequence : Z)
    (r : outcome Mem.slice) :
  Mem.wf m static ->
  Mem.maskedNonce avail static sequence m = (r, m') ->
  (forall l, l ∈ dom m -> m' !! l = m !! l) /\
  Mem.read m' static = Mem.read m static /\
  match r with
  | Done n =>
      Mem.base n = Some (fresh (dom m)) /\ (fresh (dom m) ∉ dom m) /\
      Done (Mem.read m' n) = maskedNonce_bytes (Mem.read m static) sequence
  | Panicked p =>
      (m' = m /\ (Mem.maxAlloc < Mem.slen static \/ avail < Mem.slen static)) \/
      maskedNonce_bytes (Mem.read m static) sequence = Panicked p
  end.
Proof.
  intros Hwf. pose proof Hwf as ((Hl1 & Hl2) & Ho & Hb).
  pose proof (read_length m static Hwf) as Hlen.
  destruct (Z_le_gt_dec (Mem.slen static) Mem.maxAlloc) as [Hlim|Hlim];
    [destruct (Z_le_gt_dec (Mem.slen static) avail) as [Hav|Hav]|].
  2,3: (unfold Mem.maskedNonce;
        destruct (make_slice_fails avail (Mem.slen static) m Hl1 ltac:(lia)) as [p ->];
        intros E; injection E as <- <-;
        split; [reflexivity|]; split; [reflexivity|]; left; split; [reflexivity|lia]).
  unfold Mem.maskedNonce. rewrite make_slice_ok by lia.
  rewrite copy_into_fresh by (assumption || lia).
  rewrite Z.sub_diag. change (Z.to_nat 0) with 0%nat. cbn [replicate]. rewrite app_nil_r.
  destruct (mem_maskedNonce_loop_refines m (fresh (dom m)) (Mem.slen static) sequence
              (Z.to_nat uint64Size) 0 (Mem.read m static) Hlen) as (b' & E & Hb' & Hd).
  rewrite E. unfold maskedNonce_bytes. rewrite copy_make.
  assert (Hother : forall l, l ∈ dom m -> <[fresh (dom m) := b']> m !! l = m !! l).
  { intros l Hin. apply lookup_insert_ne. intros <-. exact (is_fresh _ Hin). }
  assert (Hstatic : Mem.read (<[fresh (dom m) := b']> m) static = Mem.read m static)
    by (apply read_insert_fresh; assumption).
  destruct (maskedNonce_loop (Z.to_nat uint64Size) 0 (Mem.read m static) sequence) as [x|p] eqn:El;
    intros E'; injection E' as <- <-.
  - split; [exact Hother|]. split; [exact Hstatic|]. cbn [Mem.base].
    split; [reflexivity|]. split; [apply is_fresh|].
    rewrite (Hd x eq_refl). unfold Mem.read. cbn [Mem.base Mem.off Mem.slen]. rewrite lookup_insert_eq.
    change (Z.to_nat 0) with 0%nat. rewrite drop_0, take_ge; [reflexivity|].
    unfold len in Hb'. lia.
  - split; [exact Hother|]. split; [exact Hstatic|]. right. reflexivity.
Qed.

(** *** What the memory-level calls leave alone *)

Lemma read_agree (m m' : Mem.heap) (f : Mem.slice) :
  (forall l, Mem.base f = Some l -> m' !! l = m !! l) -> Mem.read m' f = Mem.read m f.
Proof.
  intros Hsame. unfold Mem.read. destruct (Mem.base f) as [l|]; [|reflexivity].
  now rewrite (Hsame l eq_refl).
Qed.

Lemma wf_in_dom (m : Mem.heap) (f : Mem.slice) (l : loc) :
  Mem.wf m f -> Mem.base f = Some l -> l ∈ dom m.
Proof.
  intros (_ & _ & Hb) Hl. rewrite Hl in Hb. destruct Hb as (a & Ha & _).
  apply elem_of_dom. eauto.
Qed.

Lemma write_frame (m : Mem.heap) (t : Mem.slice) (data : bytes) (l : loc) :
  Some l <> Mem.base t -> Mem.write m t data !! l = m !! l.
Proof.
  intros Hne. unfold Mem.write. destruct (Mem.base t) as [l'|]; [|reflexivity].
  destruct (m !! l'); [|reflexivity]. apply lookup_insert_ne. congruence.
Qed.

Lemma write_dom (m : Mem.heap) (t : Mem.slice) (data : bytes) (l : loc) :
  l ∈ dom m -> l ∈ dom (Mem.write m t data).
Proof.
  intros Hin. unfold Mem.write. destruct (Mem.base t) as [l'|]; [|assumption].
  destruct (m !! l'); [|assumption]. apply elem_of_dom. apply elem_of_dom in Hin.
  destruct (decide (l' = l)) as [->|Hne].
  - rewrite lookup_insert_eq. eauto.
  - now rewrite lookup_insert_ne.
Qed.

(** [SliceForAppend], whatever it returns, leaves every array that existed
    as it was; its two results lie in the array of [in] or in a new one. *)
Lemma SliceForAppend_frame (avail : Z) (in_ : Mem.slice) (n : Z) (m m1 : Mem.heap)
    (r : outcome (Mem.slice * Mem.slice)) :
  Mem.SliceForAppend avail in_ n m = (r, m1) ->
  (forall l, l ∈ dom m -> m1 !! l = m !! l) /\
  match r with
  | Done (head, tail) =>
      Mem.base tail = Mem.base head /\
      (Mem.base head = Mem.base in_ \/ Mem.base head = Some (fresh (dom m)))
  | Panicked _ => True
  end.
Proof.
  unfold Mem.SliceForAppend.
  destruct (wrap_int (Mem.slen in_ + n) <=? Mem.scap in_).
  - unfold Mem.slice_to.
    destruct ((wrap_int (Mem.slen in_ + n) <? 0) || (Mem.scap in_ <? wrap_int (Mem.slen in_ + n))).
    { intros E. injection E as <- <-. split; [reflexivity|exact I]. }
    unfold Mem.slice_from. cbn [Mem.slen Mem.base Mem.off Mem.scap].
    destruct ((Mem.slen in_ <? 0) || (wrap_int (Mem.slen in_ + n) <? Mem.slen in_));
      intros E; injection E as <- <-; (split; [reflexivity|]); [exact I|].
    cbn [Mem.base]. split; [reflexivity|left; reflexivity].
  - unfold Mem.make_slice.
    destruct ((wrap_int (Mem.slen in_ + n) <? 0) || (Mem.maxAlloc <? wrap_int (Mem.slen in_ + n))).
    { intros E. injection E as <- <-. split; [reflexivity|exact I]. }
    destruct (avail <? wrap_int (Mem.slen in_ + n)).
    { intros E. injection E as <- <-. split; [reflexivity|exact I]. }
    unfold Mem.copy_slice, Mem.write. cbn [Mem.base Mem.off Mem.slen]. rewrite lookup_insert_eq.
    rewrite insert_insert_eq.
    unfold Mem.slice_from. cbn [Mem.slen Mem.base Mem.off Mem.scap].
    assert (Hother : forall (a : bytes) l, l ∈ dom m -> <[fresh (dom m) := a]> m !! l = m !! l).
    { intros a l Hin. apply lookup_insert_ne. intros <-. exact (is_fresh _ Hin). }
    destruct ((Mem.slen in_ <? 0) || (wrap_int (Mem.slen in_ + n) <? Mem.slen in_));
      intros E; injection E as <- <-; (split; [apply Hother|]); [exact I|].
    cbn [Mem.base]. split; [reflexivity|right; reflexivity].
Qed.

Lemma append_into_frame (avail : Z) (dst : Mem.slice) (data : bytes) (m m1 : Mem.heap)
    (r : outcome Mem.slice) (l : loc) :
  Mem.append_into avail dst data m = (r, m1) ->
  l ∈ dom m -> Some l <> Mem.base dst -> m1 !! l = m !! l.
Proof.
  unfold Mem.append_into. intros E Hin Hne.
  destruct (Mem.SliceForAppend avail dst (len data) m) as [[[head tail]|p] m2] eqn:Es;
    apply SliceForAppend_frame in Es as [Hframe Hbase]; injection E as _ <-.
  - destruct Hbase as [Ht Hh]. rewrite write_frame; [apply Hframe, Hin|].
    rewrite Ht. destruct Hh as [->| ->]; [assumption|].
    intros Heq. injection Heq as ->. exact (is_fresh _ Hin).
  - apply Hframe, Hin.
Qed.

Lemma mem_maskedNonce_loop_frame (nonce : Mem.slice) (sequence : Z) (l : loc) :
  forall (todo : nat) (i : Z) (m m' : Mem.heap) (r : outcome unit),
    Mem.maskedNonce_loop todo i nonce sequence m = (r, m') ->
    Some l <> Mem.base nonce -> m' !! l = m !! l /\ (l ∈ dom m -> l ∈ dom m').
Proof.
  induction todo as [|todo IH]; intros i m m' r E Hne.
  - cbn in E. injection E as _ <-. auto.
  - cbn [Mem.maskedNonce_loop] in E. unfold Mem.xor_assign in E.
    destruct ((nonceSize - uint64Size + i <? 0) || (Mem.slen nonce <=? nonceSize - uint64Size + i));
      [injection E as _ <-; auto|].
    destruct (Mem.base nonce) as [l'|] eqn:Hb; [|injection E as _ <-; auto].
    destruct (m !! l') as [a|] eqn:Ha; [|injection E as _ <-; auto].
    destruct (a !! Z.to_nat (Mem.off nonce + (nonceSize - uint64Size + i))) as [x|];
      [|injection E as _ <-; auto].
    apply IH in E as [E1 E2]; [|assumption].
    rewrite lookup_insert_ne in E1 by congruence. split; [exact E1|].
    intros Hin. apply E2. apply elem_of_dom. rewrite lookup_insert_ne by congruence.
    now apply elem_of_dom.
Qed.

(** [maskedNonce], whatever it returns and however little memory there is,
    leaves every array that existed as it was. *)
Lemma mem_maskedNonce_frame (avail : Z) (static : Mem.slice) (sequence : Z) (m m' : Mem.heap)
    (r : outcome Mem.slice) (l : loc) :
  Mem.maskedNonce avail static sequence m = (r, m') ->
  l ∈ dom m -> m' !! l = m !! l /\ l ∈ dom m'.
Proof.
  unfold Mem.maskedNonce, Mem.make_slice. intros E Hin.
  destruct ((Mem.slen static <? 0) || (Mem.maxAlloc <? Mem.slen static));
    [injection E as _ <-; auto|].
  destruct (avail <? Mem.slen static); [injection E as _ <-; auto|].
  assert (Hne : Some l <> Some (fresh (dom m))).
  { intros Heq. injection Heq as ->. exact (is_fresh _ Hin). }
  set (nonce := {| Mem.base := Some (fresh (dom m)); Mem.off := 0; Mem.slen := Mem.slen static;
                   Mem.scap := Mem.slen static |}) in *.
  set (m2 := Mem.copy_slice nonce static (<[fresh (dom m) := replicate (Z.to_nat (Mem.slen static)) 0]> m)) in *.
  assert (H2 : m2 !! l = m !! l /\ l ∈ dom m2).
  { unfold m2, Mem.copy_slice. split.
    - rewrite write_frame by exact Hne. apply lookup_insert_ne. congruence.
    - apply write_dom. apply elem_of_dom. rewrite lookup_insert_ne by congruence.
      now apply elem_of_dom. }
  destruct (Mem.maskedNonce_loop (Z.to_nat uint64Size) 0 nonce sequence m2) as [[u|p] m3] eqn:El;
    apply (mem_maskedNonce_loop_frame nonce sequence l) in El as [E1 E2]; try exact Hne;
    injection E as _ <-; (split; [rewrite E1; exact (proj1 H2)|exact (E2 (proj2 H2))]).
Qed.

Lemma mem_getAndIncrementSequence_fields (hc hc1 : Mem.halfconn) (r : Z * option error) :
  Mem.getAndIncrementSequence hc = (r, hc1) ->
  Mem.trafficSecret hc1 = Mem.trafficSecret hc /\
  Mem.key hc1 = Mem.key hc /\ Mem.nonce hc1 = Mem.nonce hc /\
  Mem.aeadCrypter hc1 = Mem.aeadCrypter hc /\
  (Mem.seqCounter hc1 = Mem.seqCounter hc \/
   Mem.seqCounter hc1 = increment (Mem.seqCounter hc)).
Proof.
  unfold Mem.getAndIncrementSequence.
  destruct (value (Mem.seqCounter hc)) as [v [e|]]; intros E; injection E as _ <-;
    cbn [Mem.trafficSecret Mem.key Mem.nonce Mem.aeadCrypter Mem.seqCounter]; auto 10.
Qed.

Lemma mem_Encrypt_fields `{Ciphers} (avail : Z) (crypters : gmap loc aead)
    (dst text aad : Mem.slice) (hc hc' : Mem.halfconn) (m m' : Mem.heap)
    (r : outcome (Mem.slice * option error)) :
  Mem.Encrypt avail crypters dst text aad hc m = (r, (hc', m')) ->
  Mem.trafficSecret hc' = Mem.trafficSecret hc /\
  Mem.key hc' = Mem.key hc /\ Mem.nonce hc' = Mem.nonce hc /\
  Mem.aeadCrypter hc' = Mem.aeadCrypter hc /\
  (Mem.seqCounter hc' = Mem.seqCounter hc \/
   Mem.seqCounter hc' = increment (Mem.seqCounter hc)).
Proof.
  unfold Mem.Encrypt.
  destruct (Mem.getAndIncrementSequence hc) as [[v e] hc1] eqn:Eg.
  apply mem_getAndIncrementSequence_fields in Eg.
  destruct e as [e|]; [intros E; injection E as _ <- _; exact Eg|].
  destruct (Mem.maskedNonce avail (Mem.nonce hc1) v m) as [[n|p] m1];
    [|intros E; injection E as _ <- _; exact Eg].
  destruct (Mem.crypter_encrypt avail crypters (Mem.aeadCrypter hc1) dst text n aad m1) as [r2 m2].
  intros E; injection E as _ <- _; exact Eg.
Qed.

Lemma mem_Decrypt_fields `{Ciphers} (avail : Z) (crypters : gmap loc aead)
    (dst text aad : Mem.slice) (hc hc' : Mem.halfconn) (m m' : Mem.heap)
    (r : outcome (Mem.slice * option error)) :
  Mem.Decrypt avail crypters dst text aad hc m = (r, (hc', m')) ->
  Mem.trafficSecret hc' = Mem.trafficSecret hc /\
  Mem.key hc' = Mem.key hc /\ Mem.nonce hc' = Mem.nonce hc /\
  Mem.aeadCrypter hc' = Mem.aeadCrypter hc /\
  (Mem.seqCounter hc' = Mem.seqCounter hc \/
   Mem.seqCounter hc' = increment (Mem.seqCounter hc)).
Proof.
  unfold Mem.Decrypt.
  destruct (Mem.getAndIncrementSequence hc) as [[v e] hc1] eqn:Eg.
  apply mem_getAndIncrementSequence_fields in Eg.
  destruct e as [e|]; [intros E; injection E as _ <- _; exact Eg|].
  destruct (Mem.maskedNonce avail (Mem.nonce hc1) v m) as [[n|p] m1];
    [|intros E; injection E as _ <- _; exact Eg].
  destruct (Mem.crypter_decrypt avail crypters (Mem.aeadCrypter hc1) dst text n aad m1) as [r2 m2].
  intros E; injection E as _ <- _; exact Eg.
Qed.

Lemma mem_crypter_encrypt_frame `{Ciphers} (avail : Z) (crypters : gmap loc aead) (c : option loc)
    (dst text n aad : Mem.slice) (m m' : Mem.heap) (r : outcome (Mem.slice * option error))
    (l : loc) :
  Mem.crypter_encrypt avail crypters c dst text n aad m = (r, m') ->
  l ∈ dom m -> Some l <> Mem.base dst -> m' !! l = m !! l.
Proof.
  unfold Mem.crypter_encrypt. intros E Hin Hne.
  destruct c as [lc|]; [|injection E as _ <-; reflexivity].
  destruct (crypters !! lc) as [a|]; [|injection E as _ <-; reflexivity].
  destruct (seal _ _ _ _ _ _) as [sealed [e|]]; [injection E as _ <-; reflexivity|].
  destruct (Mem.append_into avail dst sealed m) as [[head|p] m1] eqn:Ea;
    injection E as _ <-; exact (append_into_frame _ _ _ _ _ _ l Ea Hin Hne).
Qed.

Lemma mem_crypter_decrypt_frame `{Ciphers} (avail : Z) (crypters : gmap loc aead) (c : option loc)
    (dst text n aad : Mem.slice) (m m' : Mem.heap) (r : outcome (Mem.slice * option error))
    (l : loc) :
  Mem.crypter_decrypt avail crypters c dst text n aad m = (r, m') ->
  l ∈ dom m -> Some l <> Mem.base dst -> m' !! l = m !! l.
Proof.
  unfold Mem.crypter_decrypt. intros E Hin Hne.
  destruct c as [lc|]; [|injection E as _ <-; reflexivity].
  destruct (crypters !! lc) as [a|]; [|injection E as _ <-; reflexivity].
  destruct (open _ _ _ _ _ _) as [opened [e|]]; [injection E as _ <-; reflexivity|].
  destruct (Mem.append_into avail dst opened m) as [[head|p] m1] eqn:Ea;
    injection E as _ <-; exact (append_into_frame _ _ _ _ _ _ l Ea Hin Hne).
Qed.

(** [Encrypt] and [Decrypt], whatever they return, leave every array that
    existed and is not the array of [dst] as it was. *)
Lemma mem_Encrypt_frame `{Ciphers} (avail : Z) (crypters : gmap loc aead)
    (dst text aad : Mem.slice) (hc hc' : Mem.halfconn) (m m' : Mem.heap)
    (r : outcome (Mem.slice * option error)) (l : loc) :
  Mem.Encrypt avail crypters dst text aad hc m = (r, (hc', m')) ->
  l ∈ dom m -> Some l <> Mem.base dst -> m' !! l = m !! l.
Proof.
  unfold Mem.Encrypt. intros E Hin Hne.
  destruct (Mem.getAndIncrementSequence hc) as [[v e] hc1].
  destruct e as [e|]; [injection E as _ _ <-; reflexivity|].
  destruct (Mem.maskedNonce avail (Mem.nonce hc1) v m) as [[n|p] m1] eqn:Em;
    apply (mem_maskedNonce_frame _ _ _ _ _ _ l) in Em as [E1 Hin1]; try exact Hin;
    [|injection E as _ _ <-; exact E1].
  destruct (Mem.crypter_encrypt avail crypters (Mem.aeadCrypter hc1) dst text n aad m1)
    as [r2 m2] eqn:Ec.
  injection E as _ _ <-. rewrite <- E1.
  exact (mem_crypter_encrypt_frame _ _ _ _ _ _ _ _ _ _ l Ec Hin1 Hne).
Qed.

Lemma mem_Decrypt_frame `{Ciphers} (avail : Z) (crypters : gmap loc aead)
    (dst text aad : Mem.slice) (hc hc' : Mem.halfconn) (m m' : Mem.heap)
    (r : outcome (Mem.slice * option error)) (l : loc) :
  Mem.Decrypt avail crypters dst text aad hc m = (r, (hc', m')) ->
  l ∈ dom m -> Some l <> Mem.base dst -> m' !! l = m !! l.
Proof.
  unfold Mem.Decrypt. intros E Hin Hne.
  destruct (Mem.getAndIncrementSequence hc) as [[v e] hc1].
  destruct e as [e|]; [injection E as _ _ <-; reflexivity|].
  destruct (Mem.maskedNonce avail (Mem.nonce hc1) v m) as [[n|p] m1] eqn:Em;
    apply (mem_maskedNonce_frame _ _ _ _ _ _ l) in Em as [E1 Hin1]; try exact Hin;
    [|injection E as _ _ <-; exact E1].
  destruct (Mem.crypter_decrypt avail crypters (Mem.aeadCrypter hc1) dst text n aad m1)
    as [r2 m2] eqn:Ec.
  injection E as _ _ <-. rewrite <- E1.
  exact (mem_crypter_decrypt_frame _ _ _ _ _ _ _ _ _ _ l Ec Hin1 Hne).
Qed.

(** ** Sizes of the derived material

    Under an expander that honours the length asked for, construction and
    key update leave a key, a static nonce and (after an update) a secret of
    the sizes of the ciphersuite; in particular the static nonce has the 12
    bytes [maskedNonce] indexes. *)

Lemma NewHalfConn_sizes `{Ciphers} (c : Ciphersuite) (secret : bytes) (w w' : world)
    (hc : S2AHalfConnection) :
  honours_length defaultHKDFExpander ->
  NewHalfConn c secret w = (Done (hc, None), w') ->
  len (nonce hc) = NonceSize /\ len (key hc) = keySize (newCiphersuite c) /\
  len (trafficSecret hc) = trafficSecretSize (newCiphersuite c).
Proof.
  intros Hexp E.
  apply NewHalfConn_success in E as (k & n & Hsize & Ek & En & Hk & E).
  injection E as -> ->. cbn [nonce key trafficSecret].
  split; [exact (Hexp _ _ _ _ _ En)|]. split; [exact Hk|]. now symmetry.
Qed.

Lemma UpdateKey_sizes `{Ciphers} (s s' : state) (suite : ciphersuite) (e : hkdfExpander) :
  cs (fst s) = Some suite -> expander (fst s) = Some e -> honours_length e ->
  UpdateKey s = (Done None, s') ->
  len (nonce (fst s')) = NonceSize /\ len (key (fst s')) = keySize suite /\
  len (trafficSecret (fst s')) = trafficSecretSize suite.
Proof.
  intros Hcs He Hexp E.
  apply UpdateKey_success in E
    as (suite' & e' & sec & k & n & l & a & Hcs' & He' & Es & Ek & En & _ & _ & _ & ->).
  rewrite Hcs in Hcs'. injection Hcs' as <-. rewrite He in He'. injection He' as <-.
  unfold rekeyed. cbn [fst nonce key trafficSecret].
  split; [exact (Hexp _ _ _ _ _ En)|]. split; [exact (Hexp _ _ _ _ _ Ek)|].
  exact (Hexp _ _ _ _ _ Es).
Qed.

(** * The claims *)

(** C1. For every sequence number and every half connection whose static
    nonce has the nonce size of the ciphersuites (12 bytes), the per-record
    nonce [maskedNonce] computes is the static nonce with its first 4 bytes
    unchanged and its last 8 bytes XORed with the sequence number rendered
    big-endian on 64 bits. ([be64] is that rendering: 8 bytes whose
    big-endian value is the sequence number.) *)
Theorem maskedNonce_masks_low_bytes (s : state) (sequence : Z) :
  len (nonce (fst s)) = NonceSize ->
  0 <= sequence < 2 ^ 64 ->
  maskedNonce sequence s =
    (Done (take 4 (nonce (fst s)) ++ xor_bytes (drop 4 (nonce (fst s))) (be64 sequence)), s) /\
  length (be64 sequence) = 8%nat /\ Forall is_byte (be64 sequence) /\
  be_value (be64 sequence) = sequence.
Proof.
  intros Hlen Hseq. unfold len, NonceSize in Hlen.
  split; [|split; [apply be_bytes_length|split; [apply be_bytes_is_byte|]]].
  - unfold maskedNonce, bind, get_hc, ret.
    rewrite maskedNonce_bytes_ge12 by lia.
    rewrite (drop_ge (nonce (fst s)) 12) by lia. rewrite app_nil_r.
    rewrite (take_ge (drop 4 (nonce (fst s))) 8); [reflexivity|].
    rewrite length_drop. lia.
  - apply (be_value_be_bytes 8). exact Hseq.
Qed.

Lemma maskedNonce_masks_low_bytes_witness :
  len (nonce (fst sampleState)) = NonceSize /\ 0 <= 258 < 2 ^ 64 /\
  maskedNonce 258 sampleState = (Done [0; 0; 0; 0; 0; 0; 0; 0; 0; 0; 1; 3], sampleState).
Proof.
  split; [reflexivity|]. split; [lia|].
  exact (proj1 (maskedNonce_masks_low_bytes sampleState 258 eq_refl ltac:(lia))).
Defined.

(** C2. For every call of [Encrypt] or [Decrypt]: when reading the
    sequence counter reports overflow the call returns that error at once
    and the whole state is as before, so the AEAD crypter was not invoked
    (the trace of calls is unchanged); in every other case the counter is
    advanced by exactly one, the AEAD is invoked from the state in which it
    is already advanced, and it stays advanced whatever the AEAD call
    returns. *)
Theorem Encrypt_Decrypt_consume_sequence `{Ciphers} (s : state) (dst text aad : bytes) :
  match value (seqCounter (fst s)) with
  | (_, Some e) =>
      Encrypt dst text aad s = (Done ([], Some e), s) /\
      Decrypt dst text aad s = (Done ([], Some e), s)
  | (sequence, None) =>
      next_sequence (seqCounter (fst (advanced s))) = next_sequence (seqCounter (fst s)) + 1 /\
      seqCounter (fst (advanced s)) = increment (seqCounter (fst s)) /\
      Encrypt dst text aad s =
        match maskedNonce_bytes (nonce (fst s)) sequence with
        | Done n => crypter_encrypt (aeadCrypter (fst s)) dst text n aad (advanced s)
        | Panicked p => (Panicked p, advanced s)
        end /\
      Decrypt dst text aad s =
        match maskedNonce_bytes (nonce (fst s)) sequence with
        | Done n => crypter_decrypt (aeadCrypter (fst s)) dst text n aad (advanced s)
        | Panicked p => (Panicked p, advanced s)
        end /\
      fst (snd (Encrypt dst text aad s)) = fst (advanced s) /\
      fst (snd (Decrypt dst text aad s)) = fst (advanced s)
  end.
Proof.
  rewrite Encrypt_cases, Decrypt_cases.
  destruct (value (seqCounter (fst s))) as [v [e|]] eqn:Hv; [split; reflexivity|].
  destruct (value_ok _ _ Hv) as (Hno & _ & _).
  split; [apply next_sequence_increment; assumption|]. split; [reflexivity|].
  destruct (maskedNonce_bytes (nonce (fst s)) v) as [n|p].
  - repeat split; try reflexivity.
    + rewrite crypter_encrypt_cases. destruct (aeadCrypter (fst s)) as [l|]; [|reflexivity].
      destruct (crypters (snd (advanced s)) !! l); reflexivity.
    + rewrite crypter_decrypt_cases. destruct (aeadCrypter (fst s)) as [l|]; [|reflexivity].
      destruct (crypters (snd (advanced s)) !! l); reflexivity.
  - repeat split; reflexivity.
Qed.

(** Three runs of the above on concrete states: an exhausted counter, a
    failing AEAD call, and the last sequence number. *)
Example Encrypt_on_exhausted_counter :
  @Encrypt fakeCiphers [] [1; 2] [] overflowedState =
    (Done ([], Some (Errorf "SequenceOverflowError" [])), overflowedState) /\
  @Decrypt fakeCiphers [] [1; 2] [] overflowedState =
    (Done ([], Some (Errorf "SequenceOverflowError" [])), overflowedState).
Proof. split; vm_compute; reflexivity. Qed.

Example Encrypt_advances_when_AEAD_fails :
  fst (@Encrypt fakeCiphers [] [1; 2] [] longNonceState) =
    Done ([], Some (Errorf "nonce size must be %v bytes, received: %v" [AInt 12; AInt 13])) /\
  seqCounter (fst longNonceState) = {| val := 0; hasOverflowed := false |} /\
  seqCounter (fst (snd (@Encrypt fakeCiphers [] [1; 2] [] longNonceState))) =
    {| val := 1; hasOverflowed := false |}.
Proof. vm_compute. repeat split. Qed.

Example Encrypt_last_sequence_number :
  fst (@Encrypt fakeCiphers [] [1; 2] [] lastSequenceState) = Done ([1; 2], None) /\
  used_nonces (events_since lastSequenceState (snd (@Encrypt fakeCiphers [] [1; 2] [] lastSequenceState)))
    = [[0; 0; 0; 0; 255; 255; 255; 255; 255; 255; 255; 254]] /\
  hasOverflowed (seqCounter (fst (snd (@Encrypt fakeCiphers [] [1; 2] [] lastSequenceState)))) = true.
Proof. vm_compute. repeat split. Qed.

(** C3, as the claim states it, fails: the masked nonces of consecutive
    calls need not increase. With a static nonce ending in 1, two calls of
    [Encrypt] hand the AEAD a nonce ending in 1 and then one ending in 0. *)
Lemma masked_nonces_not_increasing :
  fst (@run fakeCiphers twoEncrypts sampleState) = Done true /\
  used_nonces (events_since sampleState afterTwoEncrypts) =
    [[0; 0; 0; 0; 0; 0; 0; 0; 0; 0; 0; 1]; [0; 0; 0; 0; 0; 0; 0; 0; 0; 0; 0; 0]] /\
  increasingb (be_value <$> used_nonces (events_since sampleState afterTwoEncrypts)) = false.
Proof. vm_compute. repeat split. Qed.

(** The premise on the keys in the amended C3 below cannot be dropped:
    [UpdateKey] takes the new key from the expander without comparing it
    with earlier keys. Under an expander that repeats itself, the record
    after the update goes out under the pair used before it. *)
Example pair_repeats_under_constant_expander :
  fst (@run constantCiphers encryptUpdateEncrypt constantState) = Done true /\
  used_pairs (events_since constantState
                (snd (@run constantCiphers encryptUpdateEncrypt constantState))) =
    [(replicate 16 7, replicate 12 7); (replicate 16 7, replicate 12 7)].
Proof. vm_compute. repeat split. Qed.

(** Nor does it hold of calls that overlap. An [Encrypt] that has taken
    its nonce and released the lock calls the AEAD on whatever key the
    crypter holds by then: when an [UpdateKey] and another [Encrypt] run in
    between, under an expander whose nonces do not depend on the secret,
    the same pair reaches the AEAD twice although every call succeeds and
    the new key differs from the old. *)
Example pair_repeats_when_calls_overlap :
  exists taken s1 s2 s3 s4 out3 out4 k n,
    Encrypt_locked sameNonceState = (Done taken, s1) /\
    UpdateKey s1 = (Done None, s2) /\
    @Encrypt fakeCiphers [] [3] [] s2 = (Done (out3, None), s3) /\
    @Encrypt_unlocked fakeCiphers [] [1; 2] [] taken s3 = (Done (out4, None), s4) /\
    NoDup (option_list (current_key sameNonceState) ++
           installed_keys (events_since sameNonceState s4)) /\
    used_pairs (events_since sameNonceState s4) = [(k, n); (k, n)].
Proof.
  eexists _, _, _, _, _, _, _, _, _.
  split; [vm_compute; reflexivity|]. split; [vm_compute; reflexivity|].
  split; [vm_compute; reflexivity|]. split; [vm_compute; reflexivity|].
  split; [|vm_compute; reflexivity].
  apply (bool_decide_unpack _). vm_compute. exact I.
Qed.

(** Nor of calls that follow a failed [UpdateKey], which leaves the
    static nonce it derived in place of the old one while the crypter keeps
    its key and the counter goes on: under an expander that fails the
    derivation of the nonce and returns bytes beside the error, the
    [Encrypt] after the failed [UpdateKey] repeats the pair of the
    [Encrypt] before it. *)
Example pair_repeats_after_failed_UpdateKey :
  exists s' k n,
    @attempt fakeCiphers encryptAroundFailedUpdate nonceFailingState =
      (Done [true; false; true], s') /\
    NoDup (option_list (current_key nonceFailingState) ++
           installed_keys (events_since nonceFailingState s')) /\
    used_pairs (events_since nonceFailingState s') = [(k, n); (k, n)].
Proof.
  eexists _, _, _.
  split; [vm_compute; reflexivity|].
  split; [|vm_compute; reflexivity].
  apply (bool_decide_unpack _). vm_compute. exact I.
Qed.

(** C3, amended. Of calls made one after the other on a half connection,
    each returning before the next begins: consecutive [Encrypt] calls
    that succeed consume the sequence numbers from the counter's value on,
    one each and in increasing order (0, 1, ..., N-1 from a fresh counter),
    and the masked nonces they hand to the AEAD are pairwise distinct; a
    successful [UpdateKey] resets the counter to 0; and, whatever the calls
    return (an error of the AEAD, an exhausted counter, a panic) and up to
    the first [UpdateKey] that fails, no (key, nonce) pair is handed to the
    AEAD twice if the keys the key updates hand to the crypter differ from
    each other and from the key in use at the start. *)
Theorem sequence_numbers_not_reused `{Ciphers} (calls : list call) (s : state) :
  counter_ok (seqCounter (fst s)) ->
  (forall s', run calls s = (Done true, s') -> forallb is_encrypt calls = true ->
     Done <$> used_nonces (events_since s s') =
       maskedNonce_bytes (nonce (fst s)) <$>
         seqZ (next_sequence (seqCounter (fst s))) (Z.of_nat (length calls)) /\
     NoDup (used_nonces (events_since s s'))) /\
  (forall s0 s1, UpdateKey s0 = (Done None, s1) ->
                 value (seqCounter (fst s1)) = (0, None) /\ next_sequence (seqCounter (fst s1)) = 0) /\
  (forall r s', lifetime calls s = (r, s') ->
     NoDup (option_list (current_key s) ++ installed_keys (events_since s s')) ->
     NoDup (used_pairs (events_since s s'))).
Proof.
  intros Hok. split; [|split].
  - intros s' Hrun Hall. split.
    + apply (run_encrypts calls s s' Hall Hok Hrun).
    + apply (run_encrypts_distinct calls s s' Hall Hok Hrun).
  - intros s0 s1 E.
    apply UpdateKey_success in E as (suite & e & sec & k & n & l & a & _ & _ & _ & _ & _ & _ & _ & _ & ->).
    split; reflexivity.
  - intros r s' Hlife HK.
    apply (lifetime_no_reuse calls s s' r [] (option_list (current_key s)) Hlife Hok).
    + constructor.
    + intros k n Hin. inversion Hin.
    + intros k ->. left.
    + intros k n Hin. inversion Hin.
    + exact HK.
Qed.

Lemma sequence_numbers_not_reused_witness :
  counter_ok (seqCounter (fst sampleState)) /\
  (@run fakeCiphers twoEncrypts sampleState = (Done true, afterTwoEncrypts) /\
   forallb is_encrypt twoEncrypts = true /\
   NoDup (used_nonces (events_since sampleState afterTwoEncrypts))) /\
  (exists r s',
     @lifetime fakeCiphers lifetimeCalls overflowedState = (r, s') /\
     NoDup (option_list (current_key overflowedState) ++
            installed_keys (events_since overflowedState s')) /\
     NoDup (used_pairs (events_since overflowedState s'))).
Proof.
  assert (Hok : counter_ok (seqCounter (fst sampleState))) by (vm_compute; split; discriminate).
  assert (Hok' : counter_ok (seqCounter (fst overflowedState)))
    by (vm_compute; split; discriminate).
  assert (Hrun2 : @run fakeCiphers twoEncrypts sampleState = (Done true, afterTwoEncrypts))
    by (vm_compute; reflexivity).
  pose (res := @lifetime fakeCiphers lifetimeCalls overflowedState).
  assert (Hlife : @lifetime fakeCiphers lifetimeCalls overflowedState = (fst res, snd res))
    by (vm_compute; reflexivity).
  assert (HK : NoDup (option_list (current_key overflowedState) ++
                      installed_keys (events_since overflowedState (snd res)))).
  { apply (bool_decide_unpack _). vm_compute. exact I. }
  split; [exact Hok|]. split.
  - split; [exact Hrun2|]. split; [reflexivity|].
    exact (proj2 (proj1 (@sequence_numbers_not_reused fakeCiphers twoEncrypts
                           sampleState Hok) afterTwoEncrypts Hrun2 eq_refl)).
  - exists (fst res), (snd res). split; [exact Hlife|]. split; [exact HK|].
    exact (proj2 (proj2 (@sequence_numbers_not_reused fakeCiphers lifetimeCalls
                           overflowedState Hok')) (fst res) (snd res) Hlife HK).
Defined.

(** C4. A successful [UpdateKey] derives the new secret as
    [deriveSecret(currentSecret, "tls13 traffic upd", trafficSecretSize)],
    derives key and nonce from the new secret under the labels "tls13 key"
    and "tls13 iv" with the sizes of the ciphersuite, which is what
    construction from that secret computes, installs the key in the
    crypter the half connection points to, resets the counter to 0 and
    stores the new secret in place of the old. *)
Theorem UpdateKey_rekeys `{Ciphers} (s s' : state) :
  UpdateKey s = (Done None, s') ->
  exists suite newSecret k n l a,
    cs (fst s) = Some suite /\
    fst (deriveSecret (trafficSecret (fst s)) (bytes_of_string "tls13 traffic upd")
           (trafficSecretSize suite) s) = Done (newSecret, None) /\
    fst (deriveSecret newSecret (bytes_of_string "tls13 key") (keySize suite) s)
      = Done (k, None) /\
    fst (deriveSecret newSecret (bytes_of_string "tls13 iv") (cs_nonceSize suite) s)
      = Done (n, None) /\
    (forall c w,
       newCiphersuite c = suite -> expander (fst s) = Some defaultHKDFExpander ->
       h (fst s) = hashFunction suite ->
       len newSecret = trafficSecretSize suite -> len k = keySize suite ->
       exists hc w', NewHalfConn c newSecret w = (Done (hc, None), w') /\
                     key hc = k /\ nonce hc = n) /\
    aeadCrypter (fst s) = Some l /\ crypters (snd s) !! l = Some a /\
    trafficSecret (fst s') = newSecret /\ key (fst s') = k /\ nonce (fst s') = n /\
    current_key s' = Some k /\
    EvUpdateKey l k ∈ events_since s s' /\
    seqCounter (fst s') = newCounter /\ value (seqCounter (fst s')) = (0, None) /\
    s' = rekeyed s l a newSecret k n suite.
Proof.
  intros E.
  apply UpdateKey_success in E
    as (suite & e & sec & k & n & l & a & Hcs & He & Es & Ek & En & Hl & Ha & Hk & ->).
  exists suite, sec, k, n, l, a.
  split; [assumption|].
  split. { rewrite (deriveSecret_fixed _ tls13Update _ e) by (simpl; (lia || assumption)).
           cbn [fst]. fold (update_info suite). now rewrite Es. }
  split. { rewrite (deriveSecret_fixed _ tls13Key _ e) by (simpl; (lia || assumption)).
           cbn [fst]. fold (key_info suite). now rewrite Ek. }
  split. { rewrite (deriveSecret_fixed _ tls13Nonce _ e) by (simpl; (lia || assumption)).
           cbn [fst]. fold (nonce_info suite). now rewrite En. }
  split.
  { intros c w <- Hd Hh Hs Hks.
    rewrite He in Hd. injection Hd as ->. rewrite Hh in Ek, En.
    eexists _, _. split; [apply (NewHalfConn_succeeds c sec k n w); auto|].
    split; reflexivity. }
  split; [assumption|]. split; [assumption|].
  split; [reflexivity|]. split; [reflexivity|]. split; [reflexivity|].
  split. { unfold current_key, rekeyed. cbn [fst snd aeadCrypter crypters]. rewrite Hl. cbn.
           now rewrite lookup_insert_eq. }
  split. { unfold events_since, rekeyed. cbn [snd trace]. rewrite drop_app_length.
           do 3 right. left. }
  split; [reflexivity|]. split; reflexivity.
Qed.

Lemma UpdateKey_rekeys_witness :
  @UpdateKey sampleState = (Done None, afterUpdateKey) /\
  exists suite newSecret k n l a,
    cs (fst sampleState) = Some suite /\
    fst (deriveSecret (trafficSecret (fst sampleState)) (bytes_of_string "tls13 traffic upd")
           (trafficSecretSize suite) sampleState) = Done (newSecret, None) /\
    fst (deriveSecret newSecret (bytes_of_string "tls13 key") (keySize suite) sampleState)
      = Done (k, None) /\
    fst (deriveSecret newSecret (bytes_of_string "tls13 iv") (cs_nonceSize suite) sampleState)
      = Done (n, None) /\
    (forall c w,
       newCiphersuite c = suite ->
       expander (fst sampleState) = Some (@defaultHKDFExpander fakeCiphers) ->
       h (fst sampleState) = hashFunction suite ->
       len newSecret = trafficSecretSize suite -> len k = keySize suite ->
       exists hc w', @NewHalfConn fakeCiphers c newSecret w = (Done (hc, None), w') /\
                     key hc = k /\ nonce hc = n) /\
    aeadCrypter (fst sampleState) = Some l /\ crypters (snd sampleState) !! l = Some a /\
    trafficSecret (fst afterUpdateKey) = newSecret /\ key (fst afterUpdateKey) = k /\
    nonce (fst afterUpdateKey) = n /\
    current_key afterUpdateKey = Some k /\
    EvUpdateKey l k ∈ events_since sampleState afterUpdateKey /\
    seqCounter (fst afterUpdateKey) = newCounter /\
    value (seqCounter (fst afterUpdateKey)) = (0, None) /\
    afterUpdateKey = rekeyed sampleState l a newSecret k n suite.
Proof.
  split; [reflexivity|].
  exact (@UpdateKey_rekeys fakeCiphers sampleState afterUpdateKey eq_refl).
Defined.

(** C5, as the claim states it, fails for a label that does not fit its
    one-byte length prefix: with a label of 256 bytes [deriveSecret] returns
    an error and hands nothing to the expander. And a length of 65536 goes
    into the info structure as the two bytes 0, 0. *)
Lemma deriveSecret_long_label_fails :
  len longLabel = 256 /\
  deriveSecret (trafficSecret (fst sampleState)) longLabel 16 sampleState =
    (Done ([], Some (Errorf "deriveSecret failed with error: %v"
                       [AErr (Errorf "cryptobyte: pending child length %d exceeds %d-byte length prefix"
                                [AInt 256; AInt 1])])),
     sampleState) /\
  events_since sampleState
    (snd (deriveSecret (trafficSecret (fst sampleState)) longLabel 16 sampleState)) = [] /\
  events_since sampleState
    (snd (deriveSecret [1; 2; 3] (bytes_of_string "tls13 key") 65536 sampleState)) =
    [EvExpand (Some SHA256) [1; 2; 3] [0; 0; 9; 116; 108; 115; 49; 51; 32; 107; 101; 121; 0] 65536].
Proof. vm_compute. repeat split. Qed.

(** C5, amended. For every secret, every label of at most 255 bytes and
    every length, [deriveSecret] hands the expander the secret, the length
    and the info structure made of the length modulo 2^16 on two bytes,
    big-endian (the length itself when it is below 65536), the label behind
    its length on one byte, and the empty context behind its length 0; with
    a longer label [deriveSecret] fails before the expander is called.
    Construction derives the key under the label "tls13 key" with the key
    size and the nonce under "tls13 iv" with the nonce size, from the
    initial secret, with exactly those ASCII bytes. *)
Theorem deriveSecret_info `{Ciphers} (s : state) (secret label : bytes) (size : Z)
    (e : hkdfExpander) :
  len label <= 255 ->
  expander (fst s) = Some e ->
  deriveSecret secret label size s =
    (Done (expand e (h (fst s)) secret (hkdf_info label size) size),
     (fst s, log [EvExpand (h (fst s)) secret (hkdf_info label size) size] (snd s))) /\
  hkdf_info label size = be_bytes 2 (size mod 65536) ++ [len label] ++ label ++ [0] /\
  (0 <= size < 65536 -> be_value (be_bytes 2 size) = size /\ size mod 65536 = size) /\
  (forall long, 255 < len long ->
     exists err, deriveSecret secret long size s = (Done ([], Some err), s)) /\
  (forall c sec w hc w',
     NewHalfConn c sec w = (Done (hc, None), w') ->
     key hc = fst (expand defaultHKDFExpander (hashFunction (newCiphersuite c)) sec
                     (hkdf_info (bytes_of_string "tls13 key") (keySize (newCiphersuite c)))
                     (keySize (newCiphersuite c))) /\
     nonce hc = fst (expand defaultHKDFExpander (hashFunction (newCiphersuite c)) sec
                       (hkdf_info (bytes_of_string "tls13 iv") (cs_nonceSize (newCiphersuite c)))
                       (cs_nonceSize (newCiphersuite c))) /\
     trace w' = trace w ++
       [EvExpand (hashFunction (newCiphersuite c)) sec
          (hkdf_info (bytes_of_string "tls13 key") (keySize (newCiphersuite c)))
          (keySize (newCiphersuite c));
        EvExpand (hashFunction (newCiphersuite c)) sec
          (hkdf_info (bytes_of_string "tls13 iv") (cs_nonceSize (newCiphersuite c)))
          (cs_nonceSize (newCiphersuite c));
        EvNewCrypter (newCiphersuite c) (key hc)]) /\
  bytes_of_string "tls13 key" = [116; 108; 115; 49; 51; 32; 107; 101; 121] /\
  bytes_of_string "tls13 iv" = [116; 108; 115; 49; 51; 32; 105; 118].
Proof.
  intros Hlabel He.
  split. { rewrite deriveSecret_cases, He. now rewrite (proj2 (Z.ltb_ge 255 (len label))) by lia. }
  split. { unfold hkdf_info. f_equal. rewrite <- !be_bytes_2_uint16. unfold to_uint16.
           now rewrite Z.mod_mod by lia. }
  split. { intros Hs. split; [apply (be_value_be_bytes 2); exact Hs|apply Z.mod_small; exact Hs]. }
  split. { intros long Hlong. rewrite deriveSecret_cases.
           rewrite (proj2 (Z.ltb_lt 255 (len long))) by lia. eexists. reflexivity. }
  split; [|split; reflexivity].
  intros c sec w hc w' E.
  apply NewHalfConn_success in E as (k & n & _ & Ek & En & _ & E).
  injection E as -> ->.
  change (hkdf_info (bytes_of_string "tls13 key") (keySize (newCiphersuite c)))
    with (key_info (newCiphersuite c)).
  change (hkdf_info (bytes_of_string "tls13 iv") (cs_nonceSize (newCiphersuite c)))
    with (nonce_info (newCiphersuite c)).
  rewrite Ek, En. repeat split; reflexivity.
Qed.

Lemma deriveSecret_info_witness :
  len (bytes_of_string "tls13 key") <= 255 /\
  expander (fst sampleState) = Some {| expand := fake_expand |} /\
  deriveSecret [1; 2; 3] (bytes_of_string "tls13 key") 16 sampleState =
    (Done (fake_expand (Some SHA256) [1; 2; 3]
             [0; 16; 9; 116; 108; 115; 49; 51; 32; 107; 101; 121; 0] 16),
     (fst sampleState,
      log [EvExpand (Some SHA256) [1; 2; 3]
             [0; 16; 9; 116; 108; 115; 49; 51; 32; 107; 101; 121; 0] 16] (snd sampleState))).
Proof.
  assert (Hl : len (bytes_of_string "tls13 key") <= 255) by (vm_compute; discriminate).
  split; [exact Hl|]. split; [reflexivity|].
  exact (proj1 (@deriveSecret_info fakeCiphers sampleState [1; 2; 3]
                  (bytes_of_string "tls13 key") 16 _ Hl eq_refl)).
Defined.

(** C6. For every ciphersuite and every initial secret whose length is not
    the traffic secret size of the suite, [NewHalfConn] fails with the
    configuration error "supplied traffic secret must be ... bytes" and
    leaves the world as it was: nothing was derived, no crypter built. And
    when the derivation of the key or of the nonce fails, [NewHalfConn]
    fails, no crypter object exists that did not before and the only calls
    made are calls of the expander. *)
Theorem NewHalfConn_rejects `{Ciphers} (c : Ciphersuite) (secret : bytes) (w : world) :
  (trafficSecretSize (newCiphersuite c) <> len secret ->
   NewHalfConn c secret w =
     (Done (zeroHalfConn,
            Some (Errorf "supplied traffic secret must be %v bytes, given: %v"
                    [AInt (trafficSecretSize (newCiphersuite c)); ABytes secret])), w)) /\
  (let suite := newCiphersuite c in
   let rk := expand defaultHKDFExpander (hashFunction suite) secret (key_info suite) (keySize suite) in
   let rn := expand defaultHKDFExpander (hashFunction suite) secret (nonce_info suite)
               (cs_nonceSize suite) in
   snd rk <> None \/ snd rn <> None ->
   exists err w',
     NewHalfConn c secret w = (Done (zeroHalfConn, Some err), w') /\
     crypters w' = crypters w /\
     exists evs, trace w' = trace w ++ evs /\
                 Forall (fun ev => exists hf sec info n, ev = EvExpand hf sec info n) evs).
Proof.
  split.
  - intros Hne. rewrite NewHalfConn_cases. cbv zeta.
    now rewrite (proj2 (Z.eqb_neq _ _) Hne).
  - cbv zeta. intros Hfail. rewrite NewHalfConn_cases. cbv zeta.
    destruct (negb _).
    { eexists _, w. split; [reflexivity|]. split; [reflexivity|].
      exists []. split; [now rewrite app_nil_r|constructor]. }
    destruct (expand defaultHKDFExpander (hashFunction (newCiphersuite c)) secret
                (key_info (newCiphersuite c)) (keySize (newCiphersuite c))) as [k [err|]];
      cbn [fst snd] in *.
    { eexists _, _. split; [reflexivity|]. split; [reflexivity|].
      eexists. split; [reflexivity|]. repeat constructor. eauto. }
    destruct (expand defaultHKDFExpander (hashFunction (newCiphersuite c)) secret
                (nonce_info (newCiphersuite c)) (cs_nonceSize (newCiphersuite c))) as [n [err|]];
      cbn [fst snd] in *.
    { eexists _, _. split; [reflexivity|]. split; [reflexivity|].
      eexists. split; [reflexivity|]. repeat constructor; eauto. }
    destruct Hfail as [Hf|Hf]; congruence.
Qed.

Lemma NewHalfConn_rejects_witness :
  (trafficSecretSize (newCiphersuite Ciphersuite_AES_128_GCM_SHA256) <> len (replicate 31 5) /\
   @NewHalfConn fakeCiphers Ciphersuite_AES_128_GCM_SHA256 (replicate 31 5) emptyWorld =
     (Done (zeroHalfConn,
            Some (Errorf "supplied traffic secret must be %v bytes, given: %v"
                    [AInt 32; ABytes (replicate 31 5)])), emptyWorld)) /\
  (exists err w',
     @NewHalfConn failingCiphers Ciphersuite_AES_128_GCM_SHA256 (replicate 32 5) emptyWorld =
       (Done (zeroHalfConn, Some err), w') /\
     crypters w' = crypters emptyWorld /\
     exists evs, trace w' = trace emptyWorld ++ evs /\
                 Forall (fun ev => exists hf sec info n, ev = EvExpand hf sec info n) evs).
Proof.
  assert (Hne : trafficSecretSize (newCiphersuite Ciphersuite_AES_128_GCM_SHA256)
                <> len (replicate 31 5)) by (vm_compute; discriminate).
  split.
  - split; [exact Hne|].
    exact (proj1 (@NewHalfConn_rejects fakeCiphers Ciphersuite_AES_128_GCM_SHA256
                    (replicate 31 5) emptyWorld) Hne).
  - apply (proj2 (@NewHalfConn_rejects failingCiphers Ciphersuite_AES_128_GCM_SHA256
                    (replicate 32 5) emptyWorld)).
    left. discriminate.
Defined.

(** C7, as the claim states it, fails for some [n >= 0]: a request above
    the allocation limit makes [make] panic (here 2^62 bytes on top of the
    nil slice), and a request whose sum with [len(in)] is not an [int] wraps
    around to a negative total, on which the slicing [in[:total]] panics.
    Neither depends on how much memory there is. *)
Lemma SliceForAppend_fails_for_large_n :
  Mem.wf ∅ Mem.nil /\ 0 <= 2 ^ 62 /\
  (forall avail,
     Mem.SliceForAppend avail Mem.nil (2 ^ 62) ∅ = (Panicked (MakeLenOutOfRange (2 ^ 62)), ∅)) /\
  Mem.wf sampleHeap shortSlice /\ 0 <= max_int /\
  (forall avail,
     Mem.SliceForAppend avail shortSlice max_int sampleHeap =
       (Panicked (SliceBoundsOutOfRange (min_int + 1) 4), sampleHeap)).
Proof.
  split; [unfold Mem.wf; cbn; lia|]. split; [lia|]. split; [intros avail; reflexivity|].
  split.
  { unfold Mem.wf. cbn. split; [lia|]. split; [lia|].
    eexists. split; [reflexivity|]. vm_compute. discriminate. }
  split; [vm_compute; discriminate|]. intros avail. reflexivity.
Qed.

(** C7, amended. For every buffer [in] and requested length [n >= 0] such
    that [len(in)+n] is an [int] and, when the capacity of [in] does not
    cover it, is within the allocation limit of the runtime and the memory
    there is: [SliceForAppend] returns a head of length [len(in)+n] whose
    first [len(in)] bytes are those of [in] and a tail of length [n] that is
    the view of head from [len(in)] on, its last [n] bytes; when the
    capacity of [in] covers [len(in)+n] the heap is as before, nothing was
    allocated, and head starts where [in] starts in the same array. When
    the capacity does not cover [len(in)+n] and the allocation is beyond
    the limit or the memory, there is no result and the heap is as
    before. *)
Theorem SliceForAppend_spec (avail : Z) (m : Mem.heap) (in_ : Mem.slice) (n : Z) :
  Mem.wf m in_ -> 0 <= n -> Mem.slen in_ + n <= max_int ->
  ((Mem.scap in_ < Mem.slen in_ + n ->
    Mem.slen in_ + n <= Mem.maxAlloc /\ Mem.slen in_ + n <= avail) ->
   exists head tail m',
     Mem.SliceForAppend avail in_ n m = (Done (head, tail), m') /\
     Mem.slen head = Mem.slen in_ + n /\
     len (Mem.read m' head) = Mem.slen in_ + n /\
     take (Z.to_nat (Mem.slen in_)) (Mem.read m' head) = Mem.read m in_ /\
     Mem.slen tail = n /\
     Mem.base tail = Mem.base head /\ Mem.off tail = Mem.off head + Mem.slen in_ /\
     Mem.read m' tail = drop (Z.to_nat (Mem.slen in_)) (Mem.read m' head) /\
     Mem.wf m' head /\ Mem.wf m' tail /\
     (Mem.slen in_ + n <= Mem.scap in_ ->
      m' = m /\ Mem.base head = Mem.base in_ /\ Mem.off head = Mem.off in_ /\
      Mem.scap head = Mem.scap in_)) /\
  (Mem.scap in_ < Mem.slen in_ + n ->
   Mem.maxAlloc < Mem.slen in_ + n \/ avail < Mem.slen in_ + n ->
   exists p, Mem.SliceForAppend avail in_ n m = (Panicked p, m)).
Proof.
  intros Hwf Hn Hmax. pose proof Hwf as ((Hl1 & Hl2) & Ho & Hb).
  unfold Mem.SliceForAppend. rewrite wrap_int_id by (unfold min_int, max_int in *; lia).
  destruct (Mem.slen in_ + n <=? Mem.scap in_) eqn:Hcap.
  - apply Z.leb_le in Hcap. split; [intros _|lia].
    rewrite slice_to_ok by lia. rewrite slice_from_ok by (cbn [Mem.slen]; lia).
    cbn [Mem.base Mem.off Mem.slen Mem.scap].
    assert (Hhead : Mem.wf m {| Mem.base := Mem.base in_; Mem.off := Mem.off in_; Mem.slen := Mem.slen in_ + n;
                            Mem.scap := Mem.scap in_ |}).
    { unfold Mem.wf. cbn [Mem.base Mem.off Mem.slen Mem.scap]. repeat split; try lia. exact Hb. }
    eexists _, _, m. split; [reflexivity|]. cbn [Mem.base Mem.off Mem.slen Mem.scap].
    split; [reflexivity|]. split; [apply (read_length _ _ Hhead)|].
    split. { rewrite (read_prefix m _ _ _ _ _ (Mem.scap in_)) by lia. now destruct in_. }
    split; [lia|]. split; [reflexivity|]. split; [reflexivity|].
    split. { apply read_suffix; lia. }
    split; [exact Hhead|].
    split. { unfold Mem.wf. cbn [Mem.base Mem.off Mem.slen Mem.scap]. repeat split; try lia.
             destruct (Mem.base in_) as [l|]; [|lia].
             destruct Hb as (a & Ha & Hlen). exists a. split; [assumption|lia]. }
    intros _. auto.
  - apply Z.leb_gt in Hcap. split.
    + intros Hroom. destruct (Hroom Hcap) as [Hlim Hav].
      rewrite make_slice_ok by lia. rewrite copy_into_fresh by (assumption || lia).
      rewrite slice_from_ok by (cbn [Mem.slen]; lia). cbn [Mem.base Mem.off Mem.slen Mem.scap].
      set (l := fresh (dom m)).
      set (data := Mem.read m in_ ++ replicate (Z.to_nat (Mem.slen in_ + n - Mem.slen in_)) 0).
      pose proof (read_length m in_ Hwf) as Hlen. unfold len in Hlen.
      assert (Hdata : len data = Mem.slen in_ + n).
      { unfold len, data. rewrite length_app, length_replicate. lia. }
      assert (Hhead : Mem.wf (<[l := data]> m) {| Mem.base := Some l; Mem.off := 0; Mem.slen := Mem.slen in_ + n;
                                              Mem.scap := Mem.slen in_ + n |}).
      { unfold Mem.wf. cbn [Mem.base Mem.off Mem.slen Mem.scap]. repeat split; try lia.
        exists data. rewrite lookup_insert_eq. split; [reflexivity|lia]. }
      assert (Hread : Mem.read (<[l := data]> m) {| Mem.base := Some l; Mem.off := 0; Mem.slen := Mem.slen in_ + n;
                                                Mem.scap := Mem.slen in_ + n |} = data).
      { unfold Mem.read. cbn [Mem.base Mem.off Mem.slen]. rewrite lookup_insert_eq.
        change (Z.to_nat 0) with 0%nat. rewrite drop_0. apply take_ge. unfold len in Hdata. lia. }
      eexists _, _, _. split; [reflexivity|]. cbn [Mem.base Mem.off Mem.slen Mem.scap].
      split; [reflexivity|]. split; [apply (read_length _ _ Hhead)|].
      split. { rewrite Hread. unfold data. rewrite take_app_length'; [reflexivity|lia]. }
      split; [lia|]. split; [reflexivity|]. split; [reflexivity|].
      split. { apply (read_suffix _ _ 0); lia. }
      split; [exact Hhead|].
      split. { unfold Mem.wf. cbn [Mem.base Mem.off Mem.slen Mem.scap]. repeat split; try lia.
               exists data. rewrite lookup_insert_eq. split; [reflexivity|lia]. }
      intros Hc. lia.
    + intros _ Hbig.
      destruct (make_slice_fails avail (Mem.slen in_ + n) m ltac:(lia) Hbig) as [p ->].
      exists p. reflexivity.
Qed.

Lemma SliceForAppend_spec_witness :
  Mem.wf sampleHeap shortSlice /\ 0 <= 3 /\ Mem.slen shortSlice + 3 <= max_int /\
  (Mem.scap shortSlice < Mem.slen shortSlice + 3 ->
   Mem.slen shortSlice + 3 <= Mem.maxAlloc /\ Mem.slen shortSlice + 3 <= 4096) /\
  exists head tail m',
    Mem.SliceForAppend 4096 shortSlice 3 sampleHeap = (Done (head, tail), m') /\
    Mem.slen head = Mem.slen shortSlice + 3 /\
    len (Mem.read m' head) = Mem.slen shortSlice + 3 /\
    take (Z.to_nat (Mem.slen shortSlice)) (Mem.read m' head) = Mem.read sampleHeap shortSlice /\
    Mem.slen tail = 3 /\
    Mem.base tail = Mem.base head /\ Mem.off tail = Mem.off head + Mem.slen shortSlice /\
    Mem.read m' tail = drop (Z.to_nat (Mem.slen shortSlice)) (Mem.read m' head) /\
    Mem.wf m' head /\ Mem.wf m' tail /\
    (Mem.slen shortSlice + 3 <= Mem.scap shortSlice ->
     m' = sampleHeap /\ Mem.base head = Mem.base shortSlice /\
     Mem.off head = Mem.off shortSlice /\ Mem.scap head = Mem.scap shortSlice).
Proof.
  assert (Hwf : Mem.wf sampleHeap shortSlice).
  { unfold Mem.wf. cbn. split; [lia|]. split; [lia|].
    eexists. split; [reflexivity|]. vm_compute. discriminate. }
  assert (Hmax : Mem.slen shortSlice + 3 <= max_int) by (vm_compute; discriminate).
  assert (Hroom : Mem.scap shortSlice < Mem.slen shortSlice + 3 ->
                  Mem.slen shortSlice + 3 <= Mem.maxAlloc /\ Mem.slen shortSlice + 3 <= 4096).
  { intros _. split; vm_compute; discriminate. }
  split; [exact Hwf|]. split; [lia|]. split; [exact Hmax|]. split; [exact Hroom|].
  exact (proj1 (SliceForAppend_spec 4096 sampleHeap shortSlice 3 Hwf ltac:(lia) Hmax) Hroom).
Defined.

(** C8. Key and nonce derivation is deterministic: when a half connection
    is constructed from a ciphersuite and a secret, constructing from the
    same ciphersuite and secret in any other world succeeds as well, and
    the two half connections hold the same key bytes and the same static
    nonce bytes; each crypter holds that key. *)
Theorem NewHalfConn_deterministic `{Ciphers} (c : Ciphersuite) (secret : bytes)
    (w1 w2 w1' : world) (hc1 : S2AHalfConnection) :
  NewHalfConn c secret w1 = (Done (hc1, None), w1') ->
  exists hc2 w2',
    NewHalfConn c secret w2 = (Done (hc2, None), w2') /\
    key hc2 = key hc1 /\ nonce hc2 = nonce hc1 /\ trafficSecret hc2 = trafficSecret hc1 /\
    current_key (hc1, w1') = Some (key hc1) /\ current_key (hc2, w2') = Some (key hc1).
Proof.
  intros E. apply NewHalfConn_success in E as (k & n & Hsize & Ek & En & Hk & E).
  injection E as -> ->.
  eexists _, _. split; [apply (NewHalfConn_succeeds c secret k n w2); assumption|].
  unfold constructed, current_key. cbn [fst snd key nonce trafficSecret aeadCrypter crypters].
  cbn [mbind option_bind]. rewrite !lookup_insert_eq. repeat split; reflexivity.
Qed.

Lemma NewHalfConn_deterministic_witness :
  @NewHalfConn fakeCiphers Ciphersuite_AES_128_GCM_SHA256 (replicate 32 5) emptyWorld =
    (Done (fst constructedState, None), snd constructedState) /\
  exists hc2 w2',
    @NewHalfConn fakeCiphers Ciphersuite_AES_128_GCM_SHA256 (replicate 32 5) (snd sampleState) =
      (Done (hc2, None), w2') /\
    key hc2 = key (fst constructedState) /\ nonce hc2 = nonce (fst constructedState) /\
    trafficSecret hc2 = trafficSecret (fst constructedState) /\
    current_key (fst constructedState, snd constructedState) = Some (key (fst constructedState)) /\
    current_key (hc2, w2') = Some (key (fst constructedState)).
Proof.
  assert (E : @NewHalfConn fakeCiphers Ciphersuite_AES_128_GCM_SHA256 (replicate 32 5) emptyWorld =
              (Done (fst constructedState, None), snd constructedState))
    by (vm_compute; reflexivity).
  split; [exact E|].
  exact (@NewHalfConn_deterministic fakeCiphers _ _ _ (snd sampleState) _ _ E).
Defined.

(** C9, as the claim states it, fails when [dst] shares its array with a
    buffer of the half connection. [NewHalfConn] keeps the slice it is
    given as [hc.trafficSecret]; a caller who passes [secret[:0]] as [dst]
    gets the ciphertext written over the first bytes of the traffic secret,
    since the capacity of [dst] covers it and nothing is allocated. *)
Lemma Encrypt_overwrites_aliased_secret :
  Mem.read placedHeap (Mem.trafficSecret placedHalfConn) = replicate 32 5 /\
  Mem.base aliasedDst = Mem.base (Mem.trafficSecret placedHalfConn) /\
  Mem.slen aliasedDst = 0 /\
  exists head hc' m',
    @Mem.Encrypt fakeCiphers 4096 sampleCrypters aliasedDst plainSlice Mem.nil
      placedHalfConn placedHeap = (Done (head, None), (hc', m')) /\
    Mem.trafficSecret hc' = Mem.trafficSecret placedHalfConn /\
    Mem.read m' (Mem.trafficSecret hc') = [1; 2] ++ replicate 30 5.
Proof.
  split; [reflexivity|]. split; [reflexivity|]. split; [reflexivity|].
  eexists _, _, _. split; [vm_compute; reflexivity|]. split; [reflexivity|].
  vm_compute. reflexivity.
Qed.

(** C9, amended. Every call of [Encrypt] or [Decrypt] whose [dst] shares
    no array with the traffic secret, the key or the static nonce of the
    half connection leaves these three slices and the bytes they hold, and
    the crypter reference, as they were, whatever it returns and also when
    it panics; of the fields only the sequence counter may differ, and then
    it has advanced by one. The slices themselves and the crypter reference
    are unchanged for every [dst]. And [maskedNonce] computes the
    per-record nonce in an array allocated for it: every array that
    existed, the one behind the static nonce included, is unmodified,
    whether it returns or panics. *)
Theorem Encrypt_Decrypt_frame `{Ciphers} (avail : Z) (crypters : gmap loc aead)
    (dst text aad : Mem.slice) (hc hc' : Mem.halfconn) (m m' : Mem.heap)
    (r : outcome (Mem.slice * option error)) :
  Mem.Encrypt avail crypters dst text aad hc m = (r, (hc', m')) \/
  Mem.Decrypt avail crypters dst text aad hc m = (r, (hc', m')) ->
  Mem.wf m (Mem.trafficSecret hc) -> Mem.wf m (Mem.key hc) -> Mem.wf m (Mem.nonce hc) ->
  (Mem.trafficSecret hc' = Mem.trafficSecret hc /\
   Mem.key hc' = Mem.key hc /\
   Mem.nonce hc' = Mem.nonce hc /\
   Mem.aeadCrypter hc' = Mem.aeadCrypter hc /\
   (Mem.seqCounter hc' = Mem.seqCounter hc \/
    Mem.seqCounter hc' = increment (Mem.seqCounter hc))) /\
  (Mem.separate dst (Mem.trafficSecret hc) ->
   Mem.read m' (Mem.trafficSecret hc') = Mem.read m (Mem.trafficSecret hc)) /\
  (Mem.separate dst (Mem.key hc) ->
   Mem.read m' (Mem.key hc') = Mem.read m (Mem.key hc)) /\
  (Mem.separate dst (Mem.nonce hc) ->
   Mem.read m' (Mem.nonce hc') = Mem.read m (Mem.nonce hc)) /\
  (forall sequence rn m1,
     Mem.maskedNonce avail (Mem.nonce hc) sequence m = (rn, m1) ->
     (forall l, l ∈ dom m -> m1 !! l = m !! l) /\
     Mem.read m1 (Mem.nonce hc) = Mem.read m (Mem.nonce hc) /\
     match rn with
     | Done n =>
         (exists l, Mem.base n = Some l /\ l ∉ dom m) /\
         Done (Mem.read m1 n) = maskedNonce_bytes (Mem.read m (Mem.nonce hc)) sequence
     | Panicked p => True
     end).
Proof.
  intros Hcall Hws Hwk Hwn.
  assert (Hfields : Mem.trafficSecret hc' = Mem.trafficSecret hc /\
                    Mem.key hc' = Mem.key hc /\ Mem.nonce hc' = Mem.nonce hc /\
                    Mem.aeadCrypter hc' = Mem.aeadCrypter hc /\
                    (Mem.seqCounter hc' = Mem.seqCounter hc \/
                     Mem.seqCounter hc' = increment (Mem.seqCounter hc))).
  { destruct Hcall as [E|E]; [apply mem_Encrypt_fields in E|apply mem_Decrypt_fields in E];
      exact E. }
  assert (Hbytes : forall f, Mem.wf m f -> Mem.separate dst f -> Mem.read m' f = Mem.read m f).
  { intros f Hwf Hsep. apply read_agree. intros l Hl.
    pose proof (wf_in_dom m f l Hwf Hl) as Hin.
    assert (Hne : Some l <> Mem.base dst).
    { destruct Hsep as [Hd|[Hf|Hdf]]; congruence. }
    destruct Hcall as [E|E];
      [exact (mem_Encrypt_frame _ _ _ _ _ _ _ _ _ _ l E Hin Hne)
      |exact (mem_Decrypt_frame _ _ _ _ _ _ _ _ _ _ l E Hin Hne)]. }
  destruct Hfields as (Fs & Fk & Fn & Fc & Fq).
  split; [auto|]. rewrite Fs, Fk, Fn.
  split; [apply Hbytes, Hws|]. split; [apply Hbytes, Hwk|]. split; [apply Hbytes, Hwn|].
  intros sequence rn m1 Hmask.
  destruct (mem_maskedNonce_spec avail m m1 (Mem.nonce hc) sequence rn Hwn Hmask) as (H1 & H2 & H3).
  split; [exact H1|]. split; [exact H2|].
  destruct rn as [n|p]; [|exact I].
  destruct H3 as (Hb & Hfresh & Hread). split; [eauto|exact Hread].
Qed.

Lemma Encrypt_Decrypt_frame_witness :
  exists r hc' m',
    @Mem.Encrypt fakeCiphers 4096 sampleCrypters Mem.nil plainSlice Mem.nil
      placedHalfConn placedHeap = (r, (hc', m')) /\
    Mem.wf placedHeap (Mem.trafficSecret placedHalfConn) /\
    Mem.wf placedHeap (Mem.key placedHalfConn) /\
    Mem.wf placedHeap (Mem.nonce placedHalfConn) /\
    Mem.separate Mem.nil (Mem.trafficSecret placedHalfConn) /\
    Mem.seqCounter hc' = increment (Mem.seqCounter placedHalfConn) /\
    Mem.read m' (Mem.trafficSecret hc') = replicate 32 5.
Proof.
  pose (res := @Mem.Encrypt fakeCiphers 4096 sampleCrypters Mem.nil plainSlice Mem.nil
                 placedHalfConn placedHeap).
  assert (E : @Mem.Encrypt fakeCiphers 4096 sampleCrypters Mem.nil plainSlice Mem.nil
                placedHalfConn placedHeap = (fst res, (fst (snd res), snd (snd res))))
    by (vm_compute; reflexivity).
  assert (Hws : Mem.wf placedHeap (Mem.trafficSecret placedHalfConn)).
  { unfold Mem.wf. cbn. split; [lia|]. split; [lia|].
    eexists. split; [reflexivity|]. vm_compute. discriminate. }
  assert (Hwk : Mem.wf placedHeap (Mem.key placedHalfConn)).
  { unfold Mem.wf. cbn. split; [lia|]. split; [lia|].
    eexists. split; [reflexivity|]. vm_compute. discriminate. }
  assert (Hwn : Mem.wf placedHeap (Mem.nonce placedHalfConn)).
  { unfold Mem.wf. cbn. split; [lia|]. split; [lia|].
    eexists. split; [reflexivity|]. vm_compute. discriminate. }
  assert (Hsep : Mem.separate Mem.nil (Mem.trafficSecret placedHalfConn)) by (left; reflexivity).
  exists (fst res), (fst (snd res)), (snd (snd res)).
  split; [exact E|]. split; [exact Hws|]. split; [exact Hwk|]. split; [exact Hwn|].
  split; [exact Hsep|].
  pose proof (@Encrypt_Decrypt_frame fakeCiphers _ _ _ _ _ _ _ _ _ _ (or_introl E) Hws Hwk Hwn)
    as (_ & Hsec & _).
  split; [vm_compute; reflexivity|]. exact (Hsec Hsep).
Defined.

(** C10. The masked nonce for sequence number 0 is the static nonce, byte
    for byte; hence the first record encrypted or decrypted by a half
    connection just constructed, or just after a successful [UpdateKey],
    goes to the AEAD under the unmasked static nonce. (The static nonce has
    the 12 bytes [maskedNonce] indexes.) *)
Theorem first_record_uses_static_nonce `{Ciphers} (s : state) (dst text aad : bytes) :
  NonceSize <= len (nonce (fst s)) ->
  fresh_epoch s ->
  maskedNonce 0 s = (Done (nonce (fst s)), s) /\
  (exists r s', Encrypt dst text aad s = (Done r, s') /\
                used_nonces (events_since s s') = [nonce (fst s)]) /\
  (exists r s', Decrypt dst text aad s = (Done r, s') /\
                used_nonces (events_since s s') = [nonce (fst s)]).
Proof.
  intros Hlen Hfresh. unfold NonceSize, len in Hlen.
  assert (Hmask : maskedNonce_bytes (nonce (fst s)) 0 = Done (nonce (fst s)))
    by (apply maskedNonce_bytes_zero; lia).
  assert (Hstart : seqCounter (fst s) = newCounter /\
                   exists l a, aeadCrypter (fst s) = Some l /\ crypters (snd s) !! l = Some a).
  { destruct Hfresh as [(c & secret & w & E)|(s0 & E)].
    - apply NewHalfConn_success in E as (k & n & _ & _ & _ & _ & E).
      destruct s as [hc w']. injection E as -> ->.
      cbn [fst snd seqCounter aeadCrypter crypters].
      split; [reflexivity|]. eexists _, _. split; [reflexivity|]. apply lookup_insert_eq.
    - apply UpdateKey_success in E
        as (suite & e & sec & k & n & l & a & _ & _ & _ & _ & _ & Hl & Ha & _ & ->).
      unfold rekeyed. cbn [fst snd seqCounter aeadCrypter crypters].
      split; [reflexivity|]. exists l. eexists. split; [assumption|]. apply lookup_insert_eq. }
  destruct Hstart as (Hctr & l & a & Hl & Ha).
  split; [|split].
  - unfold maskedNonce, bind, get_hc, ret. now rewrite Hmask.
  - rewrite Encrypt_cases, Hctr. cbn [value newCounter hasOverflowed val].
    rewrite Hmask, crypter_encrypt_cases, Hl. cbn [advanced snd]. rewrite Ha.
    eexists _, _. split; [reflexivity|].
    unfold events_since. cbn [snd trace]. now rewrite drop_app_length.
  - rewrite Decrypt_cases, Hctr. cbn [value newCounter hasOverflowed val].
    rewrite Hmask, crypter_decrypt_cases, Hl. cbn [advanced snd]. rewrite Ha.
    eexists _, _. split; [reflexivity|].
    unfold events_since. cbn [snd trace]. now rewrite drop_app_length.
Qed.

Lemma first_record_uses_static_nonce_witness :
  NonceSize <= len (nonce (fst constructedState)) /\
  @fresh_epoch fakeCiphers constructedState /\
  maskedNonce 0 constructedState = (Done (nonce (fst constructedState)), constructedState) /\
  (exists r s', @Encrypt fakeCiphers [] [7] [] constructedState = (Done r, s') /\
                used_nonces (events_since constructedState s') = [nonce (fst constructedState)]) /\
  (exists r s', @Decrypt fakeCiphers [] [7] [] constructedState = (Done r, s') /\
                used_nonces (events_since constructedState s') = [nonce (fst constructedState)]).
Proof.
  assert (Hlen : NonceSize <= len (nonce (fst constructedState))) by (vm_compute; discriminate).
  assert (Hfresh : @fresh_epoch fakeCiphers constructedState).
  { left. exists Ciphersuite_AES_128_GCM_SHA256, (replicate 32 5), emptyWorld.
    vm_compute. reflexivity. }
  split; [exact Hlen|]. split; [exact Hfresh|].
  exact (@first_record_uses_static_nonce fakeCiphers constructedState [] [7] [] Hlen Hfresh).
Defined.

(** * Further properties of the code *)

(** ** Nonce masking beyond the 12-byte case *)

Lemma maskedNonce_bytes_short (static : bytes) (s : Z) :
  (length static < 12)%nat ->
  maskedNonce_bytes static s =
    Panicked (IndexOutOfRange (Z.max 4 (len static)) (len static)).
Proof.
  intros Hlen. unfold maskedNonce_bytes. rewrite copy_make.
  do 12 (destruct static as [|? static];
         [cbv -[Z.shiftr Z.lxor to_byte Z.div Z.modulo]; reflexivity|]).
  simpl in Hlen. lia.
Qed.

Lemma lxor_lxor_same (x b : Z) : Z.lxor x (Z.lxor x b) = b.
Proof. now rewrite <- Z.lxor_assoc, Z.lxor_nilpotent, Z.lxor_0_l. Qed.

Lemma lxor_same_lxor (x b : Z) : Z.lxor (Z.lxor x b) b = x.
Proof. now rewrite Z.lxor_assoc, Z.lxor_nilpotent, Z.lxor_0_r. Qed.

(** The bytes of [be64], spelled out. *)
Lemma be64_bytes (s : Z) :
  be64 s = [(s / 256 ^ 7) mod 256; (s / 256 ^ 6) mod 256; (s / 256 ^ 5) mod 256;
            (s / 256 ^ 4) mod 256; (s / 256 ^ 3) mod 256; (s / 256 ^ 2) mod 256;
            (s / 256) mod 256; s mod 256].
Proof.
  unfold be64. cbn [be_bytes app]. rewrite !Z.div_div by lia. reflexivity.
Qed.

(** X1. When the static nonce has fewer than 12 bytes, [Encrypt] and
    [Decrypt] panic with an index out of range, at index 4 or at the length
    of the nonce, whichever is larger: [maskedNonce] indexes by the
    constant nonce size, not by [len(hc.nonce)]. The sequence number has
    been consumed by then, and the AEAD is not called. *)
Theorem Encrypt_Decrypt_panic_on_short_nonce `{Ciphers} (s : state) (dst text aad : bytes)
    (sequence : Z) :
  len (nonce (fst s)) < NonceSize ->
  value (seqCounter (fst s)) = (sequence, None) ->
  Encrypt dst text aad s =
    (Panicked (IndexOutOfRange (Z.max 4 (len (nonce (fst s)))) (len (nonce (fst s)))),
     advanced s) /\
  Decrypt dst text aad s =
    (Panicked (IndexOutOfRange (Z.max 4 (len (nonce (fst s)))) (len (nonce (fst s)))),
     advanced s) /\
  trace (snd (advanced s)) = trace (snd s) /\
  seqCounter (fst (advanced s)) = increment (seqCounter (fst s)).
Proof.
  intros Hlen Hv. unfold NonceSize, len in Hlen.
  assert (Hp := maskedNonce_bytes_short (nonce (fst s)) sequence ltac:(lia)).
  rewrite Encrypt_cases, Decrypt_cases, Hv, Hp. repeat split.
Qed.

Lemma Encrypt_Decrypt_panic_on_short_nonce_witness :
  len (nonce (fst shortNonceState)) < NonceSize /\
  value (seqCounter (fst shortNonceState)) = (0, None) /\
  @Encrypt fakeCiphers [] [1; 2] [] shortNonceState =
    (Panicked (IndexOutOfRange 5 5), advanced shortNonceState).
Proof.
  assert (Hl : len (nonce (fst shortNonceState)) < NonceSize) by (vm_compute; reflexivity).
  split; [exact Hl|]. split; [reflexivity|].
  exact (proj1 (@Encrypt_Decrypt_panic_on_short_nonce fakeCiphers shortNonceState
                  [] [1; 2] [] 0 Hl eq_refl)).
Defined.

(** X2. Whatever the length of the static nonce (12 bytes or more, else
    there is no result), [maskedNonce] returns a nonce of the same length
    that differs from the static nonce at indices 4 to 11 only, where it is
    the XOR with the corresponding byte of the sequence number; on a static
    nonce of more than 12 bytes the bytes from index 12 on, the last ones,
    are not masked. *)
Theorem maskedNonce_touches_bytes_4_to_11 (s s' : state) (sequence : Z) (n : bytes) :
  maskedNonce sequence s = (Done n, s') ->
  s' = s /\
  length n = length (nonce (fst s)) /\
  (forall i, (i < 4 \/ 12 <= i)%nat -> n !! i = nonce (fst s) !! i) /\
  (forall j, (j < 8)%nat ->
     exists x b, nonce (fst s) !! (4 + j)%nat = Some x /\ be64 sequence !! j = Some b /\
                 n !! (4 + j)%nat = Some (Z.lxor x b)).
Proof.
  unfold maskedNonce, bind, get_hc, ret, throw. cbn [fst].
  destruct (maskedNonce_bytes (nonce (fst s)) sequence) as [n'|p] eqn:E; [|discriminate].
  intros E'. injection E' as -> <-. split; [reflexivity|].
  apply maskedNonce_bytes_Done in E as [Hl ->].
  destruct (nonce (fst s)) as [|x0 [|x1 [|x2 [|x3 [|x4 [|x5 [|x6 [|x7 [|x8 [|x9 [|x10 [|x11 rest]]]]]]]]]]]];
    try (simpl in Hl; lia).
  rewrite be64_bytes. cbn [take drop app xor_bytes zip_with].
  rewrite take_0, drop_0. cbn [zip_with app].
  split; [reflexivity|]. split.
  - intros i [Hi|Hi].
    + do 4 (destruct i as [|i]; [reflexivity|]). lia.
    + do 12 (destruct i as [|i]; [lia|]). reflexivity.
  - intros j Hj.
    do 8 (destruct j as [|j]; [eexists _, _; repeat split; reflexivity|]). lia.
Qed.

Lemma maskedNonce_touches_bytes_4_to_11_witness :
  maskedNonce 258 longNonceState =
    (Done [0; 0; 0; 0; 0; 0; 0; 0; 0; 0; 1; 3; 0], longNonceState) /\
  length [0; 0; 0; 0; 0; 0; 0; 0; 0; 0; 1; 3; 0] = length (nonce (fst longNonceState)) /\
  [0; 0; 0; 0; 0; 0; 0; 0; 0; 0; 1; 3; 0] !! 12%nat = nonce (fst longNonceState) !! 12%nat.
Proof.
  assert (E : maskedNonce 258 longNonceState
              = (Done [0; 0; 0; 0; 0; 0; 0; 0; 0; 0; 1; 3; 0], longNonceState))
    by (vm_compute; reflexivity).
  split; [exact E|].
  destruct (maskedNonce_touches_bytes_4_to_11 _ _ _ _ E) as (_ & Hlen & Hout & _).
  split; [exact Hlen|]. apply Hout. right. lia.
Defined.

(** X3. The sequence number can be read back from a masked nonce: XORing
    bytes 4 to 11 of the static nonce with those of the masked nonce gives
    the 64-bit sequence number, big-endian. So two sequence numbers never
    give the same masked nonce. *)
Theorem maskedNonce_sequence_recoverable (s s' : state) (sequence : Z) (n : bytes) :
  0 <= sequence < 2 ^ 64 ->
  maskedNonce sequence s = (Done n, s') ->
  be_value (xor_bytes (take 8 (drop 4 (nonce (fst s)))) (take 8 (drop 4 n))) = sequence.
Proof.
  intros Hs. unfold maskedNonce, bind, get_hc, ret, throw. cbn [fst].
  destruct (maskedNonce_bytes (nonce (fst s)) sequence) as [n'|p] eqn:E; [|discriminate].
  intros E'. injection E' as -> _.
  apply maskedNonce_bytes_Done in E as [Hl ->].
  destruct (nonce (fst s)) as [|x0 [|x1 [|x2 [|x3 [|x4 [|x5 [|x6 [|x7 [|x8 [|x9 [|x10 [|x11 rest]]]]]]]]]]]];
    try (simpl in Hl; lia).
  rewrite <- (be_value_be_bytes 8 sequence Hs) at 2. f_equal.
  change (be_bytes 8 sequence) with (be64 sequence). rewrite be64_bytes.
  cbn [take drop app xor_bytes zip_with]. rewrite take_0. cbn [zip_with app].
  now rewrite !lxor_lxor_same.
Qed.

Lemma maskedNonce_sequence_recoverable_witness :
  0 <= 258 < 2 ^ 64 /\
  maskedNonce 258 sampleState = (Done [0; 0; 0; 0; 0; 0; 0; 0; 0; 0; 1; 3], sampleState) /\
  be_value (xor_bytes (take 8 (drop 4 (nonce (fst sampleState))))
              (take 8 (drop 4 [0; 0; 0; 0; 0; 0; 0; 0; 0; 0; 1; 3]))) = 258.
Proof.
  assert (Hs : 0 <= 258 < 2 ^ 64) by lia.
  assert (E : maskedNonce 258 sampleState
              = (Done [0; 0; 0; 0; 0; 0; 0; 0; 0; 0; 1; 3], sampleState))
    by (vm_compute; reflexivity).
  split; [exact Hs|]. split; [exact E|].
  exact (maskedNonce_sequence_recoverable sampleState sampleState 258 _ Hs E).
Defined.

(** X4. Masking is its own inverse: masking the masked nonce with the same
    sequence number gives back the static nonce. *)
Theorem maskedNonce_twice_is_identity (s s' : state) (sequence : Z) (n : bytes) :
  maskedNonce sequence s = (Done n, s') ->
  maskedNonce sequence (set_nonce n (fst s), snd s) =
    (Done (nonce (fst s)), (set_nonce n (fst s), snd s)).
Proof.
  unfold maskedNonce, bind, get_hc, ret, throw. cbn [fst nonce set_nonce].
  destruct (maskedNonce_bytes (nonce (fst s)) sequence) as [n'|p] eqn:E; [|discriminate].
  intros E'. injection E' as -> _.
  apply maskedNonce_bytes_Done in E as [Hl ->].
  destruct (nonce (fst s)) as [|x0 [|x1 [|x2 [|x3 [|x4 [|x5 [|x6 [|x7 [|x8 [|x9 [|x10 [|x11 rest]]]]]]]]]]]];
    try (simpl in Hl; lia).
  rewrite maskedNonce_bytes_ge12.
  - rewrite be64_bytes. cbn [take drop app xor_bytes zip_with].
    rewrite ?take_0, ?drop_0. cbn [zip_with app take drop].
    rewrite ?take_0, ?drop_0. cbn [zip_with app]. now rewrite !lxor_same_lxor.
  - rewrite be64_bytes. cbn [take drop app xor_bytes zip_with length]. lia.
Qed.

Lemma maskedNonce_twice_is_identity_witness :
  maskedNonce 258 sampleState = (Done [0; 0; 0; 0; 0; 0; 0; 0; 0; 0; 1; 3], sampleState) /\
  maskedNonce 258 (set_nonce [0; 0; 0; 0; 0; 0; 0; 0; 0; 0; 1; 3] (fst sampleState), snd sampleState) =
    (Done (nonce (fst sampleState)),
     (set_nonce [0; 0; 0; 0; 0; 0; 0; 0; 0; 0; 1; 3] (fst sampleState), snd sampleState)).
Proof.
  assert (E : maskedNonce 258 sampleState
              = (Done [0; 0; 0; 0; 0; 0; 0; 0; 0; 0; 1; 3], sampleState))
    by (vm_compute; reflexivity).
  split; [exact E|].
  exact (maskedNonce_twice_is_identity sampleState sampleState 258 _ E).
Defined.


(** X5. When [UpdateKey] returns an error the sequence counter has not
    been reset, the half connection points to the same crypter object and
    no crypter object has changed: records go on under the old key with the
    sequence numbers that follow. *)
Theorem UpdateKey_error_keeps_counter_and_crypter (s s' : state) (err : error) :
  UpdateKey s = (Done (Some err), s') ->
  seqCounter (fst s') = seqCounter (fst s) /\
  aeadCrypter (fst s') = aeadCrypter (fst s) /\
  crypters (snd s') = crypters (snd s) /\
  current_key s' = current_key s.
Proof.
  intros E. rewrite UpdateKey_cases in E.
  destruct (cs (fst s)) as [suite|]; [|discriminate].
  destruct (expander (fst s)) as [e|]; [|discriminate].
  cbv zeta in E.
  assert (Hs : seqCounter (fst s') = seqCounter (fst s) /\
               aeadCrypter (fst s') = aeadCrypter (fst s) /\
               crypters (snd s') = crypters (snd s)).
  { break_match_in E; try discriminate; injection E as _ <-; same_fields. }
  destruct Hs as (Hc & Hl & Hw). repeat split; try assumption.
  unfold current_key. now rewrite Hl, Hw.
Qed.

Lemma UpdateKey_error_keeps_counter_and_crypter_witness :
  exists err s',
    UpdateKey failingExpanderState = (Done (Some err), s') /\
    seqCounter (fst s') = {| val := 3; hasOverflowed := false |} /\
    current_key s' = Some (replicate 16 9).
Proof.
  eexists _, _.
  assert (E : UpdateKey failingExpanderState =
              (Done (Some (Errorf "hc.deriveSecret(h, %v, %v, %v) failed with error: %v"
                             [ABytes []; AStr tls13Update; AInt 32; AErr (Errorf "DerivationError" [])])),
               snd (UpdateKey failingExpanderState)))
    by (vm_compute; reflexivity).
  split; [exact E|].
  destruct (UpdateKey_error_keeps_counter_and_crypter _ _ _ E) as (Hc & _ & _ & Hk).
  split; [exact Hc|exact Hk].
Defined.

(** X6. [UpdateKey] is not all or nothing. Whenever it returns an error,
    the traffic secret of the half connection has already been replaced by
    what the first derivation returned; if that derivation succeeded, the
    key has been replaced as well by what the key derivation returned,
    while the crypter still holds the old key. Only when the first
    derivation fails are key and static nonce as before. *)
Theorem UpdateKey_error_overwrites_secret (s s' : state) (err : error) :
  UpdateKey s = (Done (Some err), s') ->
  exists suite e,
    cs (fst s) = Some suite /\ expander (fst s) = Some e /\
    let rs := expand e (h (fst s)) (trafficSecret (fst s)) (update_info suite)
                (trafficSecretSize suite) in
    trafficSecret (fst s') = fst rs /\
    (snd rs = None ->
     key (fst s') = fst (expand e (h (fst s)) (fst rs) (key_info suite) (keySize suite))) /\
    (snd rs <> None -> key (fst s') = key (fst s) /\ nonce (fst s') = nonce (fst s)).
Proof.
  intros E. rewrite UpdateKey_cases in E.
  destruct (cs (fst s)) as [suite|]; [|discriminate].
  destruct (expander (fst s)) as [e|]; [|discriminate].
  exists suite, e. split; [reflexivity|]. split; [reflexivity|].
  cbv zeta in E |- *.
  destruct (expand e (h (fst s)) (trafficSecret (fst s)) (update_info suite) (trafficSecretSize suite))
    as [sec [e1|]]; cbn [fst snd] in *.
  - injection E as _ <-. repeat split; congruence.
  - break_match_in E; try discriminate; injection E as _ <-; repeat split; congruence.
Qed.

Lemma UpdateKey_error_overwrites_secret_witness :
  exists err s',
    UpdateKey failingExpanderState = (Done (Some err), s') /\
    trafficSecret (fst failingExpanderState) = replicate 32 5 /\
    trafficSecret (fst s') = [].
Proof.
  eexists _, _.
  assert (E : UpdateKey failingExpanderState =
              (Done (Some (Errorf "hc.deriveSecret(h, %v, %v, %v) failed with error: %v"
                             [ABytes []; AStr tls13Update; AInt 32; AErr (Errorf "DerivationError" [])])),
               snd (UpdateKey failingExpanderState)))
    by (vm_compute; reflexivity).
  split; [exact E|]. split; [reflexivity|].
  destruct (UpdateKey_error_overwrites_secret _ _ _ E) as (suite & e & Hcs & He & Hsec & _).
  injection Hcs as <-. injection He as <-. exact Hsec.
Defined.

(** ** What no call changes *)

Lemma same_config_refl (s : state) : same_config s s.
Proof. repeat split. Qed.

Lemma same_config_trans (s1 s2 s3 : state) :
  same_config s1 s2 -> same_config s2 s3 -> same_config s1 s3.
Proof. unfold same_config. intros (? & ? & ? & ?) (? & ? & ? & ?). repeat split; congruence. Qed.

Lemma keeps_ret {A : Type} (R : state -> state -> Prop) (a : A) :
  (forall s, R s s) -> keeps R (ret a).
Proof. intros Hr s r s' E. injection E as _ <-. apply Hr. Qed.

Lemma keeps_bind {A B : Type} (R : state -> state -> Prop) (m : M A) (f : A -> M B) :
  (forall s1 s2 s3, R s1 s2 -> R s2 s3 -> R s1 s3) ->
  keeps R m -> (forall a, keeps R (f a)) -> keeps R (bind m f).
Proof.
  intros Ht Hm Hf s r s' E. unfold bind in E.
  destruct (m s) as [[a|p] s1] eqn:Em.
  - apply (Ht _ s1); [apply (Hm _ _ _ Em)|apply (Hf _ _ _ _ E)].
  - injection E as _ <-. apply (Hm _ _ _ Em).
Qed.

Lemma UpdateKey_keeps_config : keeps same_config UpdateKey.
Proof.
  intros s r s' E. rewrite UpdateKey_cases in E. cbv zeta in E.
  break_match_in E; injection E as _ <-; same_fields.
Qed.

Lemma perform_keeps_config `{Ciphers} (c : call) : keeps same_config (perform c).
Proof.
  destruct c as [dst text aad|dst text aad|]; cbn [perform];
    (apply keeps_bind; [apply same_config_trans| |intros; apply keeps_ret, same_config_refl]).
  - intros s r s' E. rewrite Encrypt_cases in E.
    destruct (value (seqCounter (fst s))) as [v [e|]]; [injection E as _ <-; same_fields|].
    destruct (maskedNonce_bytes (nonce (fst s)) v); [|injection E as _ <-; same_fields].
    rewrite crypter_encrypt_cases in E.
    break_match_in E; injection E as _ <-; same_fields.
  - intros s r s' E. rewrite Decrypt_cases in E.
    destruct (value (seqCounter (fst s))) as [v [e|]]; [injection E as _ <-; same_fields|].
    destruct (maskedNonce_bytes (nonce (fst s)) v); [|injection E as _ <-; same_fields].
    rewrite crypter_decrypt_cases in E.
    break_match_in E; injection E as _ <-; same_fields.
  - apply UpdateKey_keeps_config.
Qed.

(** X7. No sequence of calls of [Encrypt], [Decrypt] and [UpdateKey],
    whatever each of them returns and also when one panics, changes the
    ciphersuite, the hash, the expander or the crypter reference of the
    half connection: a key update changes the key inside the crypter object,
    it never replaces the object. *)
Theorem calls_never_change_configuration `{Ciphers} (calls : list call) (s s' : state)
    (r : outcome (list bool)) :
  attempt calls s = (r, s') ->
  cs (fst s') = cs (fst s) /\ h (fst s') = h (fst s) /\
  expander (fst s') = expander (fst s) /\ aeadCrypter (fst s') = aeadCrypter (fst s).
Proof.
  revert s r. induction calls as [|c rest IH]; intros s r E.
  - cbn in E. injection E as _ <-. repeat split.
  - cbn [attempt] in E. unfold bind at 1 in E.
    destruct (perform c s) as [[ok|p] s1] eqn:E1.
    + apply perform_keeps_config in E1. unfold bind in E.
      destruct (attempt rest s1) as [[oks|p] s2] eqn:E2; injection E as _ <-;
        apply IH in E2; exact (same_config_trans _ _ _ E1 E2).
    + injection E as _ <-. exact (perform_keeps_config _ _ _ _ E1).
Qed.

Lemma calls_never_change_configuration_witness :
  exists r s',
    @attempt fakeCiphers (CallUpdateKey :: encryptsAroundUpdate) failingExpanderState = (r, s') /\
    cs (fst s') = Some aesgcm128sha256 /\ aeadCrypter (fst s') = Some 0%nat.
Proof.
  eexists _, _.
  assert (E : @attempt fakeCiphers (CallUpdateKey :: encryptsAroundUpdate) failingExpanderState =
              (fst (@attempt fakeCiphers (CallUpdateKey :: encryptsAroundUpdate) failingExpanderState),
               snd (@attempt fakeCiphers (CallUpdateKey :: encryptsAroundUpdate) failingExpanderState)))
    by (vm_compute; reflexivity).
  split; [exact E|].
  destruct (@calls_never_change_configuration fakeCiphers _ _ _ _ E) as (Hcs & _ & _ & Hl).
  split; [exact Hcs|exact Hl].
Defined.

(** ** Half connections in working order *)

Lemma fake_expand_honours_length : honours_length {| expand := fake_expand |}.
Proof.
  intros hf secret info n out. cbn [expand]. unfold fake_expand.
  destruct ((n <? 0) || (255 * 32 <? n)) eqn:E; [discriminate|].
  intros E'. injection E' as <-. unfold len. rewrite length_fmap, length_seqZ.
  apply orb_false_elim in E as [E _]. apply Z.ltb_ge in E. lia.
Qed.

Lemma NewHalfConn_ready `{Ciphers} (c : Ciphersuite) (secret : bytes) (w w' : world)
    (hc : S2AHalfConnection) :
  honours_length defaultHKDFExpander ->
  NewHalfConn c secret w = (Done (hc, None), w') ->
  ready (hc, w').
Proof.
  intros Hexp E. pose proof (NewHalfConn_sizes c secret w w' hc Hexp E) as (Hn & Hk & Hs).
  apply NewHalfConn_success in E as (k & n & _ & _ & _ & _ & E). injection E as -> ->.
  split; [|split].
  - exists (newCiphersuite c). cbn [fst cs nonce key trafficSecret] in *. auto.
  - exists defaultHKDFExpander. split; [reflexivity|assumption].
  - eexists _, _. cbn [fst snd aeadCrypter crypters cs key].
    split; [reflexivity|]. split; [apply lookup_insert_eq|]. split; reflexivity.
Qed.

Lemma rekeyed_ready (s : state) (l : loc) (a : aead) (sec k n : bytes) (suite : ciphersuite)
    (e : hkdfExpander) :
  ready s -> cs (fst s) = Some suite -> expander (fst s) = Some e ->
  aeadCrypter (fst s) = Some l -> crypters (snd s) !! l = Some a ->
  expand e (h (fst s)) (trafficSecret (fst s)) (update_info suite) (trafficSecretSize suite)
    = (sec, None) ->
  expand e (h (fst s)) sec (key_info suite) (keySize suite) = (k, None) ->
  expand e (h (fst s)) sec (nonce_info suite) (cs_nonceSize suite) = (n, None) ->
  ready (rekeyed s l a sec k n suite).
Proof.
  intros (_ & (e' & He' & Hexp) & (l' & a' & Hl' & Ha' & Hcs' & _)) Hcs He Hl Ha Es Ek En.
  rewrite He in He'. injection He' as <-.
  rewrite Hl in Hl'. injection Hl' as <-. rewrite Ha in Ha'. injection Ha' as <-.
  split; [|split].
  - exists suite. cbn [rekeyed fst cs nonce key trafficSecret].
    split; [assumption|]. split; [exact (Hexp _ _ _ _ _ En)|].
    split; [exact (Hexp _ _ _ _ _ Ek)|exact (Hexp _ _ _ _ _ Es)].
  - exists e. cbn [rekeyed fst expander]. split; assumption.
  - eexists l, _. cbn [rekeyed fst snd aeadCrypter crypters cs key].
    split; [assumption|]. split; [apply lookup_insert_eq|]. split; [assumption|reflexivity].
Qed.

Lemma UpdateKey_ready (s s' : state) (r : outcome (option error)) :
  ready s -> UpdateKey s = (r, s') ->
  exists e, r = Done e /\ (e = None -> ready s').
Proof.
  intros Hr E. pose proof Hr as (_ & (e & He & Hexp) & (l & a & Hl & Ha & Hcs & _)).
  rewrite UpdateKey_cases, Hcs, He, Hl, Ha in E. cbv zeta in E.
  destruct (expand e (h (fst s)) (trafficSecret (fst s)) (update_info (aead_suite a))
              (trafficSecretSize (aead_suite a))) as [sec [e1|]] eqn:Es; cbn [fst snd] in E.
  { injection E as <- _. eexists. split; [reflexivity|discriminate]. }
  destruct (expand e (h (fst s)) sec (key_info (aead_suite a)) (keySize (aead_suite a)))
    as [k [e2|]] eqn:Ek; cbn [fst snd] in E.
  { injection E as <- _. eexists. split; [reflexivity|discriminate]. }
  destruct (expand e (h (fst s)) sec (nonce_info (aead_suite a)) (cs_nonceSize (aead_suite a)))
    as [n [e3|]] eqn:En; cbn [fst snd] in E.
  { injection E as <- _. eexists. split; [reflexivity|discriminate]. }
  destruct (len k =? keySize (aead_suite a)); injection E as <- <-.
  - exists None. split; [reflexivity|]. intros _.
    apply (rekeyed_ready s l a sec k n (aead_suite a) e); assumption.
  - eexists. split; [reflexivity|discriminate].
Qed.

Lemma advanced_ready (s : state) (evs : list event) :
  ready s -> ready (fst (advanced s), log evs (snd s)).
Proof.
  intros ((suite & Hs) & He & Hl). split; [|split].
  - exists suite. exact Hs.
  - exact He.
  - exact Hl.
Qed.

Lemma record_ready `{Ciphers} (c : call) (s s' : state) (r : outcome bool) :
  is_record c = true -> ready s -> perform c s = (r, s') ->
  exists ok, r = Done ok /\ (ok = true -> ready s').
Proof.
  intros Hc Hr E.
  pose proof Hr as ((suite & _ & Hn & _) & _ & (l & a & Hl & Ha & _)).
  unfold NonceSize, len in Hn.
  destruct c as [dst text aad|dst text aad|]; [| |discriminate]; cbn [perform] in E;
    unfold bind in E; [rewrite Encrypt_cases in E|rewrite Decrypt_cases in E];
    (destruct (value (seqCounter (fst s))) as [v [e|]];
     [injection E as <- _; eexists; split; [reflexivity|discriminate]|]);
    rewrite (maskedNonce_bytes_ge12 (nonce (fst s)) v) in E by lia;
    [rewrite crypter_encrypt_cases in E|rewrite crypter_decrypt_cases in E];
    rewrite Hl in E; cbn [advanced snd] in E; rewrite Ha in E; unfold ret in E;
    injection E as <- <-; (eexists; split; [reflexivity|]); intros _;
    apply (advanced_ready s); exact Hr.
Qed.

Lemma perform_ready `{Ciphers} (c : call) (s s' : state) (r : outcome bool) :
  ready s -> perform c s = (r, s') ->
  exists ok, r = Done ok /\ (ok = true -> ready s').
Proof.
  intros Hr E. destruct c as [dst text aad|dst text aad|].
  - apply (record_ready (CallEncrypt dst text aad) s); auto.
  - apply (record_ready (CallDecrypt dst text aad) s); auto.
  - cbn [perform] in E. unfold bind in E.
    destruct (UpdateKey s) as [ro s1] eqn:Eu.
    destruct (UpdateKey_ready s s1 ro Hr Eu) as (e & -> & Hready).
    unfold ret in E. injection E as <- <-. eexists. split; [reflexivity|].
    intros Hok. apply bool_decide_eq_true in Hok. auto.
Qed.

Lemma run_ready `{Ciphers} (calls : list call) (s s' : state) (r : outcome bool) :
  ready s -> run calls s = (r, s') ->
  exists ok, r = Done ok /\ (ok = true -> ready s').
Proof.
  revert s. induction calls as [|c rest IH]; intros s Hr E.
  - cbn in E. injection E as <- <-. exists true. auto.
  - cbn [run] in E. unfold bind in E.
    destruct (perform c s) as [ro s1] eqn:E1.
    destruct (perform_ready c s s1 ro Hr E1) as (ok & -> & Hready).
    destruct ok.
    + apply (IH s1); auto.
    + injection E as <- <-. exists false. split; [reflexivity|discriminate].
Qed.

(** X8. The working order of a half connection is kept by every run of
    calls that succeed: if the key, the static nonce and the secret have
    the sizes of the ciphersuite, the expander honours the lengths asked of
    it and the crypter pointed to holds [hc.key], then the same is true
    after the run; in particular the static nonce has 12 bytes again after
    every key update and the crypter's key is the key field. *)
Theorem successful_runs_keep_working_order `{Ciphers} (calls : list call) (s s' : state) :
  ready s ->
  run calls s = (Done true, s') ->
  ready s' /\ len (nonce (fst s')) = NonceSize /\ current_key s' = Some (key (fst s')).
Proof.
  intros Hr E. destruct (run_ready calls s s' _ Hr E) as (ok & Hok & Hready).
  injection Hok as <-. specialize (Hready eq_refl).
  split; [exact Hready|].
  destruct Hready as ((suite & _ & Hn & _) & _ & (l & a & Hl & Ha & _ & Hk)).
  split; [exact Hn|]. unfold current_key. rewrite Hl. cbn [mbind option_bind].
  rewrite Ha. cbn [mbind option_bind]. now rewrite Hk.
Qed.

Lemma sampleState_ready : ready sampleState.
Proof.
  split; [|split].
  - exists aesgcm128sha256. repeat split.
  - eexists. split; [reflexivity|apply fake_expand_honours_length].
  - eexists 0%nat, _. repeat split.
Defined.

Lemma successful_runs_keep_working_order_witness :
  ready sampleState /\
  @run fakeCiphers encryptsAroundUpdate sampleState = (Done true, afterEncryptsAroundUpdate) /\
  len (nonce (fst afterEncryptsAroundUpdate)) = NonceSize /\
  current_key afterEncryptsAroundUpdate = Some (key (fst afterEncryptsAroundUpdate)).
Proof.
  assert (E : @run fakeCiphers encryptsAroundUpdate sampleState
              = (Done true, afterEncryptsAroundUpdate)) by (vm_compute; reflexivity).
  split; [exact sampleState_ready|]. split; [exact E|].
  exact (proj2 (@successful_runs_keep_working_order fakeCiphers _ _ _ sampleState_ready E)).
Defined.

(** X9. A half connection that [NewHalfConn] returned without error
    never panics, as long as calls succeed and up to the first call that
    fails: every run of [Encrypt], [Decrypt] and [UpdateKey] calls on it
    returns, the failing call included. (The expander is taken to honour
    the lengths asked of it, which nothing in the package checks for the
    nonce.) *)
Theorem constructed_half_connection_never_panics `{Ciphers} (c : Ciphersuite)
    (secret : bytes) (w w' : world) (hc : S2AHalfConnection) (calls : list call) :
  honours_length defaultHKDFExpander ->
  NewHalfConn c secret w = (Done (hc, None), w') ->
  exists ok s', run calls (hc, w') = (Done ok, s').
Proof.
  intros Hexp E. apply (NewHalfConn_ready c secret w w' hc Hexp) in E.
  destruct (run calls (hc, w')) as [r s'] eqn:Er.
  destruct (run_ready calls (hc, w') s' r E Er) as (ok & -> & _).
  exists ok, s'. reflexivity.
Qed.

Lemma constructed_half_connection_never_panics_witness :
  @honours_length (@defaultHKDFExpander fakeCiphers) /\
  @NewHalfConn fakeCiphers Ciphersuite_AES_128_GCM_SHA256 (replicate 32 5) emptyWorld =
    (Done (fst constructedState, None), snd constructedState) /\
  exists ok s',
    @run fakeCiphers encryptsAroundUpdate (fst constructedState, snd constructedState)
      = (Done ok, s').
Proof.
  assert (E : @NewHalfConn fakeCiphers Ciphersuite_AES_128_GCM_SHA256 (replicate 32 5) emptyWorld =
              (Done (fst constructedState, None), snd constructedState))
    by (vm_compute; reflexivity).
  split; [exact fake_expand_honours_length|]. split; [exact E|].
  exact (@constructed_half_connection_never_panics fakeCiphers _ _ _ _ _ encryptsAroundUpdate
           fake_expand_honours_length E).
Defined.

(** ** Records of both kinds, and the exhausted counter *)

Lemma is_record_not_UpdateKey (c : call) : is_record c = true -> c <> CallUpdateKey.
Proof. destruct c; [discriminate|discriminate|]. intros Hc. discriminate Hc. Qed.

Lemma run_records `{Ciphers} (calls : list call) (s s' : state) :
  forallb is_record calls = true ->
  counter_ok (seqCounter (fst s)) ->
  run calls s = (Done true, s') ->
  Done <$> used_nonces (events_since s s') =
    maskedNonce_bytes (nonce (fst s)) <$>
      seqZ (next_sequence (seqCounter (fst s))) (Z.of_nat (length calls)) /\
  next_sequence (seqCounter (fst s')) =
    next_sequence (seqCounter (fst s)) + Z.of_nat (length calls) /\
  counter_ok (seqCounter (fst s')).
Proof.
  revert s. induction calls as [|c rest IH]; intros s Hall Hok E.
  - cbn in E. injection E as <-. rewrite events_since_refl. cbn.
    split; [reflexivity|]. split; [lia|assumption].
  - cbn [forallb] in Hall. apply andb_prop in Hall as [Hc Hall].
    apply run_cons_success in E as (s1 & E1 & E2).
    pose proof (run_trace _ _ _ E2) as Ht.
    apply record_success in E1 as (v & n & k & ev & Hv & Hn & Hk & Hev & Hik & ->);
      [|apply is_record_not_UpdateKey; assumption].
    destruct (events_since_app s (fst (advanced s), log [ev] (snd s)) s' [ev] _ eq_refl Ht)
      as [-> _].
    specialize (IH (fst (advanced s), log [ev] (snd s)) Hall (counter_ok_increment _ Hok) E2).
    cbn [advanced fst snd seqCounter set_seqCounter nonce] in IH.
    destruct (value_ok _ _ Hv) as (Hno & -> & Hnext).
    rewrite next_sequence_increment in IH by assumption.
    destruct IH as (IH1 & IH2 & IH3). rewrite Hnext in *.
    split; [|split].
    + cbn [length]. rewrite Nat2Z.inj_succ, seqZ_cons by lia.
      rewrite Z.pred_succ. cbn [fmap list_fmap]. unfold used_nonces, used_pairs in *.
      cbn [omap list_omap app]. rewrite Hev. cbn [fmap list_fmap snd].
      change (Z.succ (val (seqCounter s.1))) with (val (seqCounter s.1) + 1).
      rewrite <- IH1, Hn. reflexivity.
    + cbn [length]. lia.
    + exact IH3.
Qed.

(** X10. [Encrypt] and [Decrypt] draw from one counter: in a run of
    successful record calls of either kind, in any order, the call number
    [i] hands the AEAD the static nonce masked with the sequence number
    [start + i], and afterwards the counter stands at [start] plus the number
    of calls. So no two of these calls use the same nonce; in particular a
    record encrypted by a half connection is not opened under the same
    nonce by a [Decrypt] on that same half connection. *)
Theorem records_share_one_counter `{Ciphers} (calls : list call) (s s' : state) :
  forallb is_record calls = true ->
  counter_ok (seqCounter (fst s)) ->
  run calls s = (Done true, s') ->
  Done <$> used_nonces (events_since s s') =
    maskedNonce_bytes (nonce (fst s)) <$>
      seqZ (next_sequence (seqCounter (fst s))) (Z.of_nat (length calls)) /\
  next_sequence (seqCounter (fst s')) =
    next_sequence (seqCounter (fst s)) + Z.of_nat (length calls) /\
  NoDup (used_nonces (events_since s s')).
Proof.
  intros Hall Hok E. destruct (run_records calls s s' Hall Hok E) as (E1 & E2 & Hok').
  split; [exact E1|]. split; [exact E2|].
  apply (NoDup_fmap_1 Done). rewrite E1.
  pose proof (next_sequence_bound _ Hok) as Hb.
  pose proof (next_sequence_bound _ Hok') as Hb'.
  apply NoDup_fmap_2_strong; [|apply NoDup_seqZ].
  intros x y Hx Hy Exy.
  assert (Hin : maskedNonce_bytes (nonce (fst s)) x ∈
                Done <$> used_nonces (events_since s s')).
  { rewrite E1. apply list_elem_of_fmap. eauto. }
  apply list_elem_of_fmap in Hin as (n & Hn & _).
  apply elem_of_seqZ in Hx, Hy.
  apply (maskedNonce_bytes_inj (nonce (fst s)) n); try lia; congruence.
Qed.

Lemma records_share_one_counter_witness :
  forallb is_record [CallEncrypt [] [1; 2] []; CallDecrypt [] [3] []; CallEncrypt [] [4] []] = true /\
  counter_ok (seqCounter (fst sampleState)) /\
  used_nonces (events_since sampleState
     (snd (@run fakeCiphers [CallEncrypt [] [1; 2] []; CallDecrypt [] [3] []; CallEncrypt [] [4] []]
             sampleState))) =
    [[0; 0; 0; 0; 0; 0; 0; 0; 0; 0; 0; 1]; [0; 0; 0; 0; 0; 0; 0; 0; 0; 0; 0; 0];
     [0; 0; 0; 0; 0; 0; 0; 0; 0; 0; 0; 3]] /\
  next_sequence (seqCounter (fst
     (snd (@run fakeCiphers [CallEncrypt [] [1; 2] []; CallDecrypt [] [3] []; CallEncrypt [] [4] []]
             sampleState)))) = 0 + 3.
Proof.
  assert (Hall : forallb is_record
                   [CallEncrypt [] [1; 2] []; CallDecrypt [] [3] []; CallEncrypt [] [4] []] = true)
    by reflexivity.
  assert (Hok : counter_ok (seqCounter (fst sampleState))) by (vm_compute; split; discriminate).
  assert (E : @run fakeCiphers [CallEncrypt [] [1; 2] []; CallDecrypt [] [3] []; CallEncrypt [] [4] []]
                sampleState =
              (Done true,
               snd (@run fakeCiphers
                      [CallEncrypt [] [1; 2] []; CallDecrypt [] [3] []; CallEncrypt [] [4] []]
                      sampleState))) by (vm_compute; reflexivity).
  split; [exact Hall|]. split; [exact Hok|].
  split; [vm_compute; reflexivity|].
  exact (proj1 (proj2 (@records_share_one_counter fakeCiphers _ _ _ Hall Hok E))).
Defined.

(** X11. Once reading the counter fails, it fails for good: every
    [Encrypt] and [Decrypt] of any later sequence of record calls returns
    the error and leaves the whole state, counter and trace of AEAD calls
    included, as it was. Only [UpdateKey] can end this. *)
Theorem exhausted_counter_is_permanent `{Ciphers} (calls : list call) (s : state)
    (v : Z) (err : error) :
  value (seqCounter (fst s)) = (v, Some err) ->
  forallb is_record calls = true ->
  attempt calls s = (Done (replicate (length calls) false), s).
Proof.
  intros Hv. induction calls as [|c rest IH]; intros Hall; [reflexivity|].
  cbn [forallb] in Hall. apply andb_prop in Hall as [Hc Hall].
  cbn [attempt length replicate]. unfold bind at 1.
  assert (E : perform c s = (Done false, s)).
  { destruct c as [dst text aad|dst text aad|]; [| |discriminate]; cbn [perform]; unfold bind;
      [rewrite Encrypt_cases|rewrite Decrypt_cases]; rewrite Hv; reflexivity. }
  rewrite E. unfold bind. rewrite (IH Hall). reflexivity.
Qed.

Lemma exhausted_counter_is_permanent_witness :
  value (seqCounter (fst overflowedState)) = (0, Some (Errorf "SequenceOverflowError" [])) /\
  @attempt fakeCiphers [CallEncrypt [] [1; 2] []; CallDecrypt [] [3] []] overflowedState =
    (Done [false; false], overflowedState).
Proof.
  split; [reflexivity|].
  exact (@exhausted_counter_is_permanent fakeCiphers
           [CallEncrypt [] [1; 2] []; CallDecrypt [] [3] []] overflowedState _ _ eq_refl eq_refl).
Defined.

(** ** Two half connections side by side *)

Lemma NewHalfConn_in_sync `{Ciphers} (c : Ciphersuite) (secret : bytes) (w1 w2 w1' w2' : world)
    (hc1 hc2 : S2AHalfConnection) :
  NewHalfConn c secret w1 = (Done (hc1, None), w1') ->
  NewHalfConn c secret w2 = (Done (hc2, None), w2') ->
  in_sync (hc1, w1') (hc2, w2').
Proof.
  intros E1 E2.
  apply NewHalfConn_success in E1 as (k1 & n1 & _ & Ek1 & En1 & _ & E1).
  apply NewHalfConn_success in E2 as (k2 & n2 & _ & Ek2 & En2 & _ & E2).
  rewrite Ek1 in Ek2. injection Ek2 as <-. rewrite En1 in En2. injection En2 as <-.
  injection E1 as -> ->. injection E2 as -> ->.
  unfold in_sync, constructed. cbn [fst snd cs h expander seqCounter trafficSecret nonce key
                                     aeadCrypter crypters].
  repeat (split; [reflexivity|]).
  eexists _, _, _. split; [reflexivity|]. split; [reflexivity|].
  split; apply lookup_insert_eq.
Qed.

Lemma Encrypt_Decrypt_in_sync `{Ciphers} (s1 s2 s1' : state) (text aad sealed : bytes) :
  aead_round_trips -> in_sync s1 s2 ->
  Encrypt [] text aad s1 = (Done (sealed, None), s1') ->
  exists s2', Decrypt [] sealed aad s2 = (Done (text, None), s2') /\ in_sync s1' s2'.
Proof.
  intros Hrt (Hcs & Hh & He & Hc & Hs & Hn & Hk & l1 & l2 & a & Hl1 & Hl2 & Ha1 & Ha2) E.
  rewrite Encrypt_cases in E. rewrite Decrypt_cases, <- Hc, <- Hn.
  destruct (value (seqCounter (fst s1))) as [v [e|]]; [discriminate|].
  destruct (maskedNonce_bytes (nonce (fst s1)) v) as [n|p]; [|discriminate].
  rewrite crypter_encrypt_cases, Hl1 in E. rewrite crypter_decrypt_cases, Hl2.
  cbn [advanced snd] in *. rewrite Ha1 in E. rewrite Ha2.
  injection E as E <-. apply Hrt in E. rewrite E.
  eexists. split; [reflexivity|].
  unfold in_sync. cbn [fst snd cs h expander seqCounter trafficSecret nonce key aeadCrypter
                        set_seqCounter crypters].
  rewrite Hc. repeat (split; [assumption || reflexivity|]).
  exists l1, l2, a. auto.
Qed.

Lemma UpdateKey_in_sync (s1 s2 s1' : state) :
  in_sync s1 s2 ->
  UpdateKey s1 = (Done None, s1') ->
  exists s2', UpdateKey s2 = (Done None, s2') /\ in_sync s1' s2'.
Proof.
  intros (Hcs & Hh & He & Hc & Hs & Hn & Hk & l1 & l2 & a & Hl1 & Hl2 & Ha1 & Ha2) E.
  apply UpdateKey_success in E
    as (suite & e & sec & k & n & l & a' & Hcs1 & He1 & Es & Ek & En & Hl & Ha & Hlen & ->).
  rewrite Hl1 in Hl. injection Hl as <-. rewrite Ha1 in Ha. injection Ha as <-.
  rewrite UpdateKey_cases, <- Hcs, <- He, <- Hh, <- Hs, Hcs1, He1, Hl2, Ha2. cbv zeta.
  rewrite Es. cbn [fst snd]. rewrite Ek, En. cbn [fst snd].
  rewrite (proj2 (Z.eqb_eq _ _) Hlen).
  eexists. split; [reflexivity|].
  unfold in_sync, rekeyed. cbn [fst snd cs h expander seqCounter trafficSecret nonce key
                                 aeadCrypter crypters].
  repeat (split; [assumption || reflexivity|]).
  eexists l1, l2, _. split; [assumption|]. split; [assumption|].
  split; apply lookup_insert_eq.
Qed.

Lemma exchange_in_sync `{Ciphers} (items : list item) (sender receiver sender' : state) :
  aead_round_trips -> in_sync sender receiver ->
  run (item_call <$> items) sender = (Done true, sender') ->
  exchange items sender receiver = Some (omap item_plaintext items).
Proof.
  intros Hrt. revert sender receiver.
  induction items as [|i rest IH]; intros sender receiver Hsync E; [reflexivity|].
  cbn [fmap list_fmap] in E. apply run_cons_success in E as (s1 & E1 & E2).
  destruct i as [text aad|]; cbn [item_call exchange omap list_omap item_plaintext] in *.
  - cbn [perform] in E1. unfold bind in E1.
    destruct (Encrypt [] text aad sender) as [[[sealed e]|p] s1'] eqn:Ee; [|discriminate].
    unfold ret in E1. injection E1 as E1 ->. apply bool_decide_eq_true in E1.
    cbn [snd] in E1. subst e.
    destruct (Encrypt_Decrypt_in_sync _ _ _ _ _ _ Hrt Hsync Ee) as (r1 & -> & Hsync1).
    now rewrite (IH _ _ Hsync1 E2).
  - apply perform_UpdateKey_success in E1. rewrite E1.
    destruct (UpdateKey_in_sync _ _ _ Hsync E1) as (r1 & -> & Hsync1).
    exact (IH _ _ Hsync1 E2).
Qed.

Lemma fake_aead_round_trips : @aead_round_trips fakeCiphers.
Proof.
  intros suite k text n aad sealed. cbn [seal open fakeCiphers]. unfold fake_seal.
  destruct (len n =? NonceSize); [|discriminate].
  intros E. injection E as <-. reflexivity.
Qed.

(** X12. Two half connections constructed from the same ciphersuite and
    the same secret, one used to send and one to receive, stay in step:
    whenever the sender's calls all succeed (each record encrypted with an
    empty [dst], key updates in between), the receiver, decrypting what
    the sender produced with the same associated data and updating its key
    at the same points, succeeds at every call and obtains the plaintexts
    in order. (The AEAD is taken to open what it sealed under the same key,
    nonce and associated data.) *)
Theorem conversation_round_trip `{Ciphers} (c : Ciphersuite) (secret : bytes)
    (w1 w2 w1' w2' : world) (hc1 hc2 : S2AHalfConnection) (items : list item)
    (sender' : state) :
  aead_round_trips ->
  NewHalfConn c secret w1 = (Done (hc1, None), w1') ->
  NewHalfConn c secret w2 = (Done (hc2, None), w2') ->
  run (item_call <$> items) (hc1, w1') = (Done true, sender') ->
  exchange items (hc1, w1') (hc2, w2') = Some (omap item_plaintext items).
Proof.
  intros Hrt E1 E2 Erun.
  pose proof (NewHalfConn_in_sync c secret w1 w2 w1' w2' hc1 hc2 E1 E2) as Hsync.
  apply (exchange_in_sync items _ _ sender'); assumption.
Qed.

Lemma conversation_round_trip_witness :
  @aead_round_trips fakeCiphers /\
  @run fakeCiphers (item_call <$> sampleItems) constructedState =
    (Done true, snd (@run fakeCiphers (item_call <$> sampleItems) constructedState)) /\
  @exchange fakeCiphers sampleItems constructedState constructedState = Some [[1; 2]; [3]].
Proof.
  assert (E : @NewHalfConn fakeCiphers Ciphersuite_AES_128_GCM_SHA256 (replicate 32 5) emptyWorld =
              (Done (fst constructedState, None), snd constructedState))
    by (vm_compute; reflexivity).
  assert (Er : @run fakeCiphers (item_call <$> sampleItems) (fst constructedState, snd constructedState) =
               (Done true, snd (@run fakeCiphers (item_call <$> sampleItems) constructedState)))
    by (vm_compute; reflexivity).
  split; [exact fake_aead_round_trips|]. split; [exact Er|].
  exact (@conversation_round_trip fakeCiphers _ _ _ _ _ _ _ _ sampleItems _
           fake_aead_round_trips E E Er).
Defined.

(** ** The info structure determines label and length *)

Lemma hkdf_info_inj (l1 l2 : bytes) (n1 n2 : Z) :
  hkdf_info l1 n1 = hkdf_info l2 n2 -> l1 = l2 /\ n1 mod 65536 = n2 mod 65536.
Proof.
  unfold hkdf_info. cbn [be_bytes app]. intros E.
  injection E as E1 E2 E3 E4.
  assert (Hlen : length l1 = length l2) by (unfold len in E3; lia).
  apply app_inj_1 in E4 as [E4 _]; [|assumption].
  split; [assumption|].
  change 65536 with (256 * 256). rewrite !Z.rem_mul_r by lia. lia.
Qed.

(** X13. The info structure [deriveSecret] builds determines the label
    and the length modulo 2^16: two calls hand the expander the same info
    only if their labels are equal and their lengths agree modulo 2^16. In
    particular the derivations of key, nonce and next secret, whose labels
    differ, never hand the expander the same info, whatever the sizes. *)
Theorem hkdfLabel_determines_label_and_length (l1 l2 : bytes) (n1 n2 : Z) (info : bytes) :
  cryptobyte.Bytes (hkdfLabel l1 n1) = (info, None) ->
  cryptobyte.Bytes (hkdfLabel l2 n2) = (info, None) ->
  l1 = l2 /\ n1 mod 65536 = n2 mod 65536 /\ len l1 <= 255 /\
  forall a b,
    fst (cryptobyte.Bytes (hkdfLabel (bytes_of_string tls13Key) a)) <>
      fst (cryptobyte.Bytes (hkdfLabel (bytes_of_string tls13Nonce) b)) /\
    fst (cryptobyte.Bytes (hkdfLabel (bytes_of_string tls13Key) a)) <>
      fst (cryptobyte.Bytes (hkdfLabel (bytes_of_string tls13Update) b)) /\
    fst (cryptobyte.Bytes (hkdfLabel (bytes_of_string tls13Nonce) a)) <>
      fst (cryptobyte.Bytes (hkdfLabel (bytes_of_string tls13Update) b)).
Proof.
  rewrite !hkdfLabel_Bytes.
  destruct (255 <? len l1) eqn:H1; [discriminate|].
  destruct (255 <? len l2) eqn:H2; [discriminate|].
  intros E1 E2. rewrite <- E2 in E1. apply (f_equal fst) in E1. cbn [fst] in E1.
  apply hkdf_info_inj in E1 as [<- Hn].
  split; [reflexivity|]. split; [assumption|]. split; [apply Z.ltb_ge; assumption|].
  intros a b. rewrite !hkdfLabel_Bytes.
  change (255 <? len (bytes_of_string tls13Key)) with false.
  change (255 <? len (bytes_of_string tls13Nonce)) with false.
  change (255 <? len (bytes_of_string tls13Update)) with false.
  cbn [fst].
  repeat split; intros E; apply hkdf_info_inj in E as [E _]; vm_compute in E; discriminate E.
Qed.

Lemma hkdfLabel_determines_label_and_length_witness :
  cryptobyte.Bytes (hkdfLabel (bytes_of_string tls13Key) 16) =
    ([0; 16; 9; 116; 108; 115; 49; 51; 32; 107; 101; 121; 0], None) /\
  cryptobyte.Bytes (hkdfLabel (bytes_of_string tls13Key) 65552) =
    ([0; 16; 9; 116; 108; 115; 49; 51; 32; 107; 101; 121; 0], None) /\
  16 mod 65536 = 65552 mod 65536.
Proof.
  assert (E1 : cryptobyte.Bytes (hkdfLabel (bytes_of_string tls13Key) 16) =
               ([0; 16; 9; 116; 108; 115; 49; 51; 32; 107; 101; 121; 0], None))
    by (vm_compute; reflexivity).
  assert (E2 : cryptobyte.Bytes (hkdfLabel (bytes_of_string tls13Key) 65552) =
               ([0; 16; 9; 116; 108; 115; 49; 51; 32; 107; 101; 121; 0], None))
    by (vm_compute; reflexivity).
  split; [exact E1|]. split; [exact E2|].
  exact (proj1 (proj2 (hkdfLabel_determines_label_and_length _ _ _ _ _ E1 E2))).
Defined.

(** ** Construction, every way it can end *)

(** X14. [NewHalfConn] never panics and is all or nothing. With an error
    it returns the zero half connection and has created no crypter object.
    Without error the half connection has its counter at 0, holds the
    secret it was given, and points to a new crypter object, of the
    requested ciphersuite, that holds [hc.key]. In both cases the crypter
    objects that existed are untouched. *)
Theorem NewHalfConn_all_or_nothing `{Ciphers} (c : Ciphersuite) (secret : bytes) (w : world) :
  exists hc e w',
    NewHalfConn c secret w = (Done (hc, e), w') /\
    (forall l, l ∈ dom (crypters w) -> crypters w' !! l = crypters w !! l) /\
    match e with
    | Some _ => hc = zeroHalfConn /\ crypters w' = crypters w
    | None =>
        seqCounter hc = newCounter /\ trafficSecret hc = secret /\
        cs hc = Some (newCiphersuite c) /\
        exists l, aeadCrypter hc = Some l /\ (l ∉ dom (crypters w)) /\
                  crypters w' !! l = Some {| aead_suite := newCiphersuite c; aead_key := key hc |}
    end.
Proof.
  rewrite NewHalfConn_cases. cbv zeta.
  destruct (negb _).
  { eexists _, _, _. split; [reflexivity|]. split; [reflexivity|]. split; reflexivity. }
  destruct (expand defaultHKDFExpander (hashFunction (newCiphersuite c)) secret
              (key_info (newCiphersuite c)) (keySize (newCiphersuite c))) as [k [err|]];
    cbn [fst snd].
  { eexists _, _, _. split; [reflexivity|]. split; [reflexivity|]. split; reflexivity. }
  destruct (expand defaultHKDFExpander (hashFunction (newCiphersuite c)) secret
              (nonce_info (newCiphersuite c)) (cs_nonceSize (newCiphersuite c))) as [n [err|]];
    cbn [fst snd].
  { eexists _, _, _. split; [reflexivity|]. split; [reflexivity|]. split; reflexivity. }
  destruct (len k =? keySize (newCiphersuite c)).
  - eexists _, _, _. split; [reflexivity|]. cbn [constructed fst snd crypters].
    split.
    + intros l Hl. apply lookup_insert_ne. intros <-. exact (is_fresh _ Hl).
    + cbn [seqCounter trafficSecret cs aeadCrypter key].
      repeat (split; [reflexivity|]).
      exists (fresh (dom (crypters w))). split; [reflexivity|].
      split; [apply is_fresh|apply lookup_insert_eq].
  - eexists _, _, _. split; [reflexivity|]. split; [reflexivity|]. split; reflexivity.
Qed.

(** X15. The half connection [NewHalfConn] returns beside an error is not
    usable: [Encrypt] and [Decrypt] on it panic with an index out of range
    (its static nonce is empty; the counter has been advanced by then), and
    [UpdateKey] panics on the nil ciphersuite. *)
Theorem failed_construction_result_panics `{Ciphers} (c : Ciphersuite) (secret : bytes)
    (w w' : world) (hc : S2AHalfConnection) (err : error) (dst text aad : bytes) :
  NewHalfConn c secret w = (Done (hc, Some err), w') ->
  Encrypt dst text aad (hc, w') = (Panicked (IndexOutOfRange 4 0), advanced (hc, w')) /\
  Decrypt dst text aad (hc, w') = (Panicked (IndexOutOfRange 4 0), advanced (hc, w')) /\
  UpdateKey (hc, w') = (Panicked NilDereference, (hc, w')).
Proof.
  intros E.
  assert (Hz : hc = zeroHalfConn).
  { rewrite NewHalfConn_cases in E. cbv zeta in E.
    break_match_in E; try discriminate; injection E as <- _ _; reflexivity. }
  subst hc. rewrite Encrypt_cases, Decrypt_cases, UpdateKey_cases.
  cbn [fst zeroHalfConn seqCounter nonce cs value hasOverflowed val].
  rewrite (maskedNonce_bytes_short [] 0) by (cbn; lia).
  repeat split.
Qed.

Lemma failed_construction_result_panics_witness :
  exists err,
    @NewHalfConn fakeCiphers Ciphersuite_AES_128_GCM_SHA256 (replicate 31 5) emptyWorld =
      (Done (zeroHalfConn, Some err), emptyWorld) /\
    @Encrypt fakeCiphers [] [1; 2] [] (zeroHalfConn, emptyWorld) =
      (Panicked (IndexOutOfRange 4 0), advanced (zeroHalfConn, emptyWorld)).
Proof.
  eexists.
  assert (E : @NewHalfConn fakeCiphers Ciphersuite_AES_128_GCM_SHA256 (replicate 31 5) emptyWorld =
              (Done (zeroHalfConn,
                     Some (Errorf "supplied traffic secret must be %v bytes, given: %v"
                             [AInt 32; ABytes (replicate 31 5)])), emptyWorld))
    by (vm_compute; reflexivity).
  split; [exact E|].
  exact (proj1 (@failed_construction_result_panics fakeCiphers _ _ _ _ _ _ [] [1; 2] [] E)).
Defined.

(** ** [SliceForAppend]: the two slices and the memory behind them *)

Lemma SliceForAppend_cases (avail : Z) (m : Mem.heap) (in_ : Mem.slice) (n : Z) :
  Mem.wf m in_ -> 0 <= n -> Mem.slen in_ + n <= max_int ->
  (Mem.scap in_ < Mem.slen in_ + n ->
   Mem.slen in_ + n <= Mem.maxAlloc /\ Mem.slen in_ + n <= avail) ->
  Mem.SliceForAppend avail in_ n m =
    if Mem.slen in_ + n <=? Mem.scap in_
    then (Done ({| Mem.base := Mem.base in_; Mem.off := Mem.off in_;
                   Mem.slen := Mem.slen in_ + n; Mem.scap := Mem.scap in_ |},
                {| Mem.base := Mem.base in_; Mem.off := Mem.off in_ + Mem.slen in_;
                   Mem.slen := Mem.slen in_ + n - Mem.slen in_;
                   Mem.scap := Mem.scap in_ - Mem.slen in_ |}), m)
    else (Done ({| Mem.base := Some (fresh (dom m)); Mem.off := 0;
                   Mem.slen := Mem.slen in_ + n; Mem.scap := Mem.slen in_ + n |},
                {| Mem.base := Some (fresh (dom m)); Mem.off := 0 + Mem.slen in_;
                   Mem.slen := Mem.slen in_ + n - Mem.slen in_;
                   Mem.scap := Mem.slen in_ + n - Mem.slen in_ |}),
          <[fresh (dom m) := Mem.read m in_ ++ replicate (Z.to_nat (Mem.slen in_ + n - Mem.slen in_)) 0]> m).
Proof.
  intros Hwf Hn Hmax Hroom. pose proof Hwf as ((Hl1 & Hl2) & Ho & Hb).
  unfold Mem.SliceForAppend. rewrite wrap_int_id by (unfold min_int, max_int in *; lia).
  destruct (Mem.slen in_ + n <=? Mem.scap in_) eqn:Hcap.
  - apply Z.leb_le in Hcap.
    rewrite slice_to_ok by lia. rewrite slice_from_ok by (cbn [Mem.slen]; lia). reflexivity.
  - apply Z.leb_gt in Hcap. destruct (Hroom Hcap) as [Hlim Hav].
    rewrite make_slice_ok by lia. rewrite copy_into_fresh by (assumption || lia).
    rewrite slice_from_ok by (cbn [Mem.slen]; lia). reflexivity.
Qed.

(** Writing [data] through the rear part of a slice, seen through the
    whole slice and through its front part. *)
Lemma write_rear_read (m : Mem.heap) (l : loc) (a data : bytes) (o k j c c' : Z) :
  m !! l = Some a -> 0 <= o -> 0 <= k <= j -> o + j <= len a -> len data = j - k ->
  let m' := Mem.write m {| Mem.base := Some l; Mem.off := o + k; Mem.slen := j - k; Mem.scap := c' |}
              data in
  Mem.read m' {| Mem.base := Some l; Mem.off := o; Mem.slen := j; Mem.scap := c |} =
    take (Z.to_nat k) (drop (Z.to_nat o) a) ++ data /\
  (forall c2, Mem.read m' {| Mem.base := Some l; Mem.off := o; Mem.slen := k; Mem.scap := c2 |} =
              take (Z.to_nat k) (drop (Z.to_nat o) a)) /\
  (forall l', l' <> l -> m' !! l' = m !! l').
Proof.
  intros Hm Ho Hk Ha Hd. unfold len in *. cbv zeta.
  unfold Mem.write, Mem.read. cbn [Mem.base Mem.off Mem.slen]. rewrite Hm.
  rewrite lookup_insert_eq. rewrite (take_ge data) by lia.
  assert (Hfront : drop (Z.to_nat o) (take (Z.to_nat (o + k)) a) =
                   take (Z.to_nat k) (drop (Z.to_nat o) a)).
  { rewrite take_drop_commute. f_equal. f_equal. lia. }
  assert (Hlen : length (take (Z.to_nat k) (drop (Z.to_nat o) a)) = Z.to_nat k).
  { rewrite length_take, length_drop. lia. }
  rewrite drop_app_le by (rewrite length_take; lia). rewrite Hfront.
  split; [|split].
  - rewrite app_assoc. apply take_app_length'. rewrite length_app, Hlen. lia.
  - intros c2. apply take_app_length'. now rewrite Hlen.
  - intros l' Hne. apply lookup_insert_ne. congruence.
Qed.

(** X16. A negative [n] makes [SliceForAppend] panic with a slice bounds
    error, in the slicing [in[:total]] when [len(in)+n] is negative and in
    [head[len(in):]] otherwise; the memory is as before. *)
Theorem SliceForAppend_negative_panics (avail : Z) (m : Mem.heap) (in_ : Mem.slice) (n : Z) :
  Mem.wf m in_ -> n < 0 -> min_int <= n -> Mem.slen in_ <= max_int ->
  Mem.SliceForAppend avail in_ n m =
    (Panicked (if Mem.slen in_ + n <? 0
               then SliceBoundsOutOfRange (Mem.slen in_ + n) (Mem.scap in_)
               else SliceBoundsOutOfRange (Mem.slen in_) (Mem.slen in_ + n)), m).
Proof.
  intros ((Hl1 & Hl2) & _) Hn Hmin Hmax.
  unfold Mem.SliceForAppend. rewrite wrap_int_id by (unfold min_int, max_int in *; lia).
  rewrite (proj2 (Z.leb_le _ _)) by lia.
  unfold Mem.slice_to.
  destruct (Mem.slen in_ + n <? 0) eqn:Hneg; cbn [orb]; [reflexivity|].
  apply Z.ltb_ge in Hneg. rewrite (proj2 (Z.ltb_ge _ _)) by lia.
  unfold Mem.slice_from. cbn [Mem.slen].
  rewrite (proj2 (Z.ltb_ge _ 0)) by lia. rewrite (proj2 (Z.ltb_lt _ _)) by lia.
  reflexivity.
Qed.

Lemma sampleSlices_wf : Mem.wf sampleHeap shortSlice.
Proof.
  unfold Mem.wf. cbn. split; [lia|]. split; [lia|].
  eexists. split; [reflexivity|]. vm_compute. discriminate.
Defined.

Lemma SliceForAppend_negative_panics_witness :
  Mem.wf sampleHeap shortSlice /\ -1 < 0 /\ min_int <= -1 /\ Mem.slen shortSlice <= max_int /\
  Mem.SliceForAppend 4096 shortSlice (-1) sampleHeap =
    (Panicked (SliceBoundsOutOfRange 2 1), sampleHeap).
Proof.
  assert (H1 : min_int <= -1) by (vm_compute; discriminate).
  assert (H2 : Mem.slen shortSlice <= max_int) by (vm_compute; discriminate).
  split; [exact sampleSlices_wf|]. split; [lia|]. split; [exact H1|]. split; [exact H2|].
  exact (SliceForAppend_negative_panics 4096 sampleHeap shortSlice (-1) sampleSlices_wf
           ltac:(lia) H1 H2).
Defined.

(** X17. What the tail of [SliceForAppend] holds depends on the branch.
    After an allocation (capacity too small; the allocation within the
    limit of the runtime and the memory there is) head is a new array of
    exactly [len(in)+n] bytes, the tail is [n] zero bytes and every slice of
    the old memory reads as before. Without allocation the tail is not
    cleared: it shows the [n] bytes the backing array held behind [in]. *)
Theorem SliceForAppend_tail_contents (avail : Z) (m : Mem.heap) (in_ : Mem.slice) (n : Z) :
  Mem.wf m in_ -> 0 <= n -> Mem.slen in_ + n <= max_int ->
  (Mem.scap in_ < Mem.slen in_ + n ->
   Mem.slen in_ + n <= Mem.maxAlloc /\ Mem.slen in_ + n <= avail) ->
  exists head tail m',
    Mem.SliceForAppend avail in_ n m = (Done (head, tail), m') /\
    (Mem.scap in_ < Mem.slen in_ + n ->
     Mem.base head = Some (fresh (dom m)) /\ (fresh (dom m) ∉ dom m) /\
     Mem.scap head = Mem.slen in_ + n /\
     Mem.read m' tail = replicate (Z.to_nat n) 0 /\
     forall s, Mem.wf m s -> Mem.read m' s = Mem.read m s) /\
    (Mem.slen in_ + n <= Mem.scap in_ -> 0 < n ->
     exists l a, Mem.base in_ = Some l /\ m !! l = Some a /\ m' = m /\
                 Mem.read m' tail =
                   take (Z.to_nat n) (drop (Z.to_nat (Mem.off in_ + Mem.slen in_)) a) /\
                 len (Mem.read m' tail) = n).
Proof.
  intros Hwf Hn Hmax Hroom. pose proof Hwf as ((Hl1 & Hl2) & Ho & Hb).
  pose proof (read_length m in_ Hwf) as Hlen. unfold len in Hlen.
  rewrite (SliceForAppend_cases avail) by assumption.
  destruct (Mem.slen in_ + n <=? Mem.scap in_) eqn:Hcap;
    (eexists _, _, _; split; [reflexivity|]).
  - apply Z.leb_le in Hcap. split; [lia|]. intros _ Hpos.
    destruct (Mem.base in_) as [l|] eqn:Hbase; [|lia].
    destruct Hb as (a & Ha & Hcapa). exists l, a.
    split; [reflexivity|]. split; [assumption|]. split; [reflexivity|].
    unfold Mem.read. cbn [Mem.base Mem.off Mem.slen]. rewrite Ha.
    replace (Mem.slen in_ + n - Mem.slen in_) with n by lia.
    split; [reflexivity|]. unfold len in *. rewrite length_take, length_drop. lia.
  - apply Z.leb_gt in Hcap. split; [|lia]. intros _. cbn [Mem.base Mem.scap].
    split; [reflexivity|]. split; [apply is_fresh|]. split; [reflexivity|].
    split.
    + unfold Mem.read. cbn [Mem.base Mem.off Mem.slen]. rewrite lookup_insert_eq.
      replace (Z.to_nat (0 + Mem.slen in_)) with (length (Mem.read m in_)) by lia.
      rewrite drop_app_length. replace (Mem.slen in_ + n - Mem.slen in_) with n by lia.
      apply take_ge. rewrite length_replicate. lia.
    + intros s Hs. apply read_insert_fresh. exact Hs.
Qed.

Lemma SliceForAppend_tail_contents_witness :
  Mem.wf sampleHeap shortSlice /\ 0 <= 3 /\ Mem.slen shortSlice + 3 <= max_int /\
  (Mem.scap shortSlice < Mem.slen shortSlice + 3 ->
   Mem.slen shortSlice + 3 <= Mem.maxAlloc /\ Mem.slen shortSlice + 3 <= 4096) /\
  exists head tail m',
    Mem.SliceForAppend 4096 shortSlice 3 sampleHeap = (Done (head, tail), m') /\
    (Mem.scap shortSlice < Mem.slen shortSlice + 3 ->
     Mem.base head = Some (fresh (dom sampleHeap)) /\ (fresh (dom sampleHeap) ∉ dom sampleHeap) /\
     Mem.scap head = Mem.slen shortSlice + 3 /\
     Mem.read m' tail = replicate (Z.to_nat 3) 0 /\
     forall s, Mem.wf sampleHeap s -> Mem.read m' s = Mem.read sampleHeap s) /\
    (Mem.slen shortSlice + 3 <= Mem.scap shortSlice -> 0 < 3 ->
     exists l a, Mem.base shortSlice = Some l /\ sampleHeap !! l = Some a /\ m' = sampleHeap /\
                 Mem.read m' tail =
                   take (Z.to_nat 3) (drop (Z.to_nat (Mem.off shortSlice + Mem.slen shortSlice)) a) /\
                 len (Mem.read m' tail) = 3).
Proof.
  assert (Hmax : Mem.slen shortSlice + 3 <= max_int) by (vm_compute; discriminate).
  assert (Hroom : Mem.scap shortSlice < Mem.slen shortSlice + 3 ->
                  Mem.slen shortSlice + 3 <= Mem.maxAlloc /\ Mem.slen shortSlice + 3 <= 4096).
  { intros _. split; vm_compute; discriminate. }
  split; [exact sampleSlices_wf|]. split; [lia|]. split; [exact Hmax|]. split; [exact Hroom|].
  exact (SliceForAppend_tail_contents 4096 sampleHeap shortSlice 3 sampleSlices_wf ltac:(lia)
           Hmax Hroom).
Defined.

(** X18. Whichever branch [SliceForAppend] took (an allocation being
    within the limit of the runtime and the memory there is), the tail is a
    window onto the end of head: [n] bytes written through the tail are
    read back through head behind the bytes of [in], and [in] itself reads
    as before. *)
Theorem SliceForAppend_tail_writes_through (avail : Z) (m : Mem.heap) (in_ : Mem.slice) (n : Z) :
  Mem.wf m in_ -> 0 <= n -> Mem.slen in_ + n <= max_int ->
  (Mem.scap in_ < Mem.slen in_ + n ->
   Mem.slen in_ + n <= Mem.maxAlloc /\ Mem.slen in_ + n <= avail) ->
  exists head tail m',
    Mem.SliceForAppend avail in_ n m = (Done (head, tail), m') /\
    forall data, len data = n ->
      Mem.read (Mem.write m' tail data) head = Mem.read m in_ ++ data /\
      Mem.read (Mem.write m' tail data) in_ = Mem.read m in_.
Proof.
  intros Hwf Hn Hmax Hroom. pose proof Hwf as ((Hl1 & Hl2) & Ho & Hb).
  pose proof (read_length m in_ Hwf) as Hlen. unfold len in Hlen.
  rewrite (SliceForAppend_cases avail) by assumption.
  destruct (Mem.slen in_ + n <=? Mem.scap in_) eqn:Hcap;
    (eexists _, _, _; split; [reflexivity|]); intros data Hdata.
  - apply Z.leb_le in Hcap.
    destruct (Mem.base in_) as [l|] eqn:Hbase.
    + destruct Hb as (a & Ha & Hcapa).
      destruct (write_rear_read m l a data (Mem.off in_) (Mem.slen in_) (Mem.slen in_ + n)
                  (Mem.scap in_) (Mem.scap in_ - Mem.slen in_) Ha Ho ltac:(lia) ltac:(lia)
                  ltac:(lia)) as (H1 & H2 & _).
      assert (Hin : Mem.read m in_ = take (Z.to_nat (Mem.slen in_)) (drop (Z.to_nat (Mem.off in_)) a)).
      { unfold Mem.read. now rewrite Hbase, Ha. }
      split; [rewrite Hin; exact H1|].
      rewrite Hin, <- (H2 (Mem.scap in_)). destruct in_. cbn in *. now subst.
    + assert (data = []) by (apply nil_length_inv; unfold len in Hdata; lia). subst data.
      unfold Mem.write, Mem.read. cbn [Mem.base]. rewrite Hbase. split; reflexivity.
  - apply Z.leb_gt in Hcap.
    set (l := fresh (dom m)).
    set (a := Mem.read m in_ ++ replicate (Z.to_nat (Mem.slen in_ + n - Mem.slen in_)) 0).
    assert (Ha : <[l := a]> m !! l = Some a) by apply lookup_insert_eq.
    assert (Hla : Z.of_nat (length a) = Mem.slen in_ + n).
    { unfold a. rewrite length_app, length_replicate. lia. }
    destruct (write_rear_read (<[l := a]> m) l a data 0 (Mem.slen in_) (Mem.slen in_ + n)
                (Mem.slen in_ + n) (Mem.slen in_ + n - Mem.slen in_) Ha ltac:(lia) ltac:(lia)
                ltac:(unfold len; lia) ltac:(lia)) as (H1 & _ & H3).
    assert (Hfront : take (Z.to_nat (Mem.slen in_)) (drop (Z.to_nat 0) a) = Mem.read m in_).
    { change (Z.to_nat 0) with 0%nat. rewrite drop_0. unfold a.
      apply take_app_length'. lia. }
    split; [rewrite <- Hfront at 1; exact H1|].
    unfold Mem.read at 1. destruct (Mem.base in_) as [l'|] eqn:Hbase.
    + destruct Hb as (b & Hb & _).
      assert (Hne : l' <> l).
      { intros ->. unfold l in Hb. rewrite fresh_not_in in Hb. discriminate. }
      rewrite (H3 l' Hne), lookup_insert_ne by congruence.
      unfold Mem.read. now rewrite Hbase.
    + unfold Mem.read. now rewrite Hbase.
Qed.

Lemma SliceForAppend_tail_writes_through_witness :
  Mem.wf sampleHeap shortSlice /\ 0 <= 2 /\ Mem.slen shortSlice + 2 <= max_int /\
  (Mem.scap shortSlice < Mem.slen shortSlice + 2 ->
   Mem.slen shortSlice + 2 <= Mem.maxAlloc /\ Mem.slen shortSlice + 2 <= 4096) /\
  exists head tail m',
    Mem.SliceForAppend 4096 shortSlice 2 sampleHeap = (Done (head, tail), m') /\
    forall data, len data = 2 ->
      Mem.read (Mem.write m' tail data) head = Mem.read sampleHeap shortSlice ++ data /\
      Mem.read (Mem.write m' tail data) shortSlice = Mem.read sampleHeap shortSlice.
Proof.
  assert (Hmax : Mem.slen shortSlice + 2 <= max_int) by (vm_compute; discriminate).
  assert (Hroom : Mem.scap shortSlice < Mem.slen shortSlice + 2 ->
                  Mem.slen shortSlice + 2 <= Mem.maxAlloc /\ Mem.slen shortSlice + 2 <= 4096).
  { intros _. split; vm_compute; discriminate. }
  split; [exact sampleSlices_wf|]. split; [lia|]. split; [exact Hmax|]. split; [exact Hroom|].
  exact (SliceForAppend_tail_writes_through 4096 sampleHeap shortSlice 2 sampleSlices_wf
           ltac:(lia) Hmax Hroom).
Defined.
